(** * Downloadr: chunk planning, size discovery and download orchestration

    A shallow embedding of [src/index.ts] (class [Downloadr]) and the proofs of
    its specified properties.

    Modelling conventions.
    - A JavaScript [number] is a value of [JS.number]: an integral double,
      one of the two infinities, or NaN.  The program only ever builds
      integral values (sizes, offsets, counts).  The operations round as
      doubles do: a sum or a difference is the double nearest to the exact
      result, [parseInt] reads the double nearest to the digits, and
      [Math.ceil (a / b)] takes the ceiling of the rounded quotient.  They
      are exact on the safe integers, those of magnitude below 2^53.  Negative
      zero is not kept apart from zero: the two differ only as divisors,
      and the program divides by [chunkCount] and by a constant only.
    - A string is a [string] of Latin-1 code units, which is how Node decodes
      header values.
    - [download] is asynchronous.  Its suspension points are made explicit:
      the state records where the [async] body is suspended, every callback
      the code registers is a case of the handler [handle], and a run is the
      list of callbacks the event loop delivers, in delivery order.  The
      continuation of an [await] is a callback of its own ([Tick]), so that
      any number of network callbacks may run between the settling of a
      promise and the code that awaits it.
    - The transport and the file system are outside the program: the
      responses, stream events and errors they produce are inputs of a run,
      and the output file is a length with the bytes below it.  A buffer
      piped into a write stream waits in the queue of that stream and
      reaches the file later, when the file system completes the write
      ([FileWritten]); an error of a write stream has no listener and ends
      the process ([StreamError]). *)

From Stdlib Require Import ZArith Lia Ascii Decimal DecimalString.
From Stdlib Require DecimalPos.
From Stdlib.Init Require Import Byte.
From stdpp Require Import base option list functions gmap strings.

Local Open Scope Z_scope.

(** ** JavaScript numbers *)

Module JS.

Inductive number : Type :=
| Int (z : Z)
| Infinity
| NegInfinity
| NaN.

(** [a < b] *)
Definition lt (a b : number) : bool :=
  match a, b with
  | NaN, _ | _, NaN => false
  | Int x, Int y => x <? y
  | Int _, Infinity => true
  | Int _, NegInfinity => false
  | Infinity, _ => false
  | NegInfinity, NegInfinity => false
  | NegInfinity, _ => true
  end.

(** [a === b] *)
Definition strict_eq (a b : number) : bool :=
  match a, b with
  | Int x, Int y => x =? y
  | Infinity, Infinity => true
  | NegInfinity, NegInfinity => true
  | _, _ => false
  end.

(** [- a] *)
Definition neg (a : number) : number :=
  match a with
  | Int x => Int (- x)
  | Infinity => NegInfinity
  | NegInfinity => Infinity
  | NaN => NaN
  end.

(** The double nearest to the integer [z > 0], ties to the even significand:
    [z] itself up to 2^53; above, [z] is cut to its 53 leading bits, and
    from 2^1024 - 2^970 on the result is [Infinity]. *)
Definition round_pos (z : Z) : number :=
  if z <=? 2 ^ 53 then Int z
  else
    let e := Z.log2 z - 52 in
    let m := z / 2 ^ e in
    let r := z mod 2 ^ e in
    let half := 2 ^ (e - 1) in
    let m' := if (half <? r) || ((half =? r) && Z.odd m) then m + 1 else m in
    if 2 ^ 1024 <=? m' * 2 ^ e then Infinity else Int (m' * 2 ^ e).

(** The double nearest to the integer [z]. *)
Definition round (z : Z) : number :=
  if 0 <=? z then round_pos z else neg (round_pos (- z)).

(** [a + b]: the exact sum, rounded. *)
Definition add (a b : number) : number :=
  match a, b with
  | NaN, _ | _, NaN => NaN
  | Int x, Int y => round (x + y)
  | Infinity, NegInfinity | NegInfinity, Infinity => NaN
  | Infinity, _ | _, Infinity => Infinity
  | NegInfinity, _ | _, NegInfinity => NegInfinity
  end.

(** [a - b] *)
Definition sub (a b : number) : number := add a (neg b).

(** [Math.min(a, b)] *)
Definition min (a b : number) : number :=
  match a, b with
  | NaN, _ | _, NaN => NaN
  | Int x, Int y => Int (Z.min x y)
  | NegInfinity, _ | _, NegInfinity => NegInfinity
  | Infinity, y => y
  | x, Infinity => x
  end.

(** The least integer not below [a / b], for [b <> 0]. *)
Definition ceil_divZ (a b : Z) : Z := - ((- a) / b).

(** [floor (log2 (x / y))] for [x, y > 0]. *)
Definition log2_quot (x y : Z) : Z :=
  let l := Z.log2 x - Z.log2 y in
  if (if 0 <=? l then y * 2 ^ l <=? x else y <=? x * 2 ^ (- l))
  then l else l - 1.

(** The double nearest to [x / y] for [x, y > 0], as a pair [(m, e)] that
    stands for [m * 2^e] with [2^52 <= m <= 2^53]: the quotient is cut to 53
    leading bits, ties to the even significand. *)
Definition quot (x y : Z) : Z * Z :=
  let e := log2_quot x y - 52 in
  let n := if 0 <=? e then x else x * 2 ^ (- e) in
  let d := if 0 <=? e then y * 2 ^ e else y in
  let m := n / d in
  let r := n mod d in
  (if (d <? 2 * r) || ((d =? 2 * r) && Z.odd m) then m + 1 else m, e).

(** [Math.ceil] and [Math.floor] of [m * 2^e]. *)
Definition ceil_dyadic (q : Z * Z) : Z :=
  let '(m, e) := q in
  if 0 <=? e then m * 2 ^ e else ceil_divZ m (2 ^ (- e)).

Definition floor_dyadic (q : Z * Z) : Z :=
  let '(m, e) := q in
  if 0 <=? e then m * 2 ^ e else m / 2 ^ (- e).

(** [Math.ceil(a / b)]: the quotient is rounded to a double before the
    ceiling is taken. *)
Definition ceil_div (a b : number) : number :=
  match a, b with
  | NaN, _ | _, NaN => NaN
  | Int x, Int y =>
      if y =? 0 then
        (if 0 <? x then Infinity else if x <? 0 then NegInfinity else NaN)
      else if x =? 0 then Int 0
      else if 0 <? x * y then Int (ceil_dyadic (quot (Z.abs x) (Z.abs y)))
      else Int (- floor_dyadic (quot (Z.abs x) (Z.abs y)))
  | Int _, _ => Int 0
  | Infinity, Int y => if 0 <=? y then Infinity else NegInfinity
  | NegInfinity, Int y => if 0 <=? y then NegInfinity else Infinity
  | _, _ => NaN
  end.

(** The decimal digits of an integer. *)
Definition digits (x : Z) : string := NilZero.string_of_int (Z.to_int x).

(** The shortest decimal [s * 10^p] that rounds to the double [v > 0],
    looked for with [k], [k + 1], ... significant digits; of two candidates
    with the same number of digits, the nearer to [v], and the even one if
    they are as near.  [n] is the number of digits of [v]. *)
Fixpoint shortest (fuel : nat) (k : Z) (v n : Z) : Z * Z :=
  match fuel with
  | O => (v, 0)
  | S fuel' =>
      let p := 10 ^ (n - k) in
      let lo := v / p in
      let hi := lo + 1 in
      let ok_lo := strict_eq (round (lo * p)) (Int v) in
      let ok_hi := strict_eq (round (hi * p)) (Int v) in
      if ok_lo && ok_hi then
        (if (v - lo * p <? hi * p - v)
            || ((v - lo * p =? hi * p - v) && Z.even lo)
         then lo else hi, n - k)
      else if ok_lo then (lo, n - k)
      else if ok_hi then (hi, n - k)
      else shortest fuel' (k + 1) v n
  end.

(** A digit string without its trailing zeros. *)
Fixpoint strip_zeros (s : string) : string :=
  match s with
  | String c r =>
      match strip_zeros r with
      | EmptyString => if Ascii.eqb c "0" then EmptyString else String c EmptyString
      | r' => String c r'
      end
  | EmptyString => EmptyString
  end.

(** [String(v)] for a double [v > 2^53]: the digits of the shortest decimal
    that rounds to [v], followed by zeros while that decimal is below 10^21,
    and in exponent notation from there on. *)
Definition stringify (v : Z) : string :=
  let n := Z.of_nat (String.length (digits v)) in
  let '(s, p) := shortest 17 1 v n in
  if s * 10 ^ p <? 10 ^ 21 then digits (s * 10 ^ p)
  else
    let e := Z.of_nat (String.length (digits s)) + p - 1 in
    match strip_zeros (digits s) with
    | String c EmptyString => String c ("e+" +:+ digits e)
    | String c r => String c ("." +:+ r +:+ "e+" +:+ digits e)
    | EmptyString => "0"
    end.

(** [String(a)], as a template literal interpolates a number. *)
Definition toString (a : number) : string :=
  match a with
  | Int x =>
      if Z.abs x <=? 2 ^ 53 then digits x
      else if 0 <? x then stringify x
      else "-" +:+ stringify (- x)
  | Infinity => "Infinity"
  | NegInfinity => "-Infinity"
  | NaN => "NaN"
  end.

End JS.

Import JS.

(** ** The instance and its chunk planner *)

(** [type Chunk = { start: number; end: number }] *)
Record Chunk : Type := { start : number; end_ : number }.

(** The private fields of [Downloadr] that the modelled methods read. *)
Record Downloadr : Type := {
  url : string;
  outputPath : string;
  chunkCount : number;
  highWaterMark : number;
}.

Definition CHUNK_COUNT : number := Int 3.
Definition HIGH_WATER_MARK : number := Int (64 * 1024).

(** [DownloadrOptions], with [None] for an omitted optional field. *)
Record DownloadrOptions : Type := {
  opt_url : string;
  opt_outputPath : string;
  opt_chunkCount : option number;
  opt_highWaterMark : option number;
}.

(** [constructor(options)] *)
Definition new_Downloadr (options : DownloadrOptions) : Downloadr :=
  {| url := opt_url options;
     outputPath := opt_outputPath options;
     chunkCount := default CHUNK_COUNT (opt_chunkCount options);
     highWaterMark := default HIGH_WATER_MARK (opt_highWaterMark options) |}.

Definition set_chunkCount (n : number) (this : Downloadr) : Downloadr :=
  {| url := url this; outputPath := outputPath this;
     chunkCount := n; highWaterMark := highWaterMark this |}.

(** One iteration of the [for] loop of [getChunks]: the body, then
    [i += chunkSize]. *)
Definition getChunks_body (fileSize chunkSize : number)
    (st : number * list Chunk) : number * list Chunk :=
  let '(i, chunks) := st in
  let e := JS.min (JS.sub (JS.add i chunkSize) (Int 1)) (JS.sub fileSize (Int 1)) in
  (JS.add i chunkSize, chunks ++ [ {| start := i; end_ := e |} ]).

(** The loop [for (let i = 0; i < fileSize; i += chunkSize)], run for at most
    [fuel] iterations; [None] when the loop is still running after them. *)
Fixpoint getChunks_loop (fuel : nat) (fileSize chunkSize : number)
    (st : number * list Chunk) : option (list Chunk) :=
  if JS.lt (fst st) fileSize then
    match fuel with
    | O => None
    | S fuel' =>
        getChunks_loop fuel' fileSize chunkSize (getChunks_body fileSize chunkSize st)
    end
  else Some (snd st).

(** [getChunks(fileSize)] *)
Definition getChunks (fuel : nat) (this : Downloadr) (fileSize : number)
    : option (list Chunk) :=
  let chunkSize := JS.ceil_div fileSize (chunkCount this) in
  getChunks_loop fuel fileSize chunkSize (Int 0, []).

(** ** Strings: [parseInt] and the Content-Range pattern *)

Module Str.

Definition code (c : ascii) : N := N_of_ascii c.

(** [\d] *)
Definition is_digit (c : ascii) : bool :=
  (48 <=? code c)%N && (code c <=? 57)%N.

(** The white space and line terminators [parseInt] skips, among the
    Latin-1 code units: TAB, LF, VT, FF, CR, SP and NBSP. *)
Definition is_white_space (c : ascii) : bool :=
  bool_decide (code c ∈ [9; 10; 11; 12; 13; 32; 160]%N).

Definition digit_value (c : ascii) : Z := Z.of_N (code c) - 48.

Fixpoint trim_start (s : string) : string :=
  match s with
  | String c r => if is_white_space c then trim_start r else s
  | EmptyString => s
  end.

(** The longest prefix of digits, and what follows it. *)
Fixpoint span_digits (s : string) : string * string :=
  match s with
  | String c r =>
      if is_digit c then let '(d, t) := span_digits r in (String c d, t)
      else (EmptyString, s)
  | EmptyString => (EmptyString, EmptyString)
  end.

Fixpoint decimal_value (acc : Z) (digits : string) : Z :=
  match digits with
  | String c r => decimal_value (10 * acc + digit_value c) r
  | EmptyString => acc
  end.

(** [s] without the prefix [p], when it starts with it. *)
Fixpoint strip_prefix (p s : string) : option string :=
  match p, s with
  | EmptyString, _ => Some s
  | String a p', String b s' =>
      if bool_decide (a = b) then strip_prefix p' s' else None
  | String _ _, EmptyString => None
  end.

(** [\d+] at the head of [s]: the digits matched and the rest.  The
    quantifier is greedy and what follows it in the pattern is never a
    digit, so the longest run is the only candidate. *)
Definition digits1 (s : string) : option (string * string) :=
  let '(d, t) := span_digits s in
  match d with
  | EmptyString => None
  | _ => Some (d, t)
  end.

(** The pattern [/bytes \d+-\d+\/(\d+)/] matched at the head of [s]: the
    text of its capture group. *)
Definition content_range_here (s : string) : option string :=
  s1 ← strip_prefix "bytes " s;
  '(_, s2) ← digits1 s1;
  s3 ← strip_prefix "-" s2;
  '(_, s4) ← digits1 s3;
  s5 ← strip_prefix "/" s4;
  '(total, _) ← digits1 s5;
  Some total.

(** [s.match(/bytes \d+-\d+\/(\d+)/)]: the capture group of the leftmost
    match ([sizeMatch[1]]), or [None] when [match] returns [null]. *)
Fixpoint match_content_range (s : string) : option string :=
  match content_range_here s with
  | Some total => Some total
  | None =>
      match s with
      | String _ r => match_content_range r
      | EmptyString => None
      end
  end.

(** [parseInt(s, 10)]: the double nearest to the integer the digits
    denote. *)
Definition parseInt (s : string) : number :=
  let s1 := trim_start s in
  let '(sign, s2) :=
    match s1 with
    | String "-"%char r => (-1, r)
    | String "+"%char r => (1, r)
    | _ => (1, s1)
    end in
  let '(d, _) := span_digits s2 in
  match d with
  | EmptyString => NaN
  | _ => JS.round (sign * decimal_value 0 d)
  end.

(** A string in a condition: [if (s)]. *)
Definition truthy (s : option string) : bool :=
  match s with
  | Some (String _ _) => true
  | _ => false
  end.

End Str.

(** ** Size discovery *)

(** [res.headers]: the response headers, keyed by lower-cased name. *)
Abbreviation headers := (gmap string string).

(** The value both branches of the response callback assign to
    [this.chunkCount]:
    [size < 100 * 1024 * 1024 ? 1 : Math.ceil(size / (100 * 1024 * 1024))]. *)
Definition resolveChunkCount (size : number) : number :=
  if JS.lt size (Int (100 * 1024 * 1024)) then Int 1
  else JS.ceil_div size (Int (100 * 1024 * 1024)).

(** The response callback of [getFileSize]: the value passed to [resolve]
    and the instance after the assignment to [this.chunkCount]. *)
Definition getFileSize_response (this : Downloadr) (hs : headers)
    : number * Downloadr :=
  let contentRange := hs !! "content-range" in
  let sizeMatch :=
    if Str.truthy contentRange
    then Str.match_content_range (default "" contentRange)
    else None in
  match sizeMatch with
  | Some total =>
      let size := Str.parseInt total in
      (size, set_chunkCount (resolveChunkCount size) this)
  | None =>
      let contentLength := hs !! "content-length" in
      if Str.truthy contentLength then
        let size := Str.parseInt (default "" contentLength) in
        (size, set_chunkCount (resolveChunkCount size) this)
      else
        (Int (-1), set_chunkCount (Int 1) this)
  end.

(** A string of decimal digits only. *)
Fixpoint all_digits (s : string) : bool :=
  match s with
  | String c r => Str.is_digit c && all_digits r
  | EmptyString => true
  end.

(** The headers Node's HTTP parser hands to a response callback.  It checks
    the Content-Length field while it reads the message: a value that is
    empty, holds anything but decimal digits, or does not fit 64 bits ends
    the request with a parse error, which [getFileSize] receives as an
    ['error'] of the request, not as a response.  Other fields, Content-Range
    among them, pass as they are. *)
Definition receivable (hs : headers) : bool :=
  match hs !! "content-length" with
  | Some v =>
      negb (String.eqb v "") && all_digits v
      && (Str.decimal_value 0 v <? 2 ^ 64)
  | None => true
  end.

(** ** Errors, events and effects *)

(** An error value: [Error m] is [new Error(m)], built by the program;
    [External m] is an error object handed to the program by the runtime
    (the transport or the file system). *)
Inductive error : Type :=
| Error (message : string)
| External (message : string).

(** [enum DownloadrEvents], each with the payload [emit] is given. *)
Inductive event : Type :=
| DOWNLOAD_START
| DOWNLOAD_COMPLETE
| CHUNK_DOWNLOAD_PROGRESS (s e : number) (chunk : list byte)
| CHUNK_DOWNLOADED (s e : number)
| CHUNK_DOWNLOAD_FAILED (err : error)
| DOWNLOAD_FAILED (err : error).

(** What a run does to the outside world, in program order.  A fetch is
    named by its index in launch order. *)
Inductive action : Type :=
| Emit (ev : event)                          (* this.emit(ev, payload) *)
| Request (range : string)                   (* protocolClient.request: the size probe *)
| Get (k : nat) (range : option string)      (* protocolClient.get, with or without a Range header *)
| ConsoleLog (line : string)
| OpenSync (flags : string)                  (* fs.openSync(outputPath, flags) *)
| FtruncateSync (len : number)
| CloseSync
| CreateWriteStream (k : nat) (pos : number) (flags : string)
| Write (k : nat) (pos : number) (data : list byte).   (* bytes piped into the write stream *)

Inductive promise (A : Type) : Type :=
| Pending
| Fulfilled (a : A)
| Rejected (e : error).
Arguments Pending {A}.
Arguments Fulfilled {A} a.
Arguments Rejected {A} e.

(** [resolve]/[reject] on a promise: only the first call has an effect. *)
Definition settle {A} (p q : promise A) : promise A :=
  match p with
  | Pending => q
  | _ => p
  end.

(** ** The output file *)

(** A file: its length and the byte at each offset below it. *)
Record file_data : Type := { fd_size : Z; fd_byte : Z → byte }.

(** What [outputPath] holds; [None] while the path does not exist. *)
Abbreviation file_content := (option file_data).

(** The byte read at offset [i]: zero past the end. *)
Definition read_byte (c : file_data) (i : Z) : byte :=
  if (0 <=? i) && (i <? fd_size c) then fd_byte c i else x00.

(** [n] bytes read from offset [pos]. *)
Definition fs_read (c : file_data) (pos : Z) (n : nat) : list byte :=
  map (λ j, read_byte c (pos + Z.of_nat j)) (seq 0 n).

(** [fs.openSync(path, 'w')]: create the file, or truncate it to nothing. *)
Definition fs_open_w (f : file_content) : file_content :=
  Some {| fd_size := 0; fd_byte := λ _, x00 |}.

(** [fs.ftruncateSync(fd, len)] for an integer [len]: cut, or extend with
    zero bytes, to [max 0 len] bytes. *)
Definition fs_ftruncate (len : Z) (f : file_content) : file_content :=
  (λ c, {| fd_size := Z.max 0 len; fd_byte := read_byte c |}) <$> f.

(** A positional write of [data] at offset [pos] through a stream opened with
    flags ['r+'], once the file system has carried it out: the path must
    exist (the stream fails to open otherwise and nothing is written); bytes
    outside the written span are kept, and the file grows when the span ends
    past its end.  A write of no bytes changes nothing. *)
Definition fs_write_at (pos : number) (data : list byte) (f : file_content)
    : file_content :=
  match pos, data with
  | Int z, _ :: _ =>
      if 0 <=? z then
        (λ c, let n := Z.of_nat (length data) in
              {| fd_size := Z.max (fd_size c) (z + n);
                 fd_byte := λ i, if (z <=? i) && (i <? z + n)
                                 then nth (Z.to_nat (i - z)) data x00
                                 else read_byte c i |}) <$> f
      else f
  | _, _ => f
  end.

(** What the operating system answers to the three synchronous calls of the
    preallocation step: [None] for success, or the error thrown. *)
Record Env : Type := {
  open_result : option error;
  ftruncate_result : option error;
  close_result : option error;
}.

(** ** One chunk fetch: [downloadChunk] *)

(** The response side of a fetch: no response yet; a response whose status
    was refused (no listener was attached to it); or a response being piped
    into the write stream, whose next write goes to [pos]. *)
Inductive response : Type :=
| Awaited
| Refused
| Streaming (pos : number).

Record fetch : Type := {
  f_start : number;
  f_end : number;
  f_promise : promise unit;      (* the promise [downloadChunk] returned *)
  f_res : response;
}.

(** The [options] argument of [protocolClient.get]: the Range header, or
    none when [end === Infinity]. *)
Definition range_header (s e : number) : option string :=
  if JS.strict_eq e Infinity then None
  else Some ("bytes=" +:+ JS.toString s +:+ "-" +:+ JS.toString e).

(** The synchronous part of [downloadChunk(start, end)]: the request it
    issues and the pending fetch. *)
Definition downloadChunk (k : nat) (s e : number) : fetch * action :=
  ({| f_start := s; f_end := e; f_promise := Pending; f_res := Awaited |},
   Get k (range_header s e)).

(** What a callback of [downloadChunk] does: the effects in order, the call
    of [resolve] or [reject] it makes if any, the response side afterwards
    and the bytes it hands to the write stream, with the offset at which the
    stream will write them. *)
Record reaction : Type := {
  r_actions : list action;
  r_settle : option (promise unit);
  r_res : response;
  r_write : option (number * list byte);
}.

Definition status_message (status : number) : string :=
  "Unexpected status code: " +:+ JS.toString status.

(** The callback passed to [protocolClient.get]. *)
Definition on_response (k : nat) (f : fetch) (status : number) : reaction :=
  if negb (JS.strict_eq status (Int 206)) && negb (JS.strict_eq status (Int 200))
  then {| r_actions := [];
          r_settle := Some (Rejected (Error (status_message status)));
          r_res := Refused; r_write := None |}
  else {| r_actions := [CreateWriteStream k (f_start f) "r+"];
          r_settle := None;
          r_res := Streaming (f_start f); r_write := None |}.

(** [res.pipe(fileStream)] and [res.on('data', ...)], for one buffer: the
    pipe hands the buffer to the write stream, which moves its position on
    ([this.pos += data.length]) and writes the buffer when its turn comes;
    then the listener of [downloadChunk] emits the progress event. *)
Definition on_data (k : nat) (f : fetch) (pos : number) (chunk : list byte)
    : reaction :=
  {| r_actions := [Write k pos chunk;
                   Emit (CHUNK_DOWNLOAD_PROGRESS (f_start f) (f_end f) chunk)];
     r_settle := None;
     r_res := Streaming (JS.add pos (Int (Z.of_nat (length chunk))));
     r_write := Some (pos, chunk) |}.

(** [res.on('end', ...)]: the promise resolves when the response has ended,
    whatever the write stream still holds. *)
Definition on_end (f : fetch) : reaction :=
  {| r_actions := [Emit (CHUNK_DOWNLOADED (f_start f) (f_end f))];
     r_settle := Some (Fulfilled ());
     r_res := f_res f; r_write := None |}.

(** [res.on('error', ...)] and [req.on('error', ...)] *)
Definition on_error (f : fetch) (err : error) : reaction :=
  {| r_actions := [Emit (CHUNK_DOWNLOAD_FAILED err)];
     r_settle := Some (Rejected err);
     r_res := f_res f; r_write := None |}.

(** ** The event loop *)

(** A callback delivered by the event loop.  [FileWritten k] is the
    completion of the oldest write that stream [k] has in its queue, and
    [StreamError k err] the ['error'] event of write stream [k] (its open or
    one of its writes failed).  [Tick] is a microtask checkpoint: the [async]
    body of [download] continues if the promise it awaits is settled. *)
Inductive stimulus : Type :=
| ProbeResponse (hs : headers)
| ProbeError (err : error)
| FetchResponse (k : nat) (status : number)
| FetchData (k : nat) (chunk : list byte)
| FetchEnd (k : nat)
| FetchResError (k : nat) (err : error)
| FetchReqError (k : nat) (err : error)
| FileWritten (k : nat)
| StreamError (k : nat) (err : error)
| Tick.

(** Where the body of [download] stands. *)
Inductive control : Type :=
| AtGetFileSize                     (* await this.getFileSize() *)
| AtDownloadChunk                   (* await this.downloadChunk(0, Infinity) *)
| AtPromiseAll                      (* await Promise.all(tasks) *)
| Looping                           (* inside a getChunks loop that never exits *)
| Returned
| Threw (err : error).

Record state : Type := {
  this : Downloadr;
  sizeP : promise number;           (* the promise of getFileSize() *)
  fetches : list fetch;             (* the calls of downloadChunk so far *)
  allP : promise unit;              (* Promise.all(tasks) *)
  pc : control;
  file : file_content;              (* what the output path holds on disk *)
  queue : nat → list (number * list byte);
                                    (* per write stream: the buffers accepted
                                       and not written yet, with offsets *)
  crashed : option error;           (* the uncaught error that ended the
                                       process, if any *)
  trace : list action;
}.

Definition act (a : list action) (s : state) : state :=
  {| this := this s; sizeP := sizeP s; fetches := fetches s; allP := allP s;
     pc := pc s; file := file s; queue := queue s; crashed := crashed s;
     trace := trace s ++ a |}.

Definition goto (c : control) (s : state) : state :=
  {| this := this s; sizeP := sizeP s; fetches := fetches s; allP := allP s;
     pc := c; file := file s; queue := queue s; crashed := crashed s;
     trace := trace s |}.

Definition set_file (f : file_content) (s : state) : state :=
  {| this := this s; sizeP := sizeP s; fetches := fetches s; allP := allP s;
     pc := pc s; file := f; queue := queue s; crashed := crashed s;
     trace := trace s |}.

Definition is_fulfilled {A} (p : promise A) : bool :=
  match p with
  | Fulfilled _ => true
  | _ => false
  end.

(** What the settling of fetch [f] means for [Promise.all] over [fs]: it
    rejects with the first rejection, and fulfils once every member has. *)
Definition join (fs : list fetch) (f : fetch) : promise unit :=
  match f_promise f with
  | Rejected e => Rejected e
  | _ => if forallb (λ g, is_fulfilled (f_promise g)) fs then Fulfilled ()
         else Pending
  end.

(** Runs callback reaction [r] of fetch [k], which is [f].  What the
    reaction hands to the write stream joins the queue of that stream. *)
Definition apply_reaction (k : nat) (f : fetch) (r : reaction) (s : state)
    : state :=
  let p :=
    match r_settle r with
    | Some q => settle (f_promise f) q
    | None => f_promise f
    end in
  let f' := {| f_start := f_start f; f_end := f_end f;
               f_promise := p; f_res := r_res r |} in
  let fs := <[k := f']> (fetches s) in
  {| this := this s; sizeP := sizeP s;
     fetches := fs;
     allP := settle (allP s) (join fs f');
     pc := pc s;
     file := file s;
     queue := match r_write r with
              | Some w => <[k := queue s k ++ [w]]> (queue s)
              | None => queue s
              end;
     crashed := crashed s;
     trace := trace s ++ r_actions r |}.

(** The file system has carried out the oldest write in the queue of stream
    [k].  Nothing can be written while the path does not exist: the stream
    could not open its file. *)
Definition written_out (k : nat) (s : state) : state :=
  match file s, queue s k with
  | Some _, (pos, data) :: rest =>
      {| this := this s; sizeP := sizeP s; fetches := fetches s;
         allP := allP s; pc := pc s;
         file := fs_write_at pos data (file s);
         queue := <[k := rest]> (queue s);
         crashed := crashed s; trace := trace s |}
  | _, _ => s
  end.

(** Write stream [k] emits ['error'].  [downloadChunk] registers no listener
    for it, and the one [pipe] installs emits the error again when it finds
    no other: the error is thrown out of the event loop and the process
    ends. *)
Definition stream_error (k : nat) (err : error) (s : state) : state :=
  match f_res <$> fetches s !! k with
  | Some (Streaming _) =>
      {| this := this s; sizeP := sizeP s; fetches := fetches s;
         allP := allP s; pc := pc s; file := file s; queue := queue s;
         crashed := Some err; trace := trace s |}
  | _ => s
  end.

(** Delivers a callback to fetch [k], if that fetch exists and has the
    listener registered ([h] answers [None] when it has not). *)
Definition on_fetch (k : nat) (h : fetch → option reaction) (s : state)
    : state :=
  match fetches s !! k with
  | Some f =>
      match h f with
      | Some r => apply_reaction k f r s
      | None => s
      end
  | None => s
  end.

(** The [catch] block of [download]. *)
Definition catch (err : error) (s : state) : state :=
  goto (Threw err) (act [Emit (DOWNLOAD_FAILED err)] s).

(** [chunks.map(chunk => this.downloadChunk(chunk.start, chunk.end))] *)
Definition launch_all (chunks : list Chunk) : list fetch * list action :=
  (imap (λ k c, (downloadChunk k (start c) (end_ c)).1) chunks,
   imap (λ k c, (downloadChunk k (start c) (end_ c)).2) chunks).

(** The iterations [download] grants the loop of [getChunks]: with a positive
    integer step, as many as there are chunks.  They suffice wherever
    [download] calls [getChunks] (lemma [plan_exists]), so the state [Looping] is
    never reached. *)
Definition getChunks_fuel (fileSize chunkSize : number) : nat :=
  match fileSize, chunkSize with
  | Int fs, Int cs => if 0 <? cs then Z.to_nat (JS.ceil_divZ fs cs) else 1%nat
  | _, _ => 1%nat
  end.

(** [Number.MAX_SAFE_INTEGER] *)
Definition MAX_SAFE_INTEGER : Z := 2 ^ 53 - 1.

(** [fs.ftruncateSync(fd, len)]: the runtime refuses a length that is not a
    safe integer ([validateInteger]); otherwise the operating system
    decides. *)
Definition ftruncate_outcome (env : Env) (len : number) : error + Z :=
  match len with
  | Int z =>
      if (- MAX_SAFE_INTEGER <=? z) && (z <=? MAX_SAFE_INTEGER) then
        match ftruncate_result env with
        | Some err => inl err
        | None => inr z
        end
      else inl (External "ERR_OUT_OF_RANGE")
  | _ => inl (External "ERR_OUT_OF_RANGE")
  end.

(** The test [fileSize === -1 || this.chunkCount === 1] of [download]. *)
Definition whole_file_mode (fileSize : number) (d : Downloadr) : bool :=
  JS.strict_eq fileSize (Int (-1)) || JS.strict_eq (chunkCount d) (Int 1).

(** The preallocation step, [openSync; ftruncateSync; closeSync]: the calls
    made, what the path holds afterwards, and the error thrown if any. *)
Definition preallocate (env : Env) (fileSize : number) (f : file_content)
    : list action * file_content * option error :=
  match open_result env with
  | Some err => ([OpenSync "w"], f, Some err)
  | None =>
      match ftruncate_outcome env fileSize with
      | inl err => ([OpenSync "w"; FtruncateSync fileSize], fs_open_w f, Some err)
      | inr len =>
          ([OpenSync "w"; FtruncateSync fileSize; CloseSync],
           fs_ftruncate len (fs_open_w f), close_result env)
      end
  end.

(** The body of [download] from the resolution of [getFileSize] to the next
    [await]. *)
Definition after_size (env : Env) (fileSize : number) (s : state) : state :=
  if whole_file_mode fileSize (this s) then
    let '(f, get) := downloadChunk 0 (Int 0) Infinity in
    {| this := this s; sizeP := sizeP s;
       fetches := [f]; allP := allP s;
       pc := AtDownloadChunk; file := file s;
       queue := queue s; crashed := crashed s;
       trace := trace s ++ [Emit DOWNLOAD_START; get] |}
  else
    let '(calls, f, thrown) := preallocate env fileSize (file s) in
    let s1 :=
      set_file f
        (act (ConsoleLog ("File size: " +:+ JS.toString fileSize +:+ " bytes")
              :: calls) s) in
    match thrown with
    | Some err => catch err s1
    | None =>
        let chunkSize := JS.ceil_div fileSize (chunkCount (this s1)) in
        match getChunks (getChunks_fuel fileSize chunkSize) (this s1) fileSize with
        | None => goto Looping s1
        | Some chunks =>
            let '(fs, gets) := launch_all chunks in
            {| this := this s1; sizeP := sizeP s1;
               fetches := fs;
               allP := match chunks with
                       | [] => Fulfilled ()
                       | _ => Pending
                       end;
               pc := AtPromiseAll; file := file s1;
               queue := queue s1; crashed := crashed s1;
               trace := trace s1 ++ Emit DOWNLOAD_START :: gets |}
        end
    end.

(** The continuation after an awaited promise of [download] has settled. *)
Definition finish (p : promise unit) (s : state) : state :=
  match p with
  | Pending => s
  | Fulfilled _ => goto Returned (act [Emit DOWNLOAD_COMPLETE] s)
  | Rejected err => catch err s
  end.

(** A microtask checkpoint: [download] continues if what it awaits has
    settled. *)
Definition resume (env : Env) (s : state) : state :=
  match pc s with
  | AtGetFileSize =>
      match sizeP s with
      | Pending => s
      | Fulfilled fileSize => after_size env fileSize s
      | Rejected err => catch err s
      end
  | AtDownloadChunk =>
      match fetches s !! 0%nat with
      | Some f => finish (f_promise f) s
      | None => s
      end
  | AtPromiseAll => finish (allP s) s
  | Looping | Returned | Threw _ => s
  end.

(** The callbacks, as registered by [getFileSize] and [downloadChunk], and
    those of the write streams.  The response callbacks run once, and the
    listeners on a response exist only once its status was accepted. *)
Definition handle (env : Env) (x : stimulus) (s : state) : state :=
  match x with
  | ProbeResponse hs =>
      match sizeP s with
      | Pending =>
          let '(size, this') := getFileSize_response (this s) hs in
          {| this := this'; sizeP := Fulfilled size; fetches := fetches s;
             allP := allP s; pc := pc s; file := file s; queue := queue s;
             crashed := crashed s; trace := trace s |}
      | _ => s
      end
  | ProbeError err =>
      {| this := this s; sizeP := settle (sizeP s) (Rejected err);
         fetches := fetches s; allP := allP s; pc := pc s; file := file s;
         queue := queue s; crashed := crashed s; trace := trace s |}
  | FetchResponse k status =>
      on_fetch k (λ f, match f_res f with
                       | Awaited => Some (on_response k f status)
                       | _ => None
                       end) s
  | FetchData k chunk =>
      on_fetch k (λ f, match f_res f with
                       | Streaming pos => Some (on_data k f pos chunk)
                       | _ => None
                       end) s
  | FetchEnd k =>
      on_fetch k (λ f, match f_res f with
                       | Streaming _ => Some (on_end f)
                       | _ => None
                       end) s
  | FetchResError k err =>
      on_fetch k (λ f, match f_res f with
                       | Streaming _ => Some (on_error f err)
                       | _ => None
                       end) s
  | FetchReqError k err => on_fetch k (λ f, Some (on_error f err)) s
  | FileWritten k => written_out k s
  | StreamError k err => stream_error k err s
  | Tick => resume env s
  end.

(** [download()] up to its first [await]: [getFileSize] has issued the
    probe.  [file0] is what the output path holds beforehand. *)
Definition download (d : Downloadr) (file0 : file_content) : state :=
  {| this := d; sizeP := Pending; fetches := []; allP := Pending;
     pc := AtGetFileSize; file := file0; queue := λ _, []; crashed := None;
     trace := [Request "bytes=0-0"] |}.

(** The event loop: it delivers the callbacks one after the other, until
    an uncaught error ends the process. *)
Fixpoint run_from (env : Env) (s : state) (schedule : list stimulus) : state :=
  match schedule with
  | [] => s
  | x :: rest =>
      match crashed s with
      | Some _ => s
      | None => run_from env (handle env x s) rest
      end
  end.

(** A run of [download()] under the callbacks of [schedule]. *)
Definition run (env : Env) (d : Downloadr) (file0 : file_content)
    (schedule : list stimulus) : state :=
  run_from env (download d file0) schedule.

(** The events of a trace, in emission order. *)
Definition events (t : list action) : list event :=
  omap (λ a, match a with Emit ev => Some ev | _ => None end) t.

(** The fetches a trace issues, in order. *)
Definition gets (t : list action) : list (nat * option string) :=
  omap (λ a, match a with Get k r => Some (k, r) | _ => None end) t.

Definition no_faults : Env :=
  {| open_result := None; ftruncate_result := None; close_result := None |}.

(** A file holding exactly the bytes [l]. *)
Definition file_of_bytes (l : list byte) : file_data :=
  {| fd_size := Z.of_nat (length l); fd_byte := λ i, nth (Z.to_nat i) l x00 |}.


(** The [k]-th range of the plan for [fileSize] with step [chunkSize]. *)
Definition nth_chunk (fileSize chunkSize : Z) (k : nat) : Chunk :=
  {| start := Int (Z.of_nat k * chunkSize);
     end_ := Int (Z.min (Z.of_nat k * chunkSize + chunkSize - 1) (fileSize - 1)) |}.

(** The actions of the setup phase: the probe and the preallocation. *)
Definition is_setup (a : action) : bool :=
  match a with
  | Request _ | ConsoleLog _ | OpenSync _ | FtruncateSync _ | CloseSync => true
  | _ => false
  end.

(** The actions of a chunk fetch after its launch. *)
Definition is_activity (a : action) : bool :=
  match a with
  | CreateWriteStream _ _ _ | Write _ _ _
  | Emit (CHUNK_DOWNLOAD_PROGRESS _ _ _) | Emit (CHUNK_DOWNLOADED _ _)
  | Emit (CHUNK_DOWNLOAD_FAILED _) => true
  | _ => false
  end.

Definition is_complete (a : action) : bool :=
  match a with
  | Emit DOWNLOAD_COMPLETE => true
  | _ => false
  end.

(** The trace of a preallocation that succeeds. *)
Definition preallocation (fileSize : number) : list action :=
  [ConsoleLog ("File size: " +:+ JS.toString fileSize +:+ " bytes");
   OpenSync "w"; FtruncateSync fileSize; CloseSync].

(** ** The shape of a run *)

(** What every callback of [downloadChunk] satisfies: it acts within the
    fetch, and it calls [resolve] only next to the completion event. *)
Definition reaction_ok (f : fetch) (r : reaction) : Prop :=
  Forall (λ a, is_activity a = true) (r_actions r)
  ∧ (r_settle r = Some (Fulfilled ()) →
     Emit (CHUNK_DOWNLOADED (f_start f) (f_end f)) ∈ r_actions r).

(** The requests a list of fetches was launched with. *)
Definition launches (fs : list fetch) : list (nat * option string) :=
  imap (λ k f, (k, range_header (f_start f) (f_end f))) fs.

(** A run that has launched no fetch: it awaits the size, or it failed in
    size discovery or in preallocation. *)
Definition not_launched (s : state) : Prop :=
  fetches s = []
  ∧ match pc s with
    | AtGetFileSize =>
        trace s = [Request "bytes=0-0"] ∧ allP s = Pending
        ∧ ∀ size, sizeP s = Fulfilled size →
                  chunkCount (this s) = resolveChunkCount size
    | Threw e =>
        (sizeP s = Rejected e
         ∧ trace s = [Request "bytes=0-0"; Emit (DOWNLOAD_FAILED e)])
        ∨ (∃ size pre,
             sizeP s = Fulfilled size
             ∧ whole_file_mode size (this s) = false
             ∧ trace s = Request "bytes=0-0" :: pre ++ [Emit (DOWNLOAD_FAILED e)]
             ∧ Forall (λ a, is_setup a = true) pre)
    | _ => False
    end.

(** A run that has launched its fetches. *)
Definition launched (s : state) : Prop :=
  ∃ size,
    sizeP s = Fulfilled size
    ∧ fetches s ≠ []
    ∧ gets (trace s) = launches (fetches s)
    ∧ (if whole_file_mode size (this s) then
         ∃ f rest,
           fetches s = [f] ∧ f_start f = Int 0 ∧ f_end f = Infinity
           ∧ trace s = Request "bytes=0-0" :: Emit DOWNLOAD_START
                       :: Get 0 None :: rest
           ∧ Forall (λ a, is_setup a = false) rest
       else
         ∃ z rest c,
           size = Int z
           ∧ trace s = Request "bytes=0-0" :: preallocation size
                       ++ Emit DOWNLOAD_START :: rest
           ∧ Forall (λ a, is_setup a = false) rest
           ∧ file s = Some c ∧ z ≤ fd_size c)
    ∧ (∀ f, f ∈ fetches s → f_promise f = Fulfilled () →
            Emit (CHUNK_DOWNLOADED (f_start f) (f_end f)) ∈ trace s)
    ∧ (allP s = Fulfilled () →
       ∀ f, f ∈ fetches s → f_promise f = Fulfilled ())
    ∧ match pc s with
      | AtDownloadChunk =>
          whole_file_mode size (this s) = true
          ∧ Forall (λ a, is_complete a = false) (trace s)
      | AtPromiseAll =>
          whole_file_mode size (this s) = false
          ∧ Forall (λ a, is_complete a = false) (trace s)
      | Threw _ => Forall (λ a, is_complete a = false) (trace s)
      | Returned =>
          ∃ pre post,
            trace s = pre ++ Emit DOWNLOAD_COMPLETE :: post
            ∧ Forall (λ a, is_complete a = false) pre
            ∧ Forall (λ a, is_complete a = false) post
            ∧ ∀ f, f ∈ fetches s →
                   f_promise f = Fulfilled ()
                   ∧ Emit (CHUNK_DOWNLOADED (f_start f) (f_end f)) ∈ pre
      | _ => False
      end.

(** The invariant of the event loop. *)
Definition Inv (s : state) : Prop := not_launched s ∨ launched s.

(** ** Further definitions *)

(** A number that is at least [w]. *)
Definition at_least (w : Z) (n : number) : Prop :=
  match n with
  | Int z => w ≤ z
  | Infinity => True
  | _ => False
  end.

(** A number that is at most [w]. *)
Definition at_most (w : Z) (n : number) : Prop :=
  match n with
  | Int z => z ≤ w
  | NegInfinity => True
  | _ => False
  end.

(** A string that does not begin with a digit. *)
Definition no_leading_digit (s : string) : bool :=
  match s with
  | String c _ => negb (Str.is_digit c)
  | EmptyString => true
  end.

(** The events that end a run, in the order a trace emits them. *)
Definition terminal (t : list action) : list event :=
  omap (λ a, match a with
             | Emit DOWNLOAD_COMPLETE => Some DOWNLOAD_COMPLETE
             | Emit (DOWNLOAD_FAILED e) => Some (DOWNLOAD_FAILED e)
             | _ => None
             end) t.

(** [download] has returned or thrown. *)
Definition settled (c : control) : bool :=
  match c with
  | Returned | Threw _ => true
  | _ => false
  end.

(** The terminal events that go with a control point. *)
Definition outcome_events (c : control) : list event :=
  match c with
  | Returned => [DOWNLOAD_COMPLETE]
  | Threw e => [DOWNLOAD_FAILED e]
  | _ => []
  end.

(** The state [s] of an instance whose chunk count is [n] instead. *)
Definition with_count (n : number) (s : state) : state :=
  {| this := set_chunkCount n (this s); sizeP := sizeP s;
     fetches := fetches s; allP := allP s; pc := pc s; file := file s;
     queue := queue s; crashed := crashed s; trace := trace s |}.

(** What a run shows to the outside: everything but the instance fields. *)
Definition observable (s : state) :=
  (sizeP s, fetches s, allP s, pc s, file s, trace s, queue s, crashed s).

(** The ranges a list of fetches was called with. *)
Definition ranges_of (fs : list fetch) : list (number * number) :=
  (λ f, (f_start f, f_end f)) <$> fs.

(** The chunk count is the policy value of the size once the size is known,
    and the fetches of a multi-chunk run are those of the plan, for a size
    that the preallocation accepted. *)
Definition planned (s : state) : Prop :=
  (∀ size, sizeP s = Fulfilled size →
           chunkCount (this s) = resolveChunkCount size)
  ∧ (∀ size,
       sizeP s = Fulfilled size → whole_file_mode size (this s) = false →
       fetches s ≠ [] →
       at_most MAX_SAFE_INTEGER size
       ∧ ∃ chunks,
         getChunks (getChunks_fuel size (JS.ceil_div size (chunkCount (this s))))
           (this s) size = Some chunks
         ∧ ranges_of (fetches s) = (λ c, (start c, end_ c)) <$> chunks).

(** The callbacks of [downloadChunk], each with the state of the response in
    which its listener exists. *)
Definition callback_of (k : nat) (f : fetch) (r : reaction) : Prop :=
  (∃ status, f_res f = Awaited ∧ r = on_response k f status)
  ∨ (∃ pos chunk, f_res f = Streaming pos ∧ r = on_data k f pos chunk)
  ∨ (∃ pos, f_res f = Streaming pos ∧ r = on_end f)
  ∨ (∃ err, r = on_error f err).

(** The bytes a trace hands to the write stream of fetch [k], in order. *)
Definition written_by (k : nat) (t : list action) : list byte :=
  concat (omap (λ a, match a with
                     | Write j _ data =>
                         if decide (j = k) then Some data else None
                     | _ => None
                     end) t).

(** The chunk size [getChunks] computes for a size [z] above 100 MiB, where
    the chunk count is [ceil (z / 104857600)]. *)
Definition chunk_step (z : Z) : Z := ceil_divZ z (ceil_divZ z 104857600).

(** Fetch [k] was handed no more bytes than the range it asked for holds. *)
Definition within_range (k : nat) (f : fetch) (t : list action) : bool :=
  match f_start f, f_end f with
  | Int a, Int b => Z.of_nat (length (written_by k t)) <=? b - a + 1
  | _, _ => false
  end.

Definition in_bounds (s : state) : bool :=
  forallb id (imap (λ k f, within_range k f (trace s)) (fetches s)).

(** The bytes stream [k] has accepted and the file system has not written
    yet. *)
Definition queued (k : nat) (s : state) : list byte :=
  concat (snd <$> queue s k).

(** The bytes of stream [k] that have reached the file: those handed to the
    stream, less those still in its queue. *)
Definition flushed (k : nat) (s : state) : list byte :=
  take (length (written_by k (trace s)) - length (queued k s))
    (written_by k (trace s)).

(** The writes of a queue lie one after the other from offset [p]. *)
Fixpoint consecutive (p : Z) (q : list (number * list byte)) : Prop :=
  match q with
  | [] => True
  | (pos, data) :: rest =>
      pos = Int p ∧ consecutive (p + Z.of_nat (length data)) rest
  end.

(** Write stream [k], given the fetch it belongs to, the bytes [w] handed to
    it and its queue [q]: the queue holds the last of the bytes handed over;
    while the offsets stay within 2^53 its writes follow one another from
    where the bytes written out end, and the stream stands right after the
    bytes handed over.  Without a response being piped there is no stream,
    and nothing was handed over. *)
Definition pipe_ok (f : option fetch) (w : list byte)
    (q : list (number * list byte)) : Prop :=
  match f with
  | None => w = [] ∧ q = []
  | Some f =>
      ∃ done,
        w = done ++ concat (snd <$> q)
        ∧ match f_res f with
          | Streaming pos =>
              ∀ a, f_start f = Int a → 0 ≤ a →
                   a + Z.of_nat (length w) ≤ 2 ^ 53 →
                   consecutive (a + Z.of_nat (length done)) q
                   ∧ pos = Int (a + Z.of_nat (length w))
          | _ => w = [] ∧ q = []
          end
  end.

Definition piped (s : state) : Prop :=
  ∀ k, pipe_ok (fetches s !! k) (written_by k (trace s)) (queue s k).

(** [file] is [file0] overwritten from offset 0 with [body]: an absent path
    stays absent; a file keeps its bytes past the body, and grows only if the
    body is longer. *)
Definition overlay (file0 : file_content) (body : list byte)
    (file : file_content) : Prop :=
  match file0 with
  | None => file = None
  | Some c0 =>
      ∃ c, file = Some c
           ∧ fd_size c = Z.max (fd_size c0) (Z.of_nat (length body))
           ∧ ∀ i, 0 ≤ i →
                  read_byte c i
                  = if i <? Z.of_nat (length body)
                    then nth (Z.to_nat i) body x00
                    else read_byte c0 i
  end.

(** The output file in a whole-file run: untouched until the fetch is
    launched, and from then on the file of before overwritten with the bytes
    that stream 0 has written out. *)
Definition whole_file_writes (file0 : file_content) (s : state) : Prop :=
  (pc s = AtGetFileSize → file s = file0)
  ∧ (∀ size,
       sizeP s = Fulfilled size → whole_file_mode size (this s) = true →
       pc s ≠ AtGetFileSize →
       Z.of_nat (length (written_by 0 (trace s))) ≤ 2 ^ 53 →
       overlay file0 (flushed 0 s) (file s)).

(** The output file of a multi-chunk run: as long as no response overran its
    range, byte [i] of the file is the byte that the stream of its range has
    written out for it, or zero when that write has not happened. *)
Definition assembling (s : state) : Prop :=
  ∀ z, sizeP s = Fulfilled (Int z) →
       whole_file_mode (Int z) (this s) = false → fetches s ≠ [] →
       in_bounds s = true →
       ∃ c, file s = Some c ∧ fd_size c = z
            ∧ ∀ i, 0 ≤ i < z →
                   read_byte c i
                   = nth (Z.to_nat (i `mod` chunk_step z))
                       (flushed (Z.to_nat (i / chunk_step z)) s)
                       x00.

(** A length [fs.ftruncateSync] refuses whatever the file system: one that
    is no safe integer. *)
Definition unsafe_size (size : number) : bool :=
  match size with
  | Int z => negb ((- MAX_SAFE_INTEGER <=? z) && (z <=? MAX_SAFE_INTEGER))
  | _ => true
  end.

(** A multi-chunk run whose size is refused: nothing touches the file before
    [download] continues, and then the preallocation fails. *)
Definition refused (env : Env) (file0 : file_content) (s : state) : Prop :=
  (pc s = AtGetFileSize → file s = file0)
  ∧ (∀ size,
       sizeP s = Fulfilled size → unsafe_size size = true →
       whole_file_mode size (this s) = false → pc s ≠ AtGetFileSize →
       ∃ err,
         (preallocate env size file0).2 = Some err
         ∧ pc s = Threw err ∧ fetches s = []
         ∧ file s = (preallocate env size file0).1.2
         ∧ trace s
           = Request "bytes=0-0"
             :: ConsoleLog ("File size: " +:+ JS.toString size +:+ " bytes")
             :: (preallocate env size file0).1.1
             ++ [Emit (DOWNLOAD_FAILED err)]).

(** A schedule without the completions of writes. *)
Fixpoint without_writes (schedule : list stimulus) : list stimulus :=
  match schedule with
  | [] => []
  | FileWritten _ :: rest => without_writes rest
  | x :: rest => x :: without_writes rest
  end.

(** What a run is and does apart from the file: the instance, the promises,
    the fetches, where [download] stands, the trace, and whether the process
    has ended. *)
Definition skeleton (s : state) :=
  (this s, sizeP s, fetches s, allP s, pc s, trace s, crashed s).

(** The error [downloadChunk] rejects with when it refuses a status. *)
Definition refusal (e : error) : Prop :=
  ∃ status,
    e = Error (status_message status)
    ∧ JS.strict_eq status (Int 206) = false
    ∧ JS.strict_eq status (Int 200) = false.

(** Where rejections come from: a fetch promise rejects with an error that
    was announced by CHUNK_DOWNLOAD_FAILED or with a refusal; [Promise.all]
    and [download] reject with the error of a rejected fetch. *)
Definition blamed (s : state) : Prop :=
  (∀ k f e, fetches s !! k = Some f → f_promise f = Rejected e →
            Emit (CHUNK_DOWNLOAD_FAILED e) ∈ trace s ∨ refusal e)
  ∧ (∀ e, allP s = Rejected e →
          ∃ k f, fetches s !! k = Some f ∧ f_promise f = Rejected e)
  ∧ (∀ e, pc s = Threw e → fetches s ≠ [] →
          ∃ k f, fetches s !! k = Some f ∧ f_promise f = Rejected e).

(** [String.prototype.toLowerCase] on one Latin-1 code unit: the letters
    A to Z, and the capitals from U+00C0 to U+00DE but the multiplication
    sign U+00D7, move up by 32. *)
Definition to_lower (c : ascii) : ascii :=
  let n := Str.code c in
  if ((65 <=? n) && (n <=? 90)
      || (192 <=? n) && (n <=? 222) && negb (n =? 215))%N
  then ascii_of_N (n + 32) else c.

Fixpoint toLowerCase (s : string) : string :=
  match s with
  | String c r => String (to_lower c) (toLowerCase r)
  | EmptyString => EmptyString
  end.

(** [s.startsWith(p)] *)
Definition startsWith (s p : string) : bool :=
  match Str.strip_prefix p s with
  | Some _ => true
  | None => false
  end.

(** [type ProtocolClient = typeof http | typeof https] *)
Inductive ProtocolClient : Type := http | https.

(** [getProtocolClient(url)] *)
Definition getProtocolClient (url : string) : ProtocolClient :=
  if startsWith (toLowerCase url) "https:" then https else http.

(** Names the significand after rounding. *)
Ltac set_rounded m' :=
  match goal with
  | |- context [if ?b then ?m + 1 else ?m] =>
      set (m' := if b then m + 1 else m)
  end.

(** Case analysis on the integer comparisons of a goal. *)
Ltac case_compare :=
  repeat match goal with
         | |- context [?a <? ?b] => destruct (Z.ltb_spec a b)
         | |- context [?a <=? ?b] => destruct (Z.leb_spec a b)
         end;
  simpl; try lia; try reflexivity.

(** * Properties *)

(** ** Arithmetic of doubles *)


Lemma round_exact (z : Z) : - 2 ^ 53 ≤ z ≤ 2 ^ 53 → round z = Int z.
Proof.
  intros Hz. unfold round, round_pos.
  destruct (Z.leb_spec 0 z).
  - destruct (Z.leb_spec z (2 ^ 53)); [done|lia].
  - destruct (Z.leb_spec (- z) (2 ^ 53)); [|lia]. simpl. f_equal. lia.
Qed.

Lemma round_pos_large (z : Z) : 2 ^ 53 ≤ z → at_least (2 ^ 53) (round_pos z).
Proof.
  intros Hz. unfold round_pos.
  destruct (Z.leb_spec z (2 ^ 53)); [simpl; lia|].
  set (e := Z.log2 z - 52).
  assert (53 ≤ Z.log2 z) as Hlog by (apply Z.log2_le_pow2; lia).
  assert (1 ≤ e) as He by lia.
  destruct (Z.log2_spec z ltac:(lia)) as [Hlo _].
  replace (Z.log2 z) with (52 + e) in Hlo by lia.
  rewrite Z.pow_add_r in Hlo by lia.
  assert (2 ^ 1 ≤ 2 ^ e) as Hpe by (apply Z.pow_le_mono_r; lia).
  assert (2 ^ 52 ≤ z / 2 ^ e) as Hm
    by (apply Z.div_le_lower_bound; lia).
  set_rounded m'.
  assert (2 ^ 52 ≤ m') as Hm' by (subst m'; destruct (_ || _); lia).
  destruct (2 ^ 1024 <=? m' * 2 ^ e); [done|]. simpl.
  change (2 ^ 53) with (2 ^ 52 * 2 ^ 1). nia.
Qed.

Lemma round_pos_nonneg (z : Z) : 0 ≤ z → at_least 0 (round_pos z).
Proof.
  intros Hz. destruct (Z.le_gt_cases (2 ^ 53) z) as [Hbig|Hsmall].
  - pose proof (round_pos_large z Hbig). destruct (round_pos z); simpl in *; lia.
  - unfold round_pos. destruct (Z.leb_spec z (2 ^ 53)); [done|lia].
Qed.

Lemma round_large (z : Z) : 2 ^ 53 ≤ z → at_least (2 ^ 53) (round z).
Proof.
  intros Hz. unfold round. destruct (Z.leb_spec 0 z); [|lia].
  by apply round_pos_large.
Qed.

Lemma round_nonpos (z : Z) : z ≤ 0 → at_most 0 (round z).
Proof.
  intros Hz. unfold round. destruct (Z.leb_spec 0 z).
  - assert (z = 0) as -> by lia. done.
  - pose proof (round_pos_nonneg (- z) ltac:(lia)).
    destruct (round_pos (- z)); simpl in *; lia.
Qed.

(** ** The rounded quotient *)

Lemma log2_quot_spec (x y : Z) :
  0 < x → 0 < y →
  (0 ≤ log2_quot x y →
   y * 2 ^ log2_quot x y ≤ x < y * 2 ^ (log2_quot x y + 1))
  ∧ (log2_quot x y < 0 →
     y ≤ x * 2 ^ (- log2_quot x y) < 2 * y).
Proof.
  intros Hx Hy. unfold log2_quot.
  destruct (Z.log2_spec x Hx) as [Hxl Hxu].
  destruct (Z.log2_spec y Hy) as [Hyl Hyu].
  pose proof (Z.log2_nonneg x) as Ha. pose proof (Z.log2_nonneg y) as Hb.
  set (a := Z.log2 x) in *. set (b := Z.log2 y) in *.
  rewrite Z.pow_succ_r in Hxu, Hyu by done.
  destruct (Z.leb_spec 0 (a - b)) as [Hl|Hl].
  - assert (2 ^ a = 2 ^ b * 2 ^ (a - b)) as Hab
      by (rewrite <- Z.pow_add_r by lia; f_equal; lia).
    assert (0 < 2 ^ (a - b)) as Hpos by (apply Z.pow_pos_nonneg; lia).
    assert (0 < 2 ^ b) as Hposb by (apply Z.pow_pos_nonneg; lia).
    destruct (Z.leb_spec (y * 2 ^ (a - b)) x) as [Ht|Ht].
    + split; [|lia]. intros _.
      replace (a - b + 1) with (Z.succ (a - b)) by lia.
      rewrite Z.pow_succ_r by done. nia.
    + destruct (Z.eq_dec (a - b) 0) as [H0|H0].
      * rewrite H0 in *. change (2 ^ 0) with 1 in *.
        split; [lia|]. intros _. change (- (0 - 1)) with 1.
        change (2 ^ 1) with 2. nia.
      * split; [|lia]. intros _.
        replace (a - b - 1 + 1) with (a - b) by lia.
        assert (2 ^ (a - b) = 2 * 2 ^ (a - b - 1)) as Hhalf.
        { rewrite <- Z.pow_succ_r by lia. f_equal. lia. }
        nia.
  - assert (2 ^ b = 2 ^ a * 2 ^ (- (a - b))) as Hab
      by (rewrite <- Z.pow_add_r by lia; f_equal; lia).
    assert (0 < 2 ^ (- (a - b))) as Hpos by (apply Z.pow_pos_nonneg; lia).
    assert (0 < 2 ^ a) as Hposa by (apply Z.pow_pos_nonneg; lia).
    destruct (Z.leb_spec y (x * 2 ^ (- (a - b)))) as [Ht|Ht].
    + split; [lia|]. intros _. nia.
    + split; [lia|]. intros _.
      replace (- (a - b - 1)) with (Z.succ (- (a - b))) by lia.
      rewrite Z.pow_succ_r by lia. nia.
Qed.

(** The quotient scaled to 53 bits: [y * 2^52 <= x * 2^k] for
    [k = 52 - log2_quot x y]. *)
Lemma quot_scaled (x y : Z) :
  0 < x → 0 < y → log2_quot x y < 52 →
  y * 2 ^ 52 ≤ x * 2 ^ (52 - log2_quot x y).
Proof.
  intros Hx Hy HL. destruct (log2_quot_spec x y Hx Hy) as [Hpos Hneg].
  set (L := log2_quot x y) in *.
  destruct (Z.le_gt_cases 0 L) as [H0|H0].
  - destruct (Hpos H0) as [Hlo _].
    assert (2 ^ 52 = 2 ^ L * 2 ^ (52 - L)) as ->
      by (rewrite <- Z.pow_add_r by lia; f_equal; lia).
    assert (0 < 2 ^ (52 - L)) by (apply Z.pow_pos_nonneg; lia).
    nia.
  - destruct (Hneg H0) as [Hlo _].
    assert (2 ^ (52 - L) = 2 ^ 52 * 2 ^ (- L)) as ->
      by (rewrite <- Z.pow_add_r by lia; f_equal; lia).
    nia.
Qed.

Lemma ceil_divZ_bounds (a b : Z) :
  0 < b → (ceil_divZ a b - 1) * b < a ≤ ceil_divZ a b * b.
Proof.
  intros Hb. unfold ceil_divZ.
  pose proof (Z.div_mod (- a) b ltac:(lia)).
  pose proof (Z.mod_pos_bound (- a) b Hb). nia.
Qed.

Lemma ceil_divZ_unique (a b c : Z) :
  0 < b → (c - 1) * b < a ≤ c * b → ceil_divZ a b = c.
Proof.
  intros Hb Hc. pose proof (ceil_divZ_bounds a b Hb). nia.
Qed.

(** On the safe integers [Math.ceil(a / b)] is the exact ceiling. *)
Lemma ceil_div_exact (x y : Z) :
  0 ≤ x < 2 ^ 53 → 1 ≤ y →
  ceil_div (Int x) (Int y) = Int (ceil_divZ x y).
Proof.
  intros Hx Hy. unfold ceil_div.
  destruct (Z.eqb_spec y 0); [lia|].
  destruct (Z.eqb_spec x 0) as [->|Hx0]; [done|].
  destruct (Z.ltb_spec 0 (x * y)); [|nia].
  rewrite !Z.abs_eq by lia. f_equal.
  pose proof (ceil_divZ_bounds x y ltac:(lia)) as Hc.
  set (c := ceil_divZ x y) in *.
  destruct (log2_quot_spec x y ltac:(lia) ltac:(lia)) as [Hpos Hneg].
  unfold quot. set (L := log2_quot x y) in *.
  destruct (Z.leb_spec 0 (L - 52)) as [He|He].
  - (* the quotient is at least 2^52: the divisor is 1 *)
    destruct (Hpos ltac:(lia)) as [Hlo _].
    assert (2 ^ 52 ≤ 2 ^ L) as HpL by (apply Z.pow_le_mono_r; lia).
    assert (y = 1) as -> by nia.
    assert (L = 52) as HL.
    { destruct (Z.le_gt_cases 53 L) as [H53|]; [|lia].
      assert (2 ^ 53 ≤ 2 ^ L) by (apply Z.pow_le_mono_r; lia). lia. }
    rewrite HL. change (2 ^ (52 - 52)) with 1.
    rewrite Z.mul_1_l, Z.div_1_r, Z.mod_1_r. simpl. lia.
  - set (k := - (L - 52)). assert (1 ≤ k) as Hk by lia.
    pose proof (quot_scaled x y ltac:(lia) ltac:(lia) ltac:(lia)) as Hs.
    fold L in Hs. replace (52 - L) with k in Hs by lia.
    assert (2 ^ 1 ≤ 2 ^ k) as HP by (apply Z.pow_le_mono_r; lia).
    change (2 ^ 1) with 2 in HP.
    set (P := 2 ^ k) in *.
    pose proof (Z.div_mod (x * P) y ltac:(lia)) as Hdm.
    pose proof (Z.mod_pos_bound (x * P) y ltac:(lia)) as Hr.
    set (m := x * P / y) in *. set (r := (x * P) mod y) in *.
    unfold ceil_dyadic.
    destruct (Z.leb_spec 0 (L - 52)); [lia|]. fold k. fold P.
    apply ceil_divZ_unique; [lia|].
    destruct ((y <? 2 * r) || ((y =? 2 * r) && Z.odd m)) eqn:Hup.
    + assert (0 < r).
      { apply orb_true_iff in Hup as [Hup|Hup].
        - apply Z.ltb_lt in Hup. lia.
        - apply andb_true_iff in Hup as [Hup _]. apply Z.eqb_eq in Hup. lia. }
      split; nia.
    + apply orb_false_iff in Hup as [Hup _]. apply Z.ltb_ge in Hup.
      split; [|nia].
      assert ((c - 1) * P ≤ m) as Hge by nia.
      destruct (Z.eq_dec m ((c - 1) * P)) as [Heq|]; [|lia].
      exfalso. assert (r = (x - (c - 1) * y) * P) as Hrho by nia.
      assert (y < 2 * P) as HyP.
      { assert (x * P < 2 ^ 53 * P) by (apply Z.mul_lt_mono_pos_r; lia).
        apply (Z.mul_lt_mono_pos_r (2 ^ 52)); [done|].
        change (2 ^ 53) with (2 * 2 ^ 52) in *. lia. }
      assert (1 ≤ x - (c - 1) * y) by lia.
      assert (P ≤ r) by nia. lia.
Qed.

(** Above a divisor of at most 2^52 the rounded quotient is above 1. *)
Lemma ceil_div_above (x y : Z) :
  1 ≤ y ≤ 2 ^ 52 → y < x →
  ∃ c, ceil_div (Int x) (Int y) = Int c ∧ 2 ≤ c.
Proof.
  intros Hy Hx. unfold ceil_div.
  destruct (Z.eqb_spec y 0); [lia|].
  destruct (Z.eqb_spec x 0); [lia|].
  destruct (Z.ltb_spec 0 (x * y)); [|nia].
  rewrite !Z.abs_eq by lia. eexists. split; [done|].
  destruct (log2_quot_spec x y ltac:(lia) ltac:(lia)) as [Hpos Hneg].
  unfold quot. set (L := log2_quot x y) in *.
  assert (0 ≤ L) as HL.
  { destruct (Z.le_gt_cases 0 L) as [|Hlt]; [done|].
    destruct (Hneg Hlt) as [_ Hhi].
    assert (2 ^ 1 ≤ 2 ^ (- L)) by (apply Z.pow_le_mono_r; lia).
    change (2 ^ 1) with 2 in *. nia. }
  destruct (Hpos HL) as [Hlo _].
  assert (0 < 2 ^ L) by (apply Z.pow_pos_nonneg; lia).
  unfold ceil_dyadic.
  destruct (Z.leb_spec 0 (L - 52)) as [He|He].
  - assert (0 < 2 ^ (L - 52)) as Hpe by (apply Z.pow_pos_nonneg; lia).
    assert (2 ^ L = 2 ^ 52 * 2 ^ (L - 52)) as HLs
      by (rewrite <- Z.pow_add_r by lia; f_equal; lia).
    assert (2 ^ 52 ≤ x / (y * 2 ^ (L - 52))) as Hm
      by (apply Z.div_le_lower_bound; nia).
    set_rounded m'.
    assert (2 ^ 52 ≤ m') as Hm' by (subst m'; destruct (_ || _); lia).
    nia.
  - set (k := - (L - 52)). assert (1 ≤ k) as Hk by lia.
    pose proof (quot_scaled x y ltac:(lia) ltac:(lia) ltac:(lia)) as Hs.
    fold L in Hs. replace (52 - L) with k in Hs by lia.
    assert (2 ^ k ≤ 2 ^ 52) as HP by (apply Z.pow_le_mono_r; lia).
    assert (0 < 2 ^ k) as HP0 by (apply Z.pow_pos_nonneg; lia).
    assert (L = 0 ∨ 2 * 2 ^ k ≤ 2 ^ 52) as HPL.
    { destruct (Z.eq_dec L 0); [by left|right].
      change (2 ^ 52) with (2 ^ Z.succ 51). rewrite Z.pow_succ_r by lia.
      assert (2 ^ k ≤ 2 ^ 51) by (apply Z.pow_le_mono_r; lia). lia. }
    set (P := 2 ^ k) in *.
    assert (P + 1 ≤ x * P / y) as Hm.
    { apply Z.div_le_lower_bound; [lia|].
      destruct HPL as [HL0|HL2].
      - assert (P = 2 ^ 52) as HP52 by (subst P k; by rewrite HL0).
        assert ((y + 1) * P ≤ x * P) by (apply Z.mul_le_mono_nonneg_r; lia).
        lia.
      - assert (y * (2 * P) ≤ y * 2 ^ 52)
          by (apply Z.mul_le_mono_nonneg_l; lia).
        assert (y * 1 ≤ y * P) by (apply Z.mul_le_mono_nonneg_l; lia).
        lia. }
    set_rounded m'.
    assert (P < m') as Hm' by (subst m'; destruct (_ || _); lia).
    pose proof (ceil_divZ_bounds m' P HP0). nia.
Qed.

Lemma quot_nonneg (x y : Z) : 0 < x → 0 < y → 0 ≤ (quot x y).1.
Proof.
  intros Hx Hy. unfold quot. cbn [fst].
  set (e := log2_quot x y - 52).
  assert (0 ≤ (if 0 <=? e then x else x * 2 ^ (- e))
              / (if 0 <=? e then y * 2 ^ e else y)) as Hm.
  { destruct (Z.leb_spec 0 e).
    - apply Z.div_pos; [lia|].
      assert (0 < 2 ^ e) by (apply Z.pow_pos_nonneg; lia). nia.
    - apply Z.div_pos; [|lia].
      assert (0 < 2 ^ (- e)) by (apply Z.pow_pos_nonneg; lia). nia. }
  set_rounded m'. subst m'. destruct (_ || _); lia.
Qed.

Lemma floor_dyadic_nonneg (q : Z * Z) : 0 ≤ q.1 → 0 ≤ floor_dyadic q.
Proof.
  destruct q as [m e]. simpl. intros Hm.
  destruct (Z.leb_spec 0 e).
  - assert (0 ≤ 2 ^ e) by (apply Z.pow_nonneg; lia). nia.
  - apply Z.div_pos; [done|]. apply Z.pow_pos_nonneg; lia.
Qed.

(** A quotient of opposite signs does not round above zero. *)
Lemma ceil_div_opposite (x y : Z) :
  1 ≤ x → y ≤ -1 →
  ∃ c, ceil_div (Int x) (Int y) = Int c ∧ c ≤ 0.
Proof.
  intros Hx Hy. unfold ceil_div.
  destruct (Z.eqb_spec y 0); [lia|].
  destruct (Z.eqb_spec x 0); [lia|].
  destruct (Z.ltb_spec 0 (x * y)); [nia|].
  eexists. split; [done|].
  pose proof (floor_dyadic_nonneg _
                (quot_nonneg (Z.abs x) (Z.abs y) ltac:(lia) ltac:(lia))).
  lia.
Qed.

(** ** Arithmetic of the chunk size *)

Lemma ceil_divZ_pos (a b : Z) : 1 ≤ a → 1 ≤ b → 1 ≤ ceil_divZ a b.
Proof.
  intros Ha Hb. pose proof (ceil_divZ_bounds a b ltac:(lia)). nia.
Qed.

Lemma ceil_divZ_nonneg (a b : Z) : 0 ≤ a → 1 ≤ b → 0 ≤ ceil_divZ a b.
Proof.
  intros Ha Hb. pose proof (ceil_divZ_bounds a b ltac:(lia)). nia.
Qed.


Lemma safe_bound : MAX_SAFE_INTEGER = 2 ^ 53 - 1.
Proof. done. Qed.

(** Numbers of at least 2^53 stay large when 1 is taken off, and do not
    decide a minimum or a comparison against a safe integer. *)
Lemma sub_one_large (n : number) :
  at_least (2 ^ 53) n → at_least (2 ^ 53 - 1) (JS.sub n (Int 1)).
Proof.
  destruct n as [y| | |]; try done. unfold at_least.
  change (JS.sub (Int y) (Int 1)) with (round (y + -1)). intros Hy.
  destruct (Z.le_gt_cases (y + -1) (2 ^ 53)) as [Hsmall|Hbig].
  - rewrite round_exact by lia. lia.
  - pose proof (round_large (y + -1) ltac:(lia)) as Hr.
    unfold at_least in Hr. destruct (round (y + -1)); lia.
Qed.

Lemma min_large (w x : Z) (n : number) :
  at_least w n → x ≤ w → JS.min n (Int x) = Int x.
Proof.
  destruct n as [y| | |]; try done. unfold at_least, JS.min.
  intros Hy Hx. f_equal. lia.
Qed.

Lemma lt_large (w x : Z) (n : number) :
  at_least w n → x ≤ w → JS.lt n (Int x) = false.
Proof.
  destruct n as [y| | |]; try done. unfold at_least, JS.lt.
  intros Hy Hx. apply Z.ltb_ge. lia.
Qed.

(** ** The loop of [getChunks] *)

Lemma getChunks_loop_exit fuel fileSize chunkSize st :
  JS.lt st.1 fileSize = false →
  getChunks_loop fuel fileSize chunkSize st = Some st.2.
Proof. intros H. destruct fuel; simpl; by rewrite H. Qed.

Lemma getChunks_loop_step fuel fileSize chunkSize st :
  JS.lt st.1 fileSize = true →
  getChunks_loop (S fuel) fileSize chunkSize st
  = getChunks_loop fuel fileSize chunkSize (getChunks_body fileSize chunkSize st).
Proof. intros H. simpl. by rewrite H. Qed.

(** One iteration from index [i] below a safe [fs]: it appends the range
    from [i], and the next index is [i + cs] if that is still below [fs],
    and otherwise a number that is not below [fs]. *)
Lemma getChunks_body_safe (fs cs i : Z) (acc : list Chunk) :
  0 < cs → 0 ≤ i < fs → fs ≤ MAX_SAFE_INTEGER →
  ∃ next,
    getChunks_body (Int fs) (Int cs) (Int i, acc)
    = (next, acc ++ [ {| start := Int i;
                         end_ := Int (Z.min (i + cs - 1) (fs - 1)) |} ])
    ∧ (i + cs < fs → next = Int (i + cs))
    ∧ (fs ≤ i + cs → JS.lt next (Int fs) = false).
Proof.
  intros Hcs Hi Hfs. rewrite safe_bound in Hfs.
  unfold getChunks_body. eexists. split; [|split].
  - do 3 f_equal.
    assert (JS.sub (Int fs) (Int 1) = Int (fs - 1)) as ->
      by (simpl; rewrite round_exact by lia; f_equal; lia).
    destruct (Z.le_gt_cases (i + cs) (2 ^ 53)) as [Hsmall|Hbig].
    + simpl. rewrite (round_exact (i + cs)) by lia. simpl.
      rewrite round_exact by lia. simpl.
      by replace (i + cs + -1) with (i + cs - 1) by lia.
    + pose proof (round_large (i + cs) ltac:(lia)) as Hr.
      change (JS.add (Int i) (Int cs)) with (round (i + cs)).
      rewrite (min_large (2 ^ 53 - 1)); [do 2 f_equal; lia| |lia].
      by apply sub_one_large.
  - intros Hlt. simpl. by rewrite round_exact by lia.
  - intros Hge. simpl.
    destruct (Z.le_gt_cases (i + cs) (2 ^ 53)) as [Hsmall|Hbig].
    + rewrite round_exact by lia. simpl. apply Z.ltb_ge. lia.
    + apply (lt_large (2 ^ 53)); [|lia]. apply round_large. lia.
Qed.

(** From index [k * cs] the loop appends the ranges [k], [k+1], ... up to
    the last one, provided the fuel covers them. *)
Lemma getChunks_loop_from (fs cs : Z) (m k fuel : nat) (i : number)
    (acc : list Chunk) :
  0 < cs → 0 ≤ fs ≤ MAX_SAFE_INTEGER →
  Z.of_nat (k + m) = ceil_divZ fs cs →
  (m ≤ fuel)%nat →
  (Z.of_nat k * cs < fs → i = Int (Z.of_nat k * cs)) →
  (fs ≤ Z.of_nat k * cs → JS.lt i (Int fs) = false) →
  getChunks_loop fuel (Int fs) (Int cs) (i, acc)
  = Some (acc ++ map (nth_chunk fs cs) (seq k m)).
Proof.
  intros Hcs Hfs. revert k fuel i acc.
  induction m as [|m IH]; intros k fuel i acc Hn Hfuel Hin Hout.
  - rewrite getChunks_loop_exit; simpl.
    + by rewrite app_nil_r.
    + apply Hout. pose proof (ceil_divZ_bounds fs cs Hcs). nia.
  - pose proof (ceil_divZ_bounds fs cs Hcs) as Hb.
    assert (Z.of_nat k * cs < fs) as Hk by nia.
    rewrite (Hin Hk). destruct fuel as [|fuel]; [lia|].
    rewrite getChunks_loop_step by (simpl; apply Z.ltb_lt; lia).
    destruct (getChunks_body_safe fs cs (Z.of_nat k * cs) acc Hcs
                ltac:(lia) ltac:(lia)) as (next & -> & Hnext & Hexit).
    rewrite (IH (S k) fuel next); [|lia|lia|..].
    + rewrite <- app_assoc. simpl. do 3 f_equal.
    + intros Hlt. rewrite Hnext by lia. f_equal. lia.
    + intros Hge. apply Hexit. lia.
Qed.

(** The plan in closed form, for the safe integers. *)
Lemma getChunks_closed_form (d : Downloadr) (fs cc : Z) (fuel : nat) :
  0 ≤ fs ≤ MAX_SAFE_INTEGER → 1 ≤ cc → chunkCount d = Int cc →
  let cs := ceil_divZ fs cc in
  (Z.to_nat (ceil_divZ fs cs) ≤ fuel)%nat →
  getChunks fuel d (Int fs)
  = Some (map (nth_chunk fs cs) (seq 0 (Z.to_nat (ceil_divZ fs cs)))).
Proof.
  intros Hfs Hcc Hd cs Hfuel. unfold getChunks. rewrite Hd.
  rewrite ceil_div_exact by (rewrite safe_bound in Hfs; lia). fold cs.
  destruct (Z.eq_dec fs 0) as [->|Hne].
  - rewrite getChunks_loop_exit; [|done].
    subst cs. by replace (ceil_divZ 0 (ceil_divZ 0 cc)) with 0 by done.
  - assert (1 ≤ cs) by (apply ceil_divZ_pos; lia).
    pose proof (ceil_divZ_nonneg fs cs ltac:(lia) ltac:(lia)).
    rewrite (getChunks_loop_from fs cs (Z.to_nat (ceil_divZ fs cs)) 0);
      [done|lia|done|lia|done|done|simpl; lia].
Qed.


(** A loop whose index never reaches [fileSize] does not exit. *)
Lemma getChunks_loop_never (P : number → Prop) (fileSize chunkSize : number) :
  (∀ i, P i → JS.lt i fileSize = true ∧ P (JS.add i chunkSize)) →
  ∀ fuel st, P st.1 → getChunks_loop fuel fileSize chunkSize st = None.
Proof.
  intros Hstep. induction fuel as [|fuel IH]; intros [i acc] Hi; simpl in *.
  - by rewrite (proj1 (Hstep i Hi)).
  - rewrite (proj1 (Hstep i Hi)). apply IH. simpl. by apply Hstep.
Qed.








(** ** Size discovery *)

Lemma truthy_Some (s : string) : Str.truthy (Some s) = true ↔ s ≠ "".
Proof. destruct s; simpl; split; done. Qed.

Lemma strict_eq_Int (a : number) (z : Z) :
  JS.strict_eq a (Int z) = true ↔ a = Int z.
Proof.
  destruct a; simpl; split; try done.
  - by intros ->%Z.eqb_eq.
  - intros [= ->]. apply Z.eqb_refl.
Qed.

Lemma receivable_length (hs : headers) (cl : string) :
  receivable hs = true → hs !! "content-length" = Some cl →
  cl ≠ "" ∧ all_digits cl = true ∧ Str.decimal_value 0 cl < 2 ^ 64.
Proof.
  unfold receivable. intros H Hcl. rewrite Hcl in H.
  apply andb_true_iff in H as [[Hne Hd]%andb_true_iff Hv].
  split; [|split; [done|by apply Z.ltb_lt]].
  intros ->. done.
Qed.

(** C2.  On every response the transport can deliver, the response callback
    of [getFileSize] reads the size in this order: the total of a
    Content-Range header that matches [bytes <start>-<end>/<total>]; else the
    parsed value of the Content-Length header, if there is one; else the
    unknown size [-1].  The callback always resolves the promise, whatever
    the headers: missing size information is no failure. *)
Theorem getFileSize_precedence (d : Downloadr) (hs : headers) :
  receivable hs = true →
  let size := (getFileSize_response d hs).1 in
  (∀ cr total,
     hs !! "content-range" = Some cr →
     Str.match_content_range cr = Some total →
     size = Str.parseInt total)
  ∧ (∀ cl,
       (∀ cr, hs !! "content-range" = Some cr →
              Str.match_content_range cr = None) →
       hs !! "content-length" = Some cl →
       size = Str.parseInt cl)
  ∧ ((∀ cr, hs !! "content-range" = Some cr →
            Str.match_content_range cr = None) →
     hs !! "content-length" = None →
     size = Int (-1))
  ∧ (∀ env s,
       sizeP s = Pending →
       sizeP (handle env (ProbeResponse hs) s)
       = Fulfilled (getFileSize_response (this s) hs).1).
Proof.
  intros Hrecv.
  assert (∀ cr, Str.truthy (Some cr) = false → Str.match_content_range cr = None)
    as Hempty by (by intros [|??]).
  assert ((∀ cr, hs !! "content-range" = Some cr →
                 Str.match_content_range cr = None) →
          (if Str.truthy (hs !! "content-range")
           then Str.match_content_range (default "" (hs !! "content-range"))
           else None) = None) as Hnone.
  { intros Hcr. destruct (hs !! "content-range") as [cr|]; [|done].
    simpl default. rewrite (Hcr cr eq_refl).
    by destruct (Str.truthy (Some cr)). }
  split; [|split; [|split]].
  - intros cr total Hcr Hm. unfold getFileSize_response. rewrite Hcr.
    destruct (Str.truthy (Some cr)) eqn:Ht.
    + simpl default. by rewrite Hm.
    + rewrite Hempty in Hm; done.
  - intros cl Hcr Hcl. unfold getFileSize_response.
    rewrite (Hnone Hcr).
    destruct (receivable_length hs cl Hrecv Hcl) as (Hne & _).
    rewrite Hcl. apply truthy_Some in Hne. by rewrite Hne.
  - intros Hcr Hcl. unfold getFileSize_response.
    rewrite (Hnone Hcr). by rewrite Hcl.
  - intros env s Hp. simpl. rewrite Hp.
    by destruct (getFileSize_response (this s) hs).
Qed.

(** The theorem on a response with [Content-Range: bytes 0-0/123456] and a
    Content-Length of 1: the range total wins. *)
Lemma getFileSize_precedence_witness :
  (getFileSize_response
     (new_Downloadr {| opt_url := "http://h/f"; opt_outputPath := "f";
                       opt_chunkCount := None; opt_highWaterMark := None |})
     (<["content-range" := "bytes 0-0/123456"]> {["content-length" := "1"]})).1
  = Int 123456.
Proof.
  assert (receivable (<["content-range" := "bytes 0-0/123456"]>
                        {["content-length" := "1"]}) = true) as Hrecv
    by (vm_compute; reflexivity).
  assert ((<["content-range" := "bytes 0-0/123456"]>
             ({["content-length" := "1"]} : headers)) !! "content-range"
          = Some "bytes 0-0/123456") as Hcr by (vm_compute; reflexivity).
  assert (Str.match_content_range "bytes 0-0/123456" = Some "123456") as Hm
    by (vm_compute; reflexivity).
  assert (Str.parseInt "123456" = Int 123456) as Hp
    by (vm_compute; reflexivity).
  rewrite <- Hp.
  exact (proj1 (getFileSize_precedence
                  (new_Downloadr {| opt_url := "http://h/f";
                                    opt_outputPath := "f";
                                    opt_chunkCount := None;
                                    opt_highWaterMark := None |})
                  (<["content-range" := "bytes 0-0/123456"]>
                     {["content-length" := "1"]}) Hrecv)
           "bytes 0-0/123456" "123456" Hcr Hm).
Defined.

(** Whatever the headers, the chunk count left in the instance is the policy
    value of the size returned. *)
Lemma getFileSize_response_policy (d : Downloadr) (hs : headers) :
  chunkCount (getFileSize_response d hs).2
  = resolveChunkCount (getFileSize_response d hs).1.
Proof.
  unfold getFileSize_response.
  destruct (if Str.truthy _ then _ else _); simpl; [done|].
  by destruct (Str.truthy (hs !! "content-length")).
Qed.

Lemma resolveChunkCount_safe (s : Z) :
  s ≤ MAX_SAFE_INTEGER →
  resolveChunkCount (Int s)
  = Int (if s <? 104857600 then 1 else ceil_divZ s 104857600).
Proof.
  intros Hs. unfold resolveChunkCount.
  change (100 * 1024 * 1024) with 104857600. unfold JS.lt.
  destruct (Z.ltb_spec s 104857600); [done|].
  apply ceil_div_exact; [|lia]. rewrite safe_bound in Hs. lia.
Qed.

(** C3, as the code computes it.  The chunk count [getFileSize] leaves in the
    instance is 1 for a size below 100 MiB (104857600) and
    [Math.ceil (size / 104857600)] otherwise, for every response; for every
    size up to 2^53 - 1 that is the exact [ceil (size / 104857600)].  A lone
    [Content-Length: 987654321] gives size 987654321 and 10 chunks, and a
    response with neither header gives 1 chunk. *)
Theorem getFileSize_chunkCount :
  (∀ (d : Downloadr) (hs : headers),
     chunkCount (getFileSize_response d hs).2
     = let size := (getFileSize_response d hs).1 in
       if JS.lt size (Int 104857600) then Int 1
       else JS.ceil_div size (Int 104857600))
  ∧ (∀ (d : Downloadr) (hs : headers) (s : Z),
       (getFileSize_response d hs).1 = Int s → s ≤ MAX_SAFE_INTEGER →
       chunkCount (getFileSize_response d hs).2
       = Int (if s <? 104857600 then 1 else ceil_divZ s 104857600))
  ∧ (∀ d : Downloadr,
       getFileSize_response d {["content-length" := "987654321"]}
       = (Int 987654321, set_chunkCount (Int 10) d))
  ∧ (∀ (d : Downloadr) (hs : headers),
       hs !! "content-range" = None → hs !! "content-length" = None →
       getFileSize_response d hs = (Int (-1), set_chunkCount (Int 1) d)).
Proof.
  pose proof getFileSize_response_policy as Hpolicy.
  split; [|split; [|split]].
  - intros d hs. by rewrite Hpolicy.
  - intros d hs s Hs Hsafe. rewrite Hpolicy, Hs.
    by apply resolveChunkCount_safe.
  - intros d. by vm_compute.
  - intros d hs Hcr Hcl. unfold getFileSize_response. by rewrite Hcr, Hcl.
Qed.

(** The theorem on a response with no header at all. *)
Lemma getFileSize_chunkCount_witness :
  getFileSize_response
    (new_Downloadr {| opt_url := "http://h/f"; opt_outputPath := "f";
                      opt_chunkCount := Some (Int 5);
                      opt_highWaterMark := None |}) ∅
  = (Int (-1),
     set_chunkCount (Int 1)
       (new_Downloadr {| opt_url := "http://h/f"; opt_outputPath := "f";
                         opt_chunkCount := Some (Int 5);
                         opt_highWaterMark := None |})).
Proof.
  exact (proj2 (proj2 (proj2 getFileSize_chunkCount))
           (new_Downloadr {| opt_url := "http://h/f"; opt_outputPath := "f";
                             opt_chunkCount := Some (Int 5);
                             opt_highWaterMark := None |})
           ∅ eq_refl eq_refl).
Defined.


(** C3 as stated fails on large sizes.  A response with
    [Content-Range: bytes 0-0/75557863725914709295104] resolves that size,
    which is a double (2^76 + 23 * 2^24); its quotient by 104857600 is
    720575940379283.04, which rounds to 720575940379283 before the ceiling
    is taken: the chunk count is one less than [ceil (size / 104857600)]. *)
Lemma getFileSize_chunkCount_rounds :
  ¬ ∀ (d : Downloadr) (hs : headers) (s : Z),
      (getFileSize_response d hs).1 = Int s →
      chunkCount (getFileSize_response d hs).2
      = Int (if s <? 104857600 then 1 else ceil_divZ s 104857600).
Proof.
  intros H.
  specialize (H (new_Downloadr {| opt_url := "http://h/f"; opt_outputPath := "f";
                                  opt_chunkCount := None;
                                  opt_highWaterMark := None |})
                {["content-range" := "bytes 0-0/75557863725914709295104"]}
                75557863725914709295104).
  assert ((getFileSize_response
             (new_Downloadr {| opt_url := "http://h/f"; opt_outputPath := "f";
                               opt_chunkCount := None;
                               opt_highWaterMark := None |})
             {["content-range" := "bytes 0-0/75557863725914709295104"]}).1
          = Int 75557863725914709295104) as Hsize by (vm_compute; reflexivity).
  specialize (H Hsize). vm_compute in H. discriminate H.
Qed.

(** ** The status check of [downloadChunk] *)

(** C6. The response callback of [downloadChunk] rejects with
    [new Error("Unexpected status code: <status>")] exactly when the status
    is neither 200 nor 206, and makes no call of [reject] on 200 or 206; so a
    pending fetch fails with that error, on its response, under the same
    condition, and stays pending otherwise. *)
Theorem downloadChunk_status (k : nat) (f : fetch) (status : number) :
  (r_settle (on_response k f status)
   = Some (Rejected (Error ("Unexpected status code: " +:+ JS.toString status)))
   ↔ status ≠ Int 200 ∧ status ≠ Int 206)
  ∧ (status = Int 200 ∨ status = Int 206 →
     r_settle (on_response k f status) = None)
  ∧ (∀ env s,
       fetches s !! k = Some f → f_res f = Awaited → f_promise f = Pending →
       ∃ f', fetches (handle env (FetchResponse k status) s) !! k = Some f'
         ∧ (f_promise f'
            = Rejected (Error ("Unexpected status code: " +:+ JS.toString status))
            ↔ status ≠ Int 200 ∧ status ≠ Int 206)
         ∧ (status = Int 200 ∨ status = Int 206 → f_promise f' = Pending)).
Proof.
  assert (negb (JS.strict_eq status (Int 206)) && negb (JS.strict_eq status (Int 200))
          = true ↔ status ≠ Int 200 ∧ status ≠ Int 206) as Hcond.
  { rewrite andb_true_iff, !negb_true_iff, <- !not_true_iff_false.
    rewrite !strict_eq_Int. tauto. }
  assert (r_settle (on_response k f status)
          = Some (Rejected (Error ("Unexpected status code: " +:+ JS.toString status)))
          ↔ status ≠ Int 200 ∧ status ≠ Int 206) as Hiff.
  { rewrite <- Hcond. unfold on_response.
    destruct (negb _ && negb _); simpl; split; done. }
  assert (status = Int 200 ∨ status = Int 206 →
          r_settle (on_response k f status) = None) as Hok.
  { intros Hs. unfold on_response.
    destruct (negb _ && negb _); [|done].
    destruct (proj1 Hcond eq_refl). destruct Hs; done. }
  split; [done|]. split; [done|].
  intros env s Hk Hres Hp. simpl. unfold on_fetch. rewrite Hk, Hres.
  unfold apply_reaction. simpl.
  eexists. split.
  { apply list_lookup_insert_eq. by eapply lookup_lt_Some. }
  simpl. rewrite Hp. split.
  - rewrite <- Hiff. destruct (r_settle (on_response k f status)) as [q|]; simpl.
    + split; [by intros ->|by intros [= ->]].
    + split; done.
  - intros Hs. by rewrite (Hok Hs).
Qed.

(** The theorem on the whole-file fetch of a run, answered with status 404. *)
Lemma downloadChunk_status_witness :
  ∃ f', fetches (handle no_faults (FetchResponse 0 (Int 404))
                   (run no_faults
                      (new_Downloadr {| opt_url := "http://h/f";
                                        opt_outputPath := "f";
                                        opt_chunkCount := None;
                                        opt_highWaterMark := None |})
                      None [ProbeResponse ∅; Tick])) !! 0%nat = Some f'
    ∧ f_promise f' = Rejected (Error "Unexpected status code: 404").
Proof.
  assert (fetches (run no_faults
                     (new_Downloadr {| opt_url := "http://h/f";
                                       opt_outputPath := "f";
                                       opt_chunkCount := None;
                                       opt_highWaterMark := None |})
                     None [ProbeResponse ∅; Tick]) !! 0%nat
          = Some {| f_start := Int 0; f_end := Infinity;
                    f_promise := Pending; f_res := Awaited |}) as Hk
    by (vm_compute; reflexivity).
  pose proof (proj2 (proj2 (downloadChunk_status 0
                {| f_start := Int 0; f_end := Infinity;
                   f_promise := Pending; f_res := Awaited |} (Int 404)))
                no_faults _ Hk eq_refl eq_refl) as (f' & Hf' & Hrej & _).
  exists f'. split; [exact Hf'|].
  apply Hrej. split; discriminate.
Defined.

(** C5, on the code.  A response with status 404 makes the callback reject
    without emitting anything; in a two-chunk run where the second fetch is
    answered 404, [download] throws "Unexpected status code: 404" and emits
    DOWNLOAD_START and DOWNLOAD_FAILED only: no CHUNK_DOWNLOAD_FAILED. *)
Theorem download_404_without_chunk_failure (d : Downloadr) (file0 : file_content) :
  (∀ k f, r_actions (on_response k f (Int 404)) = [])
  ∧ let s := run no_faults d file0
               [ProbeResponse {["content-length" := "200000000"]}; Tick;
                FetchResponse 0 (Int 206); FetchResponse 1 (Int 404); Tick] in
    pc s = Threw (Error "Unexpected status code: 404")
    ∧ gets (trace s) = [(0%nat, Some "bytes=0-99999999");
                        (1%nat, Some "bytes=100000000-199999999")]
    ∧ events (trace s)
      = [DOWNLOAD_START; DOWNLOAD_FAILED (Error "Unexpected status code: 404")].
Proof. split; [done|]. by vm_compute. Qed.

(** ** The output file in a whole-file run *)

(** C9, on the code.  A run in whole-file mode (no size header) makes no call
    that creates or truncates the output path: the write stream is opened
    with flags ['r+'].  When the path does not exist it still does not
    afterwards, whether the run ends before the stream reports that it could
    not open the file or that error ends the process; and when the path
    holds five stale bytes, a two-byte body, once written, leaves the last
    three in place. *)
Theorem whole_file_run_keeps_output_path (d : Downloadr) :
  let schedule := [ProbeResponse ∅; Tick; FetchResponse 0 (Int 200);
                   FetchData 0 [x09; x09]; FetchEnd 0; Tick] in
  let whole_file_trace :=
    [Request "bytes=0-0"; Emit DOWNLOAD_START; Get 0 None;
     CreateWriteStream 0 (Int 0) "r+"; Write 0 (Int 0) [x09; x09];
     Emit (CHUNK_DOWNLOAD_PROGRESS (Int 0) Infinity [x09; x09]);
     Emit (CHUNK_DOWNLOADED (Int 0) Infinity); Emit DOWNLOAD_COMPLETE] in
  (let s := run no_faults d None schedule in
   trace s = whole_file_trace ∧ file s = None)
  ∧ (let s := run no_faults d None
                [ProbeResponse ∅; Tick; FetchResponse 0 (Int 200);
                 StreamError 0 (External "ENOENT");
                 FetchData 0 [x09; x09]; FetchEnd 0; Tick] in
     crashed s = Some (External "ENOENT") ∧ file s = None
     ∧ events (trace s) = [DOWNLOAD_START])
  ∧ (let s := run no_faults d
                (Some (file_of_bytes [x01; x02; x03; x04; x05]))
                (schedule ++ [FileWritten 0]) in
     trace s = whole_file_trace
     ∧ (λ c, (fd_size c, fs_read c 0 5)) <$> file s
       = Some (5, [x09; x09; x03; x04; x05])).
Proof. by vm_compute. Qed.

(** ** Callbacks, one at a time *)

Lemma on_response_ok k f status : reaction_ok f (on_response k f status).
Proof.
  unfold on_response, reaction_ok.
  destruct (negb _ && negb _); simpl; split; try done.
  by repeat constructor.
Qed.

Lemma on_data_ok k f pos chunk : reaction_ok f (on_data k f pos chunk).
Proof. split; simpl; [by repeat constructor|done]. Qed.

Lemma on_end_ok f : reaction_ok f (on_end f).
Proof. split; simpl; [by repeat constructor|]. intros _. set_solver. Qed.

Lemma on_error_ok f err : reaction_ok f (on_error f err).
Proof. split; simpl; [by repeat constructor|done]. Qed.

Lemma state_eta (s : state) :
  {| this := this s; sizeP := sizeP s; fetches := fetches s; allP := allP s;
     pc := pc s; file := file s; queue := queue s; crashed := crashed s;
     trace := trace s |} = s.
Proof. by destruct s. Qed.

(** Every callback either changes nothing, settles the size promise while it
    is pending, runs one reaction of an existing fetch, lets [download]
    continue, or is one of the file system. *)
Lemma handle_cases (env : Env) (x : stimulus) (s : state) :
  handle env x s = s
  ∨ (sizeP s = Pending
     ∧ ∃ hs, handle env x s
             = {| this := (getFileSize_response (this s) hs).2;
                  sizeP := Fulfilled (getFileSize_response (this s) hs).1;
                  fetches := fetches s; allP := allP s; pc := pc s;
                  file := file s; queue := queue s; crashed := crashed s;
                  trace := trace s |})
  ∨ (sizeP s = Pending
     ∧ ∃ err, handle env x s
              = {| this := this s; sizeP := Rejected err;
                   fetches := fetches s; allP := allP s; pc := pc s;
                   file := file s; queue := queue s; crashed := crashed s;
                   trace := trace s |})
  ∨ (∃ k f r, fetches s !! k = Some f ∧ reaction_ok f r
              ∧ handle env x s = apply_reaction k f r s)
  ∨ handle env x s = resume env s
  ∨ (∃ k, handle env x s = written_out k s)
  ∨ (∃ k err, handle env x s = stream_error k err s).
Proof.
  assert (∀ k h, (∀ f r, h f = Some r → reaction_ok f r) →
            on_fetch k h s = s
            ∨ ∃ k' f r, fetches s !! k' = Some f ∧ reaction_ok f r
                        ∧ on_fetch k h s = apply_reaction k' f r s) as Hfetch.
  { intros k h Hh. unfold on_fetch.
    destruct (fetches s !! k) as [f|] eqn:Hk; [|by left].
    destruct (h f) as [r|] eqn:Hr; [|by left].
    right. exists k, f, r. split; [done|]. split; [by apply Hh|done]. }
  destruct x as [hs|err|k status|k chunk|k|k err|k err|k|k err|]; simpl.
  - destruct (sizeP s) eqn:Hp; [|by left..].
    right. left. split; [done|]. exists hs.
    by destruct (getFileSize_response (this s) hs).
  - destruct (sizeP s) eqn:Hp; simpl.
    + right. right. left. split; [done|]. by exists err.
    + left. rewrite <- Hp. apply state_eta.
    + left. rewrite <- Hp. apply state_eta.
  - destruct (Hfetch k (λ f, match f_res f with
                             | Awaited => Some (on_response k f status)
                             | _ => None
                             end)) as [H|H]; [|by left|by do 3 right; left].
    intros f r. destruct (f_res f); intros [= <-]. apply on_response_ok.
  - destruct (Hfetch k (λ f, match f_res f with
                             | Streaming pos => Some (on_data k f pos chunk)
                             | _ => None
                             end)) as [H|H]; [|by left|by do 3 right; left].
    intros f r. destruct (f_res f); intros [= <-]. apply on_data_ok.
  - destruct (Hfetch k (λ f, match f_res f with
                             | Streaming _ => Some (on_end f)
                             | _ => None
                             end)) as [H|H]; [|by left|by do 3 right; left].
    intros f r. destruct (f_res f); intros [= <-]. apply on_end_ok.
  - destruct (Hfetch k (λ f, match f_res f with
                             | Streaming _ => Some (on_error f err)
                             | _ => None
                             end)) as [H|H]; [|by left|by do 3 right; left].
    intros f r. destruct (f_res f); intros [= <-]. apply on_error_ok.
  - destruct (Hfetch k (λ f, Some (on_error f err))) as [H|H];
      [|by left|by do 3 right; left].
    intros f r [= <-]. apply on_error_ok.
  - do 5 right. left. by exists k.
  - do 6 right. by exists k, err.
  - do 4 right. by left.
Qed.

(** The callbacks of the file system change the file, the queues and the
    crash flag only; a file that exists stays, and does not shrink. *)
Lemma written_out_quiet (k : nat) (s : state) :
  this (written_out k s) = this s ∧ sizeP (written_out k s) = sizeP s
  ∧ fetches (written_out k s) = fetches s ∧ allP (written_out k s) = allP s
  ∧ pc (written_out k s) = pc s ∧ trace (written_out k s) = trace s
  ∧ crashed (written_out k s) = crashed s.
Proof.
  unfold written_out. destruct (file s); [|done].
  by destruct (queue s k) as [|[pos data] rest].
Qed.

Lemma stream_error_quiet (k : nat) (err : error) (s : state) :
  this (stream_error k err s) = this s
  ∧ sizeP (stream_error k err s) = sizeP s
  ∧ fetches (stream_error k err s) = fetches s
  ∧ allP (stream_error k err s) = allP s
  ∧ pc (stream_error k err s) = pc s
  ∧ trace (stream_error k err s) = trace s
  ∧ file (stream_error k err s) = file s
  ∧ queue (stream_error k err s) = queue s.
Proof.
  unfold stream_error. destruct (f_res <$> fetches s !! k) as [[]|]; done.
Qed.

(** ** Traces and fetch lists *)

Lemma activity_not_setup (a : action) : is_activity a = true → is_setup a = false.
Proof. by destruct a. Qed.

Lemma activity_not_complete (a : action) :
  is_activity a = true → is_complete a = false.
Proof. destruct a as [[]| | | | | | | |]; done. Qed.

Lemma gets_app (t u : list action) : gets (t ++ u) = gets t ++ gets u.
Proof. apply omap_app. Qed.

Lemma events_app (t u : list action) : events (t ++ u) = events t ++ events u.
Proof. apply omap_app. Qed.

Lemma gets_activity (l : list action) :
  Forall (λ a, is_activity a = true) l → gets l = [].
Proof.
  induction 1 as [|a l Ha _ IH]; [done|].
  destruct a; try done. all: exact IH.
Qed.

Lemma launches_insert (l : list fetch) (k : nat) (f f' : fetch) :
  l !! k = Some f → f_start f' = f_start f → f_end f' = f_end f →
  launches (<[k := f']> l) = launches l.
Proof.
  intros Hk Hs He. unfold launches. apply list_eq. intros j.
  rewrite !list_lookup_imap.
  destruct (decide (j = k)) as [->|Hne].
  - rewrite list_lookup_insert_eq by (by eapply lookup_lt_Some).
    rewrite Hk. simpl. by rewrite Hs, He.
  - by rewrite list_lookup_insert_ne.
Qed.

Lemma elem_of_insert_fetch (l : list fetch) (k : nat) (f' x : fetch) :
  x ∈ <[k := f']> l → x = f' ∨ x ∈ l.
Proof.
  intros [j Hj]%list_elem_of_lookup.
  destruct (decide (j = k)) as [->|Hne].
  - destruct (decide (k < length l)%nat).
    + rewrite list_lookup_insert_eq in Hj by done. left. congruence.
    + rewrite list_insert_ge in Hj by lia. right.
      apply list_elem_of_lookup. eauto.
  - rewrite list_lookup_insert_ne in Hj by done. right.
    apply list_elem_of_lookup. eauto.
Qed.

Lemma fs_write_at_grows (pos : number) (data : list byte) (c : file_data) :
  ∃ c', fs_write_at pos data (Some c) = Some c' ∧ fd_size c ≤ fd_size c'.
Proof.
  unfold fs_write_at.
  destruct pos as [z| | |], data as [|b data];
    try (exists c; split; [done|lia]).
  destruct (0 <=? z); [|exists c; split; [done|lia]].
  eexists. split; [done|]. cbn [fd_size]. lia.
Qed.

Lemma written_out_file (k : nat) (s : state) :
  match file s with
  | Some c => ∃ c', file (written_out k s) = Some c' ∧ fd_size c ≤ fd_size c'
  | None => file (written_out k s) = None
  end.
Proof.
  unfold written_out. destruct (file s) as [c|] eqn:Hfile; [|by rewrite Hfile].
  destruct (queue s k) as [|[pos data] rest].
  - rewrite Hfile. exists c. split; [done|lia].
  - cbn [file]. apply fs_write_at_grows.
Qed.

(** ** The invariant is kept by every callback *)

Lemma launched_reaction (s : state) (k : nat) (f : fetch) (r : reaction) :
  launched s → fetches s !! k = Some f → reaction_ok f r →
  launched (apply_reaction k f r s).
Proof.
  intros (size & Hsize & Hne & Hgets & Hmode & Hful & Hall & Hpc) Hk [Hact Hres].
  set (p := match r_settle r with
            | Some q => settle (f_promise f) q
            | None => f_promise f
            end).
  set (f' := {| f_start := f_start f; f_end := f_end f;
               f_promise := p; f_res := r_res r |}).
  assert (f_promise f = Fulfilled () → p = Fulfilled ()) as Hkeep.
  { intros Hp. subst p. rewrite Hp. by destruct (r_settle r). }
  assert (p = Fulfilled () →
          f_promise f = Fulfilled () ∨ r_settle r = Some (Fulfilled ())) as Hnew.
  { subst p. destruct (r_settle r) as [q|]; [|by left].
    destruct (f_promise f) as [|[]|]; simpl; [|by left|done].
    intros ->. by right. }
  assert (f ∈ fetches s) as Hin by (apply list_elem_of_lookup; eauto).
  assert (∀ x, x ∈ <[k := f']> (fetches s) → x = f' ∨ x ∈ fetches s) as Hmem
    by apply elem_of_insert_fetch.
  assert (Forall (λ a, is_setup a = false) (r_actions r)) as Hns.
  { eapply Forall_impl; [exact Hact|]. apply activity_not_setup. }
  assert (Forall (λ a, is_complete a = false) (r_actions r)) as Hnc.
  { eapply Forall_impl; [exact Hact|]. apply activity_not_complete. }
  exists size. unfold apply_reaction. fold p. fold f'. simpl.
  split; [done|]. split.
  { intros Hnil. apply (f_equal length) in Hnil.
    rewrite length_insert in Hnil. by destruct (fetches s). }
  split.
  { rewrite gets_app, (gets_activity _ Hact), app_nil_r.
    by rewrite (launches_insert _ _ f). }
  split.
  { destruct (whole_file_mode size (this s)).
    - destruct Hmode as (f0 & rest & Hfs & Hs0 & He0 & Htr & Hrest).
      rewrite Hfs in Hk. destruct k as [|k]; [|done]. injection Hk as ->.
      exists f', (rest ++ r_actions r). rewrite Hfs, Htr. simpl.
      split; [done|]. split; [done|]. split; [done|]. split; [done|].
      by apply Forall_app.
    - destruct Hmode as (z & rest & c & Hz & Htr & Hrest & Hfile & Hlen).
      exists z, (rest ++ r_actions r), c. rewrite Htr.
      split; [done|]. split; [by unfold preallocation|].
      split; [by apply Forall_app|]. done. }
  split.
  { intros x [->|Hx]%Hmem Hp; apply elem_of_app.
    - simpl in *. destruct (Hnew Hp) as [Hold|Hnow].
      + left. by apply (Hful f).
      + right. by apply Hres.
    - left. by apply Hful. }
  split.
  { intros Hp x Hx. destruct (allP s) eqn:HallP; simpl in Hp.
    - unfold join in Hp. simpl in Hp. destruct p; try done.
      + destruct (forallb _ _) eqn:Hfa; [|done].
        rewrite forallb_forall in Hfa. apply list_elem_of_In, Hfa in Hx.
        by destruct (f_promise x) as [|[]|].
      + destruct (forallb _ _) eqn:Hfa; [|done].
        rewrite forallb_forall in Hfa. apply list_elem_of_In, Hfa in Hx.
        by destruct (f_promise x) as [|[]|].
    - destruct (Hmem x Hx) as [->|Hx']; [|by apply Hall].
      simpl. apply Hkeep. by apply Hall.
    - done. }
  destruct (pc s); try done.
  - destruct Hpc as [? ?]. split; [done|]. by apply Forall_app.
  - destruct Hpc as [? ?]. split; [done|]. by apply Forall_app.
  - destruct Hpc as (pre & post & Htr & Hpre & Hpost & Hdone).
    exists pre, (post ++ r_actions r). rewrite Htr.
    split; [by rewrite <- app_assoc|]. split; [done|].
    split; [by apply Forall_app|].
    intros x [->|Hx]%Hmem; [|by apply Hdone]. simpl.
    destruct (Hdone f Hin) as [Hp Hev]. split; [by apply Hkeep|done].
  - by apply Forall_app.
Qed.

(** ** Launching the fetches *)

Lemma omap_imap_Some {A B C} (f : B → option C) (g : nat → A → B)
    (h : nat → A → C) (l : list A) :
  (∀ k x, f (g k x) = Some (h k x)) → omap f (imap g l) = imap h l.
Proof.
  revert g h. induction l as [|x l IH]; intros g h Hgh; [done|].
  simpl. rewrite Hgh. f_equal. apply IH. intros k y. apply Hgh.
Qed.

Lemma launch_gets (chunks : list Chunk) :
  gets (launch_all chunks).2 = launches (launch_all chunks).1.
Proof.
  unfold launch_all, launches, gets. simpl.
  rewrite (omap_imap_Some _ _
             (λ k c, (k, range_header (start c) (end_ c)))) by done.
  apply list_eq. intros j. rewrite !list_lookup_imap.
  by destruct (chunks !! j).
Qed.

Lemma launch_pending (chunks : list Chunk) (f : fetch) :
  f ∈ (launch_all chunks).1 → f_promise f = Pending.
Proof.
  unfold launch_all. simpl.
  by intros (k & c & -> & _)%elem_of_lookup_imap.
Qed.

Lemma launch_actions (chunks : list Chunk) :
  Forall (λ a, is_setup a = false) (launch_all chunks).2
  ∧ Forall (λ a, is_complete a = false) (launch_all chunks).2.
Proof.
  unfold launch_all. simpl.
  split; apply Forall_forall; by intros a (k & c & -> & _)%elem_of_lookup_imap.
Qed.

Lemma launch_nonempty (chunks : list Chunk) :
  chunks ≠ [] → (launch_all chunks).1 ≠ [].
Proof. by destruct chunks. Qed.

(** ** Preallocation *)

Lemma preallocate_done env size f calls f' :
  preallocate env size f = (calls, f', None) →
  ∃ z c, size = Int z
         ∧ - MAX_SAFE_INTEGER ≤ z ≤ MAX_SAFE_INTEGER
         ∧ calls = [OpenSync "w"; FtruncateSync size; CloseSync]
         ∧ f' = Some c ∧ fd_size c = Z.max 0 z
         ∧ ∀ i, read_byte c i = x00.
Proof.
  unfold preallocate, ftruncate_outcome.
  destruct (open_result env); [done|].
  destruct size as [z| | |]; try done.
  destruct (Z.leb_spec (- MAX_SAFE_INTEGER) z); [|done].
  destruct (Z.leb_spec z MAX_SAFE_INTEGER); [|done]. cbn [andb].
  destruct (ftruncate_result env); [done|].
  intros [= <- <- Hclose]. eexists z, _. repeat split; try done.
  intros i. unfold read_byte. simpl.
  destruct (_ && _); [|done]. by destruct (_ && _).
Qed.

Lemma preallocate_failed env size f calls f' err :
  preallocate env size f = (calls, f', Some err) →
  Forall (λ a, is_setup a = true) calls.
Proof.
  unfold preallocate.
  destruct (open_result env); [by intros [= <- _ _]; repeat constructor|].
  destruct (ftruncate_outcome env size);
    intros [= <- _ _]; by repeat constructor.
Qed.

(** In a multi-chunk run over a size the file system accepts, the planner
    exits with at least one range. *)
Lemma plan_exists (d : Downloadr) (z : Z) :
  chunkCount d = resolveChunkCount (Int z) →
  whole_file_mode (Int z) d = false →
  z ≤ MAX_SAFE_INTEGER →
  0 ≤ z ∧ ∃ chunks,
    getChunks (getChunks_fuel (Int z) (JS.ceil_div (Int z) (chunkCount d)))
      d (Int z) = Some chunks
    ∧ chunks ≠ [].
Proof.
  intros Hd Hmode Hmax. unfold whole_file_mode in Hmode.
  apply orb_false_iff in Hmode as [_ Hone].
  rewrite Hd in Hone. unfold resolveChunkCount in *.
  unfold MAX_SAFE_INTEGER in Hmax.
  change (JS.lt (Int z) (Int (100 * 1024 * 1024)))
    with (z <? 100 * 1024 * 1024) in *.
  destruct (Z.ltb_spec z (100 * 1024 * 1024)) as [Hlt|Hge]; [done|].
  rewrite (ceil_div_exact z (100 * 1024 * 1024)) in Hd by lia.
  set (cc := ceil_divZ z (100 * 1024 * 1024)) in *.
  assert (1 ≤ cc) by (apply ceil_divZ_pos; lia).
  rewrite Hd, (ceil_div_exact z cc) by lia.
  set (cs := ceil_divZ z cc).
  assert (1 ≤ cs) by (apply ceil_divZ_pos; lia).
  pose proof (ceil_divZ_pos z cs ltac:(lia) ltac:(lia)) as Hn.
  split; [lia|]. unfold getChunks_fuel.
  destruct (Z.ltb_spec 0 cs); [|lia].
  eexists. split.
  - apply (getChunks_closed_form d z cc);
      [unfold MAX_SAFE_INTEGER; lia|lia|done|]. by fold cs.
  - fold cs. destruct (Z.to_nat (ceil_divZ z cs)) eqn:Hnat; [lia|done].
Qed.

(** ** The invariant is kept when [download] continues *)

Lemma launched_finish (s : state) (p : promise unit) :
  launched s →
  pc s = AtDownloadChunk ∨ pc s = AtPromiseAll →
  (p = Fulfilled () → ∀ f, f ∈ fetches s → f_promise f = Fulfilled ()) →
  launched (finish p s).
Proof.
  intros Hl Hat Hp. destruct p as [|[]|err]; [done|..].
  - destruct Hl as (size & Hsize & Hne & Hgets & Hmode & Hful & Hall & Hpc).
    assert (Forall (λ a, is_complete a = false) (trace s)) as Hnc.
    { destruct Hat as [Hat|Hat]; rewrite Hat in Hpc; tauto. }
    exists size. simpl. split; [done|]. split; [done|].
    split; [by rewrite gets_app, app_nil_r|].
    split.
    { destruct (whole_file_mode size (this s)).
      - destruct Hmode as (f0 & rest & Hfs & Hs0 & He0 & Htr & Hrest).
        exists f0, (rest ++ [Emit DOWNLOAD_COMPLETE]). rewrite Htr.
        repeat split; try done. apply Forall_app. by repeat constructor.
      - destruct Hmode as (z & rest & c & Hz & Htr & Hrest & Hfile & Hlen).
        exists z, (rest ++ [Emit DOWNLOAD_COMPLETE]), c. rewrite Htr.
        split; [done|]. split; [by unfold preallocation|].
        split; [|done]. apply Forall_app. by repeat constructor. }
    split; [intros f Hf Hfp; apply elem_of_app; left; by apply Hful|].
    split; [done|].
    exists (trace s), []. repeat split; try done.
    + by apply Hp.
    + apply Hful; [done|]. by apply Hp.
  - destruct Hl as (size & Hsize & Hne & Hgets & Hmode & Hful & Hall & Hpc).
    assert (Forall (λ a, is_complete a = false) (trace s)) as Hnc.
    { destruct Hat as [Hat|Hat]; rewrite Hat in Hpc; tauto. }
    exists size. simpl. split; [done|]. split; [done|].
    split; [by rewrite gets_app, app_nil_r|].
    split.
    { destruct (whole_file_mode size (this s)).
      - destruct Hmode as (f0 & rest & Hfs & Hs0 & He0 & Htr & Hrest).
        exists f0, (rest ++ [Emit (DOWNLOAD_FAILED err)]). rewrite Htr.
        repeat split; try done. apply Forall_app. by repeat constructor.
      - destruct Hmode as (z & rest & c & Hz & Htr & Hrest & Hfile & Hlen).
        exists z, (rest ++ [Emit (DOWNLOAD_FAILED err)]), c. rewrite Htr.
        split; [done|]. split; [by unfold preallocation|].
        split; [|done]. apply Forall_app. by repeat constructor. }
    split; [intros f Hf Hfp; apply elem_of_app; left; by apply Hful|].
    split; [done|].
    apply Forall_app. by repeat constructor.
Qed.

Lemma Inv_after_size (env : Env) (s : state) (size : number) :
  not_launched s → pc s = AtGetFileSize → sizeP s = Fulfilled size →
  Inv (after_size env size s).
Proof.
  intros [Hnil Hshape] Hpc Hsize. rewrite Hpc in Hshape.
  destruct Hshape as (Htr & HallP & Hpolicy).
  specialize (Hpolicy size Hsize).
  unfold after_size. destruct (whole_file_mode size (this s)) eqn:Hmode.
  - right. exists size. simpl. rewrite Hmode, Htr, HallP.
    split; [done|]. split; [done|]. split; [done|].
    split; [by eexists _, []|].
    split; [by intros f ->%list_elem_of_singleton|].
    split; [done|]. split; [done|]. by repeat constructor.
  - destruct (preallocate env size (file s)) as [[calls f'] [err|]] eqn:Hpre.
    + left. split; [done|]. simpl. right.
      exists size, (ConsoleLog ("File size: " +:+ JS.toString size +:+ " bytes")
                    :: calls).
      rewrite Htr. split; [done|]. split; [done|]. split; [done|].
      constructor; [done|]. by eapply preallocate_failed.
    + apply preallocate_done
        in Hpre as (z & c & -> & [_ Hmax] & -> & -> & Hlen & _).
      destruct (plan_exists (this s) z Hpolicy Hmode Hmax)
        as (Hz & chunks & Hplan & Hchunks).
      cbv zeta. change (this (set_file _ _)) with (this s). rewrite Hplan.
      pose proof (launch_gets chunks) as Hgets.
      pose proof (launch_pending chunks) as Hpend.
      pose proof (launch_actions chunks) as [Hns Hnc].
      pose proof (launch_nonempty chunks Hchunks) as Hne.
      destruct (launch_all chunks) as [fs acts]. simpl in *.
      right. exists (Int z). simpl. rewrite Hmode, Htr.
      split; [done|]. split; [done|].
      split; [by rewrite <- Hgets|].
      split; [exists z, acts, c; repeat split; try done; lia|].
      split; [intros f Hf Hp; by rewrite (Hpend f Hf) in Hp|].
      split.
      { destruct chunks; [done|]. done. }
      split; [done|]. by repeat constructor.
Qed.

Lemma Inv_resume (env : Env) (s : state) : Inv s → Inv (resume env s).
Proof.
  intros [Hn|Hl]; unfold resume.
  - pose proof Hn as [Hnil Hshape].
    destruct (pc s) eqn:Hpc; try done; [|by left].
    destruct (sizeP s) as [|size|err] eqn:Hsize; [by left| |].
    + by apply Inv_after_size.
    + left. split; [done|]. simpl. left.
      destruct Hshape as (-> & _ & _). done.
  - pose proof Hl as (size & Hsize & Hne & Hgets & Hmode & Hful & Hall & Hshape).
    destruct (pc s) eqn:Hpc; try done; try by right.
    + destruct Hshape as [Hm _]. rewrite Hm in Hmode.
      destruct Hmode as (f0 & rest & Hfs & _). rewrite Hfs. simpl.
      right. apply launched_finish; [done|by left|].
      intros Hp f Hf. rewrite Hfs in Hf.
      by apply list_elem_of_singleton in Hf as ->.
    + right. apply launched_finish; [done|by right|done].
Qed.

(** The invariant does not see the queues or the crash flag, and asks of the
    file only that it stays as long as it was. *)
Lemma Inv_file_system (s s' : state) :
  this s' = this s → sizeP s' = sizeP s → fetches s' = fetches s →
  allP s' = allP s → pc s' = pc s → trace s' = trace s →
  (∀ c, file s = Some c → ∃ c', file s' = Some c' ∧ fd_size c ≤ fd_size c') →
  Inv s → Inv s'.
Proof.
  intros Hthis Hsize Hfs Hall Hpc Htr Hfile [Hn|Hl].
  - left. unfold not_launched in *.
    by rewrite Hthis, Hsize, Hfs, Hall, Hpc, Htr.
  - right. unfold launched in *.
    destruct Hl as (size & Hs & Hne & Hgets & Hmode & Hrest).
    exists size. rewrite Hthis, Hsize, Hfs, Hall, Hpc, Htr.
    split; [done|]. split; [done|]. split; [done|]. split; [|done].
    destruct (whole_file_mode size (this s)); [done|].
    destruct Hmode as (z & rest & c & Hz & Ht & Hr & Hc & Hlen).
    destruct (Hfile c Hc) as (c' & Hc' & Hle).
    exists z, rest, c'. repeat split; try done. lia.
Qed.

Lemma Inv_written_out (k : nat) (s : state) : Inv s → Inv (written_out k s).
Proof.
  destruct (written_out_quiet k s) as (? & ? & ? & ? & ? & ? & _).
  apply Inv_file_system; try done.
  intros c Hc. pose proof (written_out_file k s) as H'.
  by rewrite Hc in H'.
Qed.

Lemma Inv_stream_error (k : nat) (err : error) (s : state) :
  Inv s → Inv (stream_error k err s).
Proof.
  destruct (stream_error_quiet k err s) as (? & ? & ? & ? & ? & ? & Hf & _).
  apply Inv_file_system; try done.
  intros c Hc. exists c. rewrite Hf. split; [done|lia].
Qed.

Lemma Inv_handle (env : Env) (x : stimulus) (s : state) :
  Inv s → Inv (handle env x s).
Proof.
  intros HI.
  destruct (handle_cases env x s)
    as [->|[[Hp [hs ->]]|[[Hp [err ->]]|[(k & f & r & Hk & Hr & ->)
       |[->|[[k ->]|(k & err & ->)]]]]]];
    [| | | | |by apply Inv_written_out|by apply Inv_stream_error].
  - done.
  - destruct HI as [[Hnil Hshape]|(size & Hsize & _)]; [|congruence].
    left. split; [done|]. simpl.
    destruct (pc s); try done.
    + destruct Hshape as (? & ? & _). repeat split; try done.
      intros size [= <-]. apply getFileSize_response_policy.
    + destruct Hshape as [[? _]|(size & ? & ? & _)]; congruence.
  - destruct HI as [[Hnil Hshape]|(size & Hsize & _)]; [|congruence].
    left. split; [done|]. simpl.
    destruct (pc s); try done.
    + destruct Hshape as (? & ? & _). by repeat split.
    + destruct Hshape as [[? _]|(size & ? & ? & _)]; congruence.
  - destruct HI as [[Hnil _]|Hl].
    + by rewrite Hnil in Hk.
    + right. by apply launched_reaction.
  - by apply Inv_resume.
Qed.

(** ** Every run satisfies the invariant *)

Lemma Inv_download (d : Downloadr) (file0 : file_content) :
  Inv (download d file0).
Proof. left. by repeat split. Qed.

Lemma Inv_run_from (env : Env) (schedule : list stimulus) (s : state) :
  Inv s → Inv (run_from env s schedule).
Proof.
  revert s. induction schedule as [|x rest IH]; intros s HI; [done|].
  simpl. destruct (crashed s); [done|]. by apply IH, Inv_handle.
Qed.

Lemma Inv_run env d file0 schedule : Inv (run env d file0 schedule).
Proof. apply Inv_run_from, Inv_download. Qed.

(** ** Reading the invariant *)

Lemma setup_not_activity (a : action) : is_setup a = true → is_activity a = false.
Proof. by destruct a. Qed.

Lemma gets_setup (l : list action) :
  Forall (λ a, is_setup a = true) l → gets l = [].
Proof.
  induction 1 as [|a l Ha _ IH]; [done|]. by destruct a.
Qed.

Lemma events_setup (l : list action) :
  Forall (λ a, is_setup a = true) l → events l = [].
Proof.
  induction 1 as [|a l Ha _ IH]; [done|]. by destruct a.
Qed.

Lemma setup_not_complete (l : list action) :
  Forall (λ a, is_setup a = true) l → Forall (λ a, is_complete a = false) l.
Proof. intros H. eapply Forall_impl; [exact H|]. by intros []. Qed.

(** A trace without a completion event cannot be split at one. *)
Lemma no_complete_split (t pre post : list action) :
  Forall (λ a, is_complete a = false) t →
  t ≠ pre ++ Emit DOWNLOAD_COMPLETE :: post.
Proof.
  intros Hall ->. apply Forall_app in Hall as [_ Hall].
  by apply Forall_cons in Hall as [? _].
Qed.

(** The completion event occurs once: a split at it is the only one. *)
Lemma complete_split_unique (pre post pre' post' : list action) :
  Forall (λ a, is_complete a = false) pre →
  Forall (λ a, is_complete a = false) post →
  pre ++ Emit DOWNLOAD_COMPLETE :: post = pre' ++ Emit DOWNLOAD_COMPLETE :: post' →
  pre = pre'.
Proof.
  revert pre'. induction pre as [|a pre IH]; intros pre' Hpre Hpost Heq.
  - destruct pre' as [|b pre']; [done|]. simpl in Heq.
    injection Heq as <- Heq. exfalso. by eapply no_complete_split.
  - apply Forall_cons in Hpre as [Ha Hpre].
    destruct pre' as [|b pre']; simpl in Heq.
    + injection Heq as -> _. done.
    + injection Heq as <- Heq. f_equal. by apply IH.
Qed.

Lemma not_launched_trace (s : state) :
  not_launched s →
  gets (trace s) = []
  ∧ Forall (λ a, is_activity a = false) (trace s)
  ∧ Forall (λ a, is_complete a = false) (trace s)
  ∧ (events (trace s) = []
     ∨ ∃ e, pc s = Threw e ∧ events (trace s) = [DOWNLOAD_FAILED e]).
Proof.
  intros [_ Hshape]. destruct (pc s); try done.
  - destruct Hshape as (-> & _). repeat split; try by repeat constructor.
  - destruct Hshape as [[_ ->]|(size & pre & _ & _ & -> & Hpre)].
    + repeat split; try by repeat constructor. right. by eexists.
    + change (Request "bytes=0-0" :: pre ++ [Emit (DOWNLOAD_FAILED err)])
        with ([Request "bytes=0-0"] ++ pre ++ [Emit (DOWNLOAD_FAILED err)]).
      rewrite !gets_app, !events_app, (gets_setup pre), (events_setup pre)
        by done.
      repeat split; try done.
      * apply Forall_app. split; [by repeat constructor|].
        apply Forall_app. split; [|by repeat constructor].
        eapply Forall_impl; [exact Hpre|]. apply setup_not_activity.
      * apply Forall_app. split; [by repeat constructor|].
        apply Forall_app. split; [|by repeat constructor].
        by apply setup_not_complete.
      * right. by eexists.
Qed.

Lemma launched_start (s : state) :
  launched s →
  ∃ pre post,
    trace s = pre ++ Emit DOWNLOAD_START :: post
    ∧ Forall (λ a, is_setup a = true) pre
    ∧ Forall (λ a, is_setup a = false) post.
Proof.
  intros (size & _ & _ & _ & Hmode & _).
  destruct (whole_file_mode size (this s)).
  - destruct Hmode as (f & rest & _ & _ & _ & -> & Hrest).
    exists [Request "bytes=0-0"], (Get 0 None :: rest).
    repeat split; by repeat constructor.
  - destruct Hmode as (z & rest & c & _ & -> & Hrest & _).
    exists (Request "bytes=0-0" :: preallocation size), rest.
    unfold preallocation. repeat split; [by repeat constructor|done].
Qed.

Lemma Inv_complete (s : state) (pre post : list action) :
  Inv s → trace s = pre ++ Emit DOWNLOAD_COMPLETE :: post →
  pc s = Returned
  ∧ ∀ f, f ∈ fetches s →
         f_promise f = Fulfilled ()
         ∧ Emit (CHUNK_DOWNLOADED (f_start f) (f_end f)) ∈ pre.
Proof.
  intros [Hn|Hl] Htr.
  - apply not_launched_trace in Hn as (_ & _ & Hnc & _).
    by eapply no_complete_split in Hnc.
  - destruct Hl as (size & _ & _ & _ & _ & _ & _ & Hpc).
    destruct (pc s); try done.
    + destruct Hpc as [_ Hnc]. by eapply no_complete_split in Hnc.
    + destruct Hpc as [_ Hnc]. by eapply no_complete_split in Hnc.
    + destruct Hpc as (pre0 & post0 & Htr0 & Hpre0 & Hpost0 & Hdone).
      rewrite Htr0 in Htr.
      apply complete_split_unique in Htr as <-; done.
    + by eapply no_complete_split in Hpc.
Qed.

(** ** The order of events *)

(** C4.  In every successful run (one in which [download] returns),
    DOWNLOAD_START is the first event emitted: nothing but the probe and the
    preallocation calls precede it, so no chunk activity does, and
    DOWNLOAD_COMPLETE is emitted after it.  Wherever DOWNLOAD_COMPLETE
    occurs in the trace of a run, the run has returned, every fetch launched
    has resolved (no chunk failed), and its CHUNK_DOWNLOADED event occurs
    strictly earlier in the trace.  For every run of [download], the failing
    ones included: DOWNLOAD_START is either the first event, emitted before
    any fetch is issued, or it is never emitted; then no fetch was launched,
    and the run emitted nothing yet or failed with DOWNLOAD_FAILED as its
    only event, which is what a failure of size discovery or of
    preallocation gives. *)
Theorem download_event_order (env : Env) (d : Downloadr)
    (file0 : file_content) (schedule : list stimulus) :
  let s := run env d file0 schedule in
  ((∃ pre post,
      trace s = pre ++ Emit DOWNLOAD_START :: post
      ∧ Forall (λ a, is_setup a = true) pre
      ∧ events (trace s) = DOWNLOAD_START :: events post)
   ∨ (fetches s = [] ∧ gets (trace s) = []
      ∧ Forall (λ a, is_activity a = false) (trace s)
      ∧ (events (trace s) = []
         ∨ ∃ e, pc s = Threw e ∧ events (trace s) = [DOWNLOAD_FAILED e])))
  ∧ (pc s = Returned →
     ∃ pre post,
       trace s = pre ++ Emit DOWNLOAD_START :: post
       ∧ Forall (λ a, is_setup a = true) pre
       ∧ events (trace s) = DOWNLOAD_START :: events post
       ∧ Emit DOWNLOAD_COMPLETE ∈ post)
  ∧ (∀ pre post,
       trace s = pre ++ Emit DOWNLOAD_COMPLETE :: post →
       pc s = Returned
       ∧ ∀ f, f ∈ fetches s →
              f_promise f = Fulfilled ()
              ∧ Emit (CHUNK_DOWNLOADED (f_start f) (f_end f)) ∈ pre)
  ∧ (∀ e, sizeP s = Rejected e → pc s ≠ AtGetFileSize →
          events (trace s) = [DOWNLOAD_FAILED e])
  ∧ (∀ e, pc s = Threw e → fetches s = [] →
          events (trace s) = [DOWNLOAD_FAILED e]).
Proof.
  intros s. pose proof (Inv_run env d file0 schedule) as HI. fold s in HI.
  split; [|split; [|split; [|split]]].
  - destruct HI as [Hn|Hl].
    + right. destruct Hn as [Hnil Hshape].
      destruct (not_launched_trace s (conj Hnil Hshape)) as (? & ? & _ & ?).
      done.
    + left. destruct (launched_start s Hl) as (pre & post & Htr & Hpre & _).
      exists pre, post. split; [done|]. split; [done|].
      rewrite Htr, events_app, (events_setup pre Hpre). done.
  - intros Hret. destruct HI as [[_ Hshape]|Hl]; [by rewrite Hret in Hshape|].
    destruct (launched_start s Hl) as (pre & post & Htr & Hpre & _).
    exists pre, post. split; [done|]. split; [done|].
    split; [by rewrite Htr, events_app, (events_setup pre Hpre)|].
    destruct Hl as (size & _ & _ & _ & _ & _ & _ & Hpc). rewrite Hret in Hpc.
    destruct Hpc as (pre0 & post0 & Htr0 & _).
    assert (Emit DOWNLOAD_COMPLETE ∈ trace s) as Hin.
    { rewrite Htr0. apply elem_of_app. right. by left. }
    rewrite Htr in Hin. apply elem_of_app in Hin as [Hin|Hin].
    + rewrite Forall_forall in Hpre. by apply Hpre in Hin.
    + by apply elem_of_cons in Hin as [?|?].
  - intros pre post Htr. by apply (Inv_complete s pre post).
  - intros e Hrej Hpc. destruct HI as [Hn|(size & Hsize & _)]; [|congruence].
    destruct (not_launched_trace s Hn) as (_ & _ & _ & Hev).
    destruct Hn as [_ Hshape]. destruct (pc s); try done.
    destruct Hshape as [[Hrej' Htr]|(size & pre & Hsize & _)]; [|congruence].
    rewrite Htr. by assert (err = e) as -> by congruence.
  - intros e Hpc Hnil. destruct HI as [Hn|(size & _ & Hne & _)]; [|done].
    destruct (not_launched_trace s Hn) as (_ & _ & _ & [Hev|(e' & Hpc' & Hev)]).
    + destruct Hn as [_ Hshape]. rewrite Hpc in Hshape.
      destruct Hshape as [[_ Htr]|(size & pre & _ & _ & Htr & Hpre)];
        rewrite Htr in Hev; [done|].
      change (Request "bytes=0-0" :: pre ++ [Emit (DOWNLOAD_FAILED e)])
        with ([Request "bytes=0-0"] ++ pre ++ [Emit (DOWNLOAD_FAILED e)]) in Hev.
      rewrite !events_app, (events_setup pre Hpre) in Hev. done.
    + congruence.
Qed.

(** The theorem on a two-chunk run in which both fetches complete. *)
Lemma download_event_order_witness :
  ∃ pre post,
    trace (run no_faults
             (new_Downloadr {| opt_url := "http://h/f"; opt_outputPath := "f";
                               opt_chunkCount := None;
                               opt_highWaterMark := None |})
             None
             [ProbeResponse {["content-length" := "200000000"]}; Tick;
              FetchResponse 0 (Int 206); FetchResponse 1 (Int 206);
              FetchEnd 1; FetchEnd 0; Tick])
    = pre ++ Emit DOWNLOAD_START :: post
    ∧ Forall (λ a, is_setup a = true) pre
    ∧ events
        (trace (run no_faults
             (new_Downloadr {| opt_url := "http://h/f"; opt_outputPath := "f";
                               opt_chunkCount := None;
                               opt_highWaterMark := None |})
             None
             [ProbeResponse {["content-length" := "200000000"]}; Tick;
              FetchResponse 0 (Int 206); FetchResponse 1 (Int 206);
              FetchEnd 1; FetchEnd 0; Tick]))
      = DOWNLOAD_START :: events post
    ∧ Emit DOWNLOAD_COMPLETE ∈ post.
Proof.
  apply (proj1 (proj2 (download_event_order no_faults
           (new_Downloadr {| opt_url := "http://h/f"; opt_outputPath := "f";
                             opt_chunkCount := None;
                             opt_highWaterMark := None |})
           None
           [ProbeResponse {["content-length" := "200000000"]}; Tick;
            FetchResponse 0 (Int 206); FetchResponse 1 (Int 206);
            FetchEnd 1; FetchEnd 0; Tick]))).
  vm_compute. reflexivity.
Defined.

(** ** Whole-file and ranged requests *)




(** ** Preallocation before the fetches *)

Lemma whole_file_mode_false (size : number) (d : Downloadr) :
  size ≠ Int (-1) → chunkCount d ≠ Int 1 → whole_file_mode size d = false.
Proof.
  intros Hs Hc. unfold whole_file_mode. apply orb_false_iff.
  rewrite <- !not_true_iff_false, !strict_eq_Int. done.
Qed.

(** Right after the launch of a multi-chunk run the file has exactly the
    discovered length, and holds zero bytes only. *)
Lemma after_size_file (env : Env) (s : state) (size : number) :
  not_launched s → pc s = AtGetFileSize → sizeP s = Fulfilled size →
  whole_file_mode size (this s) = false →
  fetches (after_size env size s) ≠ [] →
  ∃ z c, size = Int z ∧ file (after_size env size s) = Some c
         ∧ fd_size c = z ∧ ∀ i, read_byte c i = x00.
Proof.
  intros [Hnil Hshape] Hpc Hsize Hmode. rewrite Hpc in Hshape.
  destruct Hshape as (_ & _ & Hpolicy). specialize (Hpolicy size Hsize).
  unfold after_size. rewrite Hmode.
  destruct (preallocate env size (file s)) as [[calls f'] [err|]] eqn:Hpre;
    [done|].
  apply preallocate_done
    in Hpre as (z & c & -> & [_ Hmax] & -> & -> & Hlen & Hzero).
  destruct (plan_exists (this s) z Hpolicy Hmode Hmax)
    as (Hz & chunks & Hplan & Hchunks).
  cbv zeta. change (this (set_file _ _)) with (this s). rewrite Hplan.
  destruct (launch_all chunks) as [fs acts]. simpl. intros _.
  exists z, c. repeat split; [lia|done].
Qed.

(** C8. In a multi-chunk run (the size is known, the chunk count is not 1):
    while no fetch is launched the trace holds no request and no write;
    the step that launches the fetches leaves the file with exactly
    [fileSize] bytes, all zero; and once fetches are launched the trace
    starts with the probe, [openSync(path, 'w')], [ftruncateSync(fd,
    fileSize)], [closeSync(fd)] and DOWNLOAD_START, every request and every
    write comes after them, the file is never opened for truncation again,
    and it has at least [fileSize] bytes. *)
Theorem download_preallocates_first (env : Env) (d : Downloadr)
    (file0 : file_content) (schedule : list stimulus) :
  let s := run env d file0 schedule in
  ∀ size,
    sizeP s = Fulfilled size → size ≠ Int (-1) → chunkCount (this s) ≠ Int 1 →
    (fetches s = [] →
     gets (trace s) = [] ∧ Forall (λ a, is_activity a = false) (trace s))
    ∧ (pc s = AtGetFileSize →
       fetches (handle env Tick s) ≠ [] →
       ∃ z c, size = Int z ∧ file (handle env Tick s) = Some c
              ∧ fd_size c = z ∧ ∀ i, read_byte c i = x00)
    ∧ (fetches s ≠ [] →
       ∃ z rest c,
         size = Int z
         ∧ trace s
           = Request "bytes=0-0"
             :: ConsoleLog ("File size: " +:+ JS.toString size +:+ " bytes")
             :: OpenSync "w" :: FtruncateSync size :: CloseSync
             :: Emit DOWNLOAD_START :: rest
         ∧ Forall (λ a, is_setup a = false) rest
         ∧ file s = Some c ∧ z ≤ fd_size c).
Proof.
  intros s size Hsize Hknown Hcount.
  pose proof (Inv_run env d file0 schedule) as HI. fold s in HI.
  pose proof (whole_file_mode_false size (this s) Hknown Hcount) as Hmode.
  split; [|split].
  - intros Hnil. destruct HI as [Hn|(size' & _ & Hne & _)]; [|done].
    by destruct (not_launched_trace s Hn) as (? & ? & _).
  - intros Hpc. simpl. unfold resume. rewrite Hpc, Hsize.
    destruct HI as [Hn|(size' & _ & _ & _ & _ & _ & _ & Hshape)].
    + by apply after_size_file.
    + by rewrite Hpc in Hshape.
  - intros Hne. destruct HI as [[Hnil _]|(size' & Hsize' & _ & _ & Hm & _)];
      [done|].
    assert (size' = size) as -> by congruence. rewrite Hmode in Hm.
    destruct Hm as (z & rest & c & Hz & Htr & Hrest & Hfile & Hlen).
    by exists z, rest, c.
Qed.

(** The theorem on a two-chunk run, after the first response. *)
Lemma download_preallocates_first_witness :
  ∃ z rest c,
    Int 200000000 = Int z
    ∧ trace (run no_faults
               (new_Downloadr {| opt_url := "http://h/f"; opt_outputPath := "f";
                                 opt_chunkCount := None;
                                 opt_highWaterMark := None |})
               None
               [ProbeResponse {["content-length" := "200000000"]}; Tick;
                FetchResponse 0 (Int 206)])
      = Request "bytes=0-0"
        :: ConsoleLog ("File size: " +:+ JS.toString (Int 200000000) +:+ " bytes")
        :: OpenSync "w" :: FtruncateSync (Int 200000000) :: CloseSync
        :: Emit DOWNLOAD_START :: rest
    ∧ Forall (λ a, is_setup a = false) rest
    ∧ file (run no_faults
              (new_Downloadr {| opt_url := "http://h/f"; opt_outputPath := "f";
                                opt_chunkCount := None;
                                opt_highWaterMark := None |})
              None
              [ProbeResponse {["content-length" := "200000000"]}; Tick;
               FetchResponse 0 (Int 206)]) = Some c
    ∧ z ≤ fd_size c.
Proof.
  apply (download_preallocates_first no_faults
           (new_Downloadr {| opt_url := "http://h/f"; opt_outputPath := "f";
                             opt_chunkCount := None;
                             opt_highWaterMark := None |})
           None
           [ProbeResponse {["content-length" := "200000000"]}; Tick;
            FetchResponse 0 (Int 206)] (Int 200000000)).
  - vm_compute. reflexivity.
  - discriminate.
  - vm_compute. discriminate.
  - vm_compute. discriminate.
Defined.

(** * Further properties *)

(** ** The sizes of the planned ranges *)



(** ** Chunk counts below 1 *)



(** X3.  With a negative chunk count the step [ceil (fileSize / chunkCount)] is
    not positive: for every file size of at least 1 the loop of [getChunks]
    never exits, whatever the number of iterations granted. *)
Theorem getChunks_negative_count (d : Downloadr) (fileSize cc : Z) (fuel : nat) :
  1 ≤ fileSize → cc ≤ -1 → chunkCount d = Int cc →
  getChunks fuel d (Int fileSize) = None.
Proof.
  intros Hfs Hcc Hd. unfold getChunks. rewrite Hd.
  destruct (ceil_div_opposite fileSize cc Hfs Hcc) as (c & -> & Hc).
  apply (getChunks_loop_never (at_most 0)); [|done].
  intros [i| | |] Hi; try done; split.
  - unfold at_most in Hi. apply Z.ltb_lt. lia.
  - unfold at_most in Hi. apply round_nonpos. lia.
Qed.

Lemma getChunks_negative_count_witness :
  getChunks 1000 (set_chunkCount (Int (-2))
                    (new_Downloadr {| opt_url := "http://h/f";
                                      opt_outputPath := "f";
                                      opt_chunkCount := None;
                                      opt_highWaterMark := None |}))
    (Int 10) = None.
Proof.
  exact (getChunks_negative_count
           (set_chunkCount (Int (-2))
              (new_Downloadr {| opt_url := "http://h/f";
                                opt_outputPath := "f";
                                opt_chunkCount := None;
                                opt_highWaterMark := None |}))
           10 (-2) 1000 ltac:(lia) ltac:(lia) eq_refl).
Defined.

(** ** Decimal strings *)

Lemma span_digits_all (s d t : string) :
  Str.span_digits s = (d, t) → all_digits d = true.
Proof.
  revert d t. induction s as [|c r IH]; intros d t; simpl.
  - by intros [= <- <-].
  - destruct (Str.is_digit c) eqn:Hc; [|by intros [= <- <-]].
    destruct (Str.span_digits r) as [d' t']. intros [= <- <-]. simpl.
    rewrite Hc. by eapply IH.
Qed.

Lemma span_digits_app (d t : string) :
  all_digits d = true → no_leading_digit t = true →
  Str.span_digits (d +:+ t) = (d, t).
Proof.
  intros Hd Ht. induction d as [|c r IH].
  - destruct t as [|c t]; [done|].
    change (negb (Str.is_digit c) = true) in Ht.
    apply negb_true_iff in Ht.
    change (Str.span_digits ("" +:+ String c t))
      with (if Str.is_digit c
            then let '(d, t0) := Str.span_digits t in (String c d, t0)
            else ("", String c t)).
    by rewrite Ht.
  - change (Str.is_digit c && all_digits r = true) in Hd.
    apply andb_true_iff in Hd as [Hc Hr].
    change (Str.span_digits (String c r +:+ t))
      with (if Str.is_digit c
            then let '(d, t0) := Str.span_digits (r +:+ t) in (String c d, t0)
            else ("", String c (r +:+ t))).
    by rewrite Hc, IH.
Qed.

Lemma decimal_value_nonneg (d : string) (acc : Z) :
  0 ≤ acc → all_digits d = true → 0 ≤ Str.decimal_value acc d.
Proof.
  revert acc. induction d as [|c r IH]; intros acc Hacc Hd; simpl in *; [done|].
  apply andb_true_iff in Hd as [Hc Hr]. apply IH; [|done].
  unfold Str.is_digit in Hc. apply andb_true_iff in Hc as [Hlo _].
  apply N.leb_le in Hlo. unfold Str.digit_value. lia.
Qed.

Lemma digit_not_space (c : ascii) :
  Str.is_digit c = true → Str.is_white_space c = false.
Proof.
  unfold Str.is_digit, Str.is_white_space.
  intros [Hlo Hhi]%andb_true_iff. apply N.leb_le in Hlo, Hhi.
  apply bool_decide_eq_false. set (n := Str.code c) in *.
  rewrite !elem_of_cons, elem_of_nil. lia.
Qed.

Lemma append_empty (s : string) : s +:+ "" = s.
Proof.
  induction s as [|a s IH]; [done|].
  change (String a (s +:+ "") = String a s). by rewrite IH.
Qed.

(** On a non-empty string of digits [parseInt] is the double nearest to the
    decimal value. *)
Lemma parseInt_digits (d : string) :
  d ≠ "" → all_digits d = true →
  Str.parseInt d = JS.round (Str.decimal_value 0 d).
Proof.
  intros Hne Hd. destruct d as [|c r]; [done|]. clear Hne.
  pose proof Hd as Hd'. simpl in Hd'. apply andb_true_iff in Hd' as [Hc Hr].
  unfold Str.parseInt. simpl Str.trim_start. rewrite (digit_not_space c Hc).
  assert (Str.span_digits (String c r) = (String c r, "")) as Hspan.
  { pose proof (span_digits_app (String c r) "" Hd eq_refl) as H.
    by rewrite append_empty in H. }
  assert (c ≠ "-"%char ∧ c ≠ "+"%char) as [Hm Hp].
  { split; intros ->; done. }
  assert ((let '(sign, s2) :=
             match String c r with
             | String "-"%char r' => (-1, r')
             | String "+"%char r' => (1, r')
             | _ => (1, String c r)
             end in
           let '(d, _) := Str.span_digits s2 in
           match d with
           | "" => NaN
           | String _ _ => JS.round (sign * Str.decimal_value 0 d)
           end) = JS.round (Str.decimal_value 0 (String c r))) as H; [|exact H].
  clear Hd Hr. revert Hc Hm Hp Hspan.
  destruct c as [[] [] [] [] [] [] [] []]; try done;
    intros _ _ _ ->; f_equal; lia.
Qed.

Lemma digits1_all (s d t : string) :
  Str.digits1 s = Some (d, t) → d ≠ "" ∧ all_digits d = true.
Proof.
  unfold Str.digits1. destruct (Str.span_digits s) as [d' t'] eqn:Hspan.
  destruct d' as [|c r]; [done|]. intros [= <- <-].
  split; [done|]. by eapply span_digits_all.
Qed.

Lemma content_range_here_all (s total : string) :
  Str.content_range_here s = Some total →
  total ≠ "" ∧ all_digits total = true.
Proof.
  unfold Str.content_range_here.
  intros (s1 & _ & H)%bind_Some.
  apply bind_Some in H as ([d1 s2] & _ & H).
  apply bind_Some in H as (s3 & _ & H).
  apply bind_Some in H as ([d2 s4] & _ & H).
  apply bind_Some in H as (s5 & _ & H).
  apply bind_Some in H as ([d3 s6] & H3 & [= <-]).
  by eapply digits1_all.
Qed.

Lemma match_content_range_all (s total : string) :
  Str.match_content_range s = Some total →
  total ≠ "" ∧ all_digits total = true.
Proof.
  induction s as [|c r IH].
  - done.
  - change (Str.match_content_range (String c r))
      with (match Str.content_range_here (String c r) with
            | Some t => Some t
            | None => Str.match_content_range r
            end).
    destruct (Str.content_range_here (String c r)) eqn:H; [|exact IH].
    intros [= <-]. by eapply content_range_here_all.
Qed.

(** ** Sizes read from Content-Range *)

(** X4.  Whenever the Content-Range header matches the pattern, the size
    [getFileSize] resolves with is the double nearest to the total written
    in the header: a non-negative integer or [Infinity], never NaN and never
    the unknown size [-1], whatever else the header value and the other
    headers contain; and it is the total itself when that is at most
    2^53. *)
Theorem getFileSize_range_size (d : Downloadr) (hs : headers) (cr total : string) :
  hs !! "content-range" = Some cr →
  Str.match_content_range cr = Some total →
  let size := (getFileSize_response d hs).1 in
  size = JS.round (Str.decimal_value 0 total)
  ∧ ((∃ n, 0 ≤ n ∧ size = Int n) ∨ size = Infinity)
  ∧ (Str.decimal_value 0 total ≤ 2 ^ 53 →
     size = Int (Str.decimal_value 0 total)).
Proof.
  intros Hcr Hm size.
  destruct (match_content_range_all cr total Hm) as [Hne Hd].
  pose proof (decimal_value_nonneg total 0 ltac:(lia) Hd) as Hv.
  assert (size = JS.round (Str.decimal_value 0 total)) as Hsize.
  { unfold size, getFileSize_response. rewrite Hcr.
    destruct cr as [|c r]; [done|].
    change (Str.truthy (Some (String c r))) with true. cbv iota.
    change (default "" (Some (String c r))) with (String c r). rewrite Hm.
    by apply parseInt_digits. }
  split; [done|]. rewrite Hsize. split.
  - pose proof (round_pos_nonneg _ Hv) as Hr. unfold JS.round.
    destruct (Z.leb_spec 0 (Str.decimal_value 0 total)); [|lia].
    destruct (round_pos _) as [n| | |]; try done; [|by right].
    left. by exists n.
  - intros Hle. apply round_exact.
    assert (0 < 2 ^ 53) by done. lia.
Qed.

Lemma getFileSize_range_size_witness :
  (getFileSize_response
     (new_Downloadr {| opt_url := "http://h/f"; opt_outputPath := "f";
                       opt_chunkCount := None;
                       opt_highWaterMark := None |})
     (<["content-range" := "xbytes 5-9/0042;"]>
        {["content-length" := "7"]})).1
  = JS.round (Str.decimal_value 0 "0042").
Proof.
  exact (proj1 (getFileSize_range_size
           (new_Downloadr {| opt_url := "http://h/f"; opt_outputPath := "f";
                             opt_chunkCount := None;
                             opt_highWaterMark := None |})
           (<["content-range" := "xbytes 5-9/0042;"]>
              {["content-length" := "7"]})
           "xbytes 5-9/0042;" "0042" eq_refl eq_refl)).
Defined.

(** ** Printing and parsing decimals *)

Lemma string_of_uint_all (u : Decimal.uint) :
  all_digits (NilEmpty.string_of_uint u) = true.
Proof. induction u; simpl; done. Qed.

Lemma decimal_value_uint_acc (u : Decimal.uint) (acc : positive) :
  Str.decimal_value (Z.pos acc) (NilEmpty.string_of_uint u)
  = Z.pos (Pos.of_uint_acc u acc).
Proof.
  revert acc. induction u; intros acc; simpl; [done|..];
    rewrite <- IHu; f_equal; unfold Str.digit_value; simpl; lia.
Qed.

Lemma decimal_value_uint (u : Decimal.uint) :
  Str.decimal_value 0 (NilEmpty.string_of_uint u) = Z.of_N (Pos.of_uint u).
Proof.
  induction u; simpl; [done|exact IHu|..];
    unfold Str.digit_value; simpl; apply decimal_value_uint_acc.
Qed.

Lemma digits_pos (p : positive) :
  digits (Z.pos p) = NilEmpty.string_of_uint (Pos.to_uint p)
  ∧ NilEmpty.string_of_uint (Pos.to_uint p) ≠ ""
  ∧ Str.decimal_value 0 (NilEmpty.string_of_uint (Pos.to_uint p)) = Z.pos p.
Proof.
  pose proof (DecimalPos.Unsigned.to_uint_nonnil p) as Hnil.
  split; [|split].
  - unfold digits. simpl. by destruct (Pos.to_uint p).
  - by destruct (Pos.to_uint p).
  - by rewrite decimal_value_uint, DecimalPos.Unsigned.of_to.
Qed.

(** The decimal digits of a non-negative integer: digits only, not empty,
    and with that integer as value. *)
Lemma digits_nonneg (n : Z) :
  0 ≤ n →
  digits n ≠ "" ∧ all_digits (digits n) = true
  ∧ Str.decimal_value 0 (digits n) = n.
Proof.
  intros Hn. destruct n as [|p|p]; [done| |lia].
  destruct (digits_pos p) as (-> & Hne & Hval).
  split; [done|]. split; [apply string_of_uint_all|done].
Qed.

(** Up to 2^53 every digit of an integer is printed. *)
Lemma toString_safe (n : Z) :
  Z.abs n ≤ 2 ^ 53 → JS.toString (Int n) = digits n.
Proof.
  intros Hn. unfold JS.toString.
  by destruct (Z.leb_spec (Z.abs n) (2 ^ 53)); [|lia].
Qed.

(** [parseInt] reads back every non-negative integer up to 2^53 from its
    decimal text. *)
Lemma parseInt_toString (n : Z) :
  0 ≤ n ≤ 2 ^ 53 → Str.parseInt (JS.toString (Int n)) = Int n.
Proof.
  intros Hn. rewrite toString_safe by lia.
  destruct (digits_nonneg n ltac:(lia)) as (Hne & Hd & Hval).
  rewrite parseInt_digits, Hval by done. apply round_exact.
  assert (0 < 2 ^ 53) by done. lia.
Qed.

Lemma strip_prefix_app (p s : string) : Str.strip_prefix p (p +:+ s) = Some s.
Proof.
  induction p as [|a p IH]; [by destruct s|].
  change (Str.strip_prefix (String a p) (String a p +:+ s))
    with (if bool_decide (a = a) then Str.strip_prefix p (p +:+ s) else None).
  by rewrite bool_decide_true.
Qed.

Lemma digits1_app (d t : string) :
  d ≠ "" → all_digits d = true → no_leading_digit t = true →
  Str.digits1 (d +:+ t) = Some (d, t).
Proof.
  intros Hne Hd Ht. unfold Str.digits1. rewrite span_digits_app by done.
  by destruct d.
Qed.

Lemma match_content_range_here (s total : string) :
  Str.content_range_here s = Some total →
  Str.match_content_range s = Some total.
Proof.
  intros H. destruct s as [|c r]; [done|].
  change (Str.match_content_range (String c r))
    with (match Str.content_range_here (String c r) with
          | Some t => Some t
          | None => Str.match_content_range r
          end).
  by rewrite H.
Qed.

Lemma getFileSize_response_range (d : Downloadr) (hs : headers)
    (cr total : string) :
  hs !! "content-range" = Some cr →
  Str.match_content_range cr = Some total →
  getFileSize_response d hs
  = (Str.parseInt total,
     set_chunkCount (resolveChunkCount (Str.parseInt total)) d).
Proof.
  intros Hcr Hm. unfold getFileSize_response. rewrite Hcr.
  destruct cr as [|c r]; [done|].
  change (Str.truthy (Some (String c r))) with true. cbv iota.
  change (default "" (Some (String c r))) with (String c r). by rewrite Hm.
Qed.

(** ** Sizes printed in decimal are read back *)

(** X5.  A probe response whose Content-Range is [bytes <s>-<e>/<n>], with
    the three integers from 0 to [Number.MAX_SAFE_INTEGER] in decimal, makes
    [getFileSize] resolve with [n], whatever the other headers; and without
    a Content-Range, a Content-Length holding the decimal text of such an
    [n] makes it resolve with [n].  In both cases the chunk count becomes
    the policy value of [n]. *)
Theorem getFileSize_reads_decimal (d : Downloadr) (hs : headers) :
  (∀ s e n,
     0 ≤ s ≤ MAX_SAFE_INTEGER → 0 ≤ e ≤ MAX_SAFE_INTEGER →
     0 ≤ n ≤ MAX_SAFE_INTEGER →
     hs !! "content-range"
     = Some ("bytes " +:+ JS.toString (Int s) +:+ "-" +:+ JS.toString (Int e)
             +:+ "/" +:+ JS.toString (Int n)) →
     getFileSize_response d hs
     = (Int n, set_chunkCount (resolveChunkCount (Int n)) d))
  ∧ (∀ n,
       0 ≤ n ≤ MAX_SAFE_INTEGER →
       hs !! "content-range" = None →
       hs !! "content-length" = Some (JS.toString (Int n)) →
       getFileSize_response d hs
       = (Int n, set_chunkCount (resolveChunkCount (Int n)) d)).
Proof.
  rewrite safe_bound. split.
  - intros s e n Hs He Hn Hcr.
    rewrite (toString_safe s), (toString_safe e), (toString_safe n)
      in Hcr by lia.
    destruct (digits_nonneg s (proj1 Hs)) as (Hs1 & Hs2 & _).
    destruct (digits_nonneg e (proj1 He)) as (He1 & He2 & _).
    destruct (digits_nonneg n (proj1 Hn)) as (Hn1 & Hn2 & Hn3).
    assert (Str.match_content_range
              ("bytes " +:+ digits s +:+ "-" +:+ digits e +:+ "/" +:+ digits n)
            = Some (digits n)) as Hm.
    { apply match_content_range_here. unfold Str.content_range_here.
      rewrite strip_prefix_app. cbn [mbind option_bind].
      rewrite digits1_app by done. cbn [mbind option_bind].
      rewrite strip_prefix_app. cbn [mbind option_bind].
      rewrite digits1_app by done. cbn [mbind option_bind].
      rewrite strip_prefix_app. cbn [mbind option_bind].
      rewrite <- (append_empty (digits n)) at 1.
      rewrite digits1_app by done. done. }
    rewrite (getFileSize_response_range d hs _ _ Hcr Hm).
    rewrite <- (toString_safe n) by lia.
    by rewrite parseInt_toString by lia.
  - intros n Hn Hcr Hcl. unfold getFileSize_response. rewrite Hcr, Hcl.
    assert (Str.truthy (Some (JS.toString (Int n))) = true) as Ht.
    { apply truthy_Some. rewrite toString_safe by lia.
      by destruct (digits_nonneg n (proj1 Hn)). }
    change (Str.truthy None) with false. cbv iota. rewrite Ht.
    change (default "" (Some (JS.toString (Int n)))) with (JS.toString (Int n)).
    by rewrite parseInt_toString by lia.
Qed.

Lemma getFileSize_reads_decimal_witness :
  getFileSize_response
    (new_Downloadr {| opt_url := "http://h/f"; opt_outputPath := "f";
                      opt_chunkCount := None; opt_highWaterMark := None |})
    {["content-range" := "bytes 0-0/314572800"]}
  = (Int 314572800,
     set_chunkCount (resolveChunkCount (Int 314572800))
       (new_Downloadr {| opt_url := "http://h/f"; opt_outputPath := "f";
                         opt_chunkCount := None; opt_highWaterMark := None |})).
Proof.
  apply (proj1 (getFileSize_reads_decimal
                  (new_Downloadr {| opt_url := "http://h/f";
                                    opt_outputPath := "f";
                                    opt_chunkCount := None;
                                    opt_highWaterMark := None |})
                  {["content-range" := "bytes 0-0/314572800"]})
           0 0 314572800); [by vm_compute..|].
  vm_compute. reflexivity.
Defined.

(** ** The end of a run *)

Lemma terminal_app (t u : list action) :
  terminal (t ++ u) = terminal t ++ terminal u.
Proof. apply omap_app. Qed.

Lemma terminal_activity (l : list action) :
  Forall (λ a, is_activity a = true) l → terminal l = [].
Proof.
  induction 1 as [|a l Ha _ IH]; [done|].
  destruct a as [[]| | | | | | | |]; try done; exact IH.
Qed.

Lemma terminal_quiet (l : list action) :
  Forall (λ a, is_setup a = true ∨ ∃ k r, a = Get k r) l → terminal l = [].
Proof.
  induction 1 as [|a l Ha _ IH]; [done|].
  destruct Ha as [Ha|(k & r & ->)]; [|exact IH].
  destruct a; try done; exact IH.
Qed.

Lemma launch_quiet (chunks : list Chunk) : terminal (launch_all chunks).2 = [].
Proof.
  apply terminal_quiet, Forall_forall. unfold launch_all. simpl.
  intros a (k & c & -> & _)%elem_of_lookup_imap. right. by eexists _, _.
Qed.

Lemma preallocate_quiet env size f :
  terminal (preallocate env size f).1.1 = [].
Proof.
  unfold preallocate. destruct (open_result env); [done|].
  by destruct (ftruncate_outcome env size).
Qed.

Lemma terminal_resume (env : Env) (s : state) :
  terminal (trace s) = outcome_events (pc s) →
  terminal (trace (resume env s)) = outcome_events (pc (resume env s)).
Proof.
  intros HT. unfold resume.
  assert (∀ p, pc s = AtDownloadChunk ∨ pc s = AtPromiseAll →
               terminal (trace (finish p s)) = outcome_events (pc (finish p s)))
    as Hfinish.
  { intros p Hpc. assert (terminal (trace s) = []) as Hnil
      by (destruct Hpc as [Hpc|Hpc]; by rewrite Hpc in HT).
    destruct p as [|[]|e]; simpl; [by rewrite HT|..];
      by rewrite terminal_app, Hnil. }
  destruct (pc s) eqn:Hpc; try (by rewrite Hpc).
  - destruct (sizeP s) as [|size|e]; [by rewrite Hpc| |].
    + unfold after_size. destruct (whole_file_mode size (this s)).
      * simpl. by rewrite terminal_app, HT.
      * pose proof (preallocate_quiet env size (file s)) as Hq.
        destruct (preallocate env size (file s)) as [[calls f'] [err|]];
          simpl in Hq.
        -- simpl. rewrite !terminal_app, HT. simpl. by rewrite Hq.
        -- cbv zeta. destruct (getChunks _ _ _) as [chunks|].
           ++ pose proof (launch_quiet chunks) as Hl.
              destruct (launch_all chunks) as [fs gs]. simpl in *.
              rewrite !terminal_app, HT. simpl. by rewrite Hq, Hl.
           ++ simpl. rewrite terminal_app, HT. simpl. by rewrite Hq.
    + simpl. by rewrite terminal_app, HT.
  - destruct (fetches s !! 0%nat) as [f|]; [|by rewrite Hpc].
    apply Hfinish. by left.
  - apply Hfinish. by right.
Qed.

Lemma terminal_handle (env : Env) (x : stimulus) (s : state) :
  terminal (trace s) = outcome_events (pc s) →
  terminal (trace (handle env x s)) = outcome_events (pc (handle env x s)).
Proof.
  intros HT.
  destruct (handle_cases env x s)
    as [->|[[_ [hs ->]]|[[_ [err ->]]|[(k & f & r & _ & [Hact _] & ->)
       |[->|[[k ->]|(k & err & ->)]]]]]];
    try done.
  - simpl. by rewrite terminal_app, (terminal_activity _ Hact), app_nil_r.
  - by apply terminal_resume.
  - destruct (written_out_quiet k s) as (_ & _ & _ & _ & -> & -> & _). done.
  - destruct (stream_error_quiet k err s) as (_ & _ & _ & _ & -> & -> & _).
    done.
Qed.

Lemma settled_handle (env : Env) (x : stimulus) (s : state) :
  settled (pc s) = true → pc (handle env x s) = pc s.
Proof.
  intros Hs.
  destruct (handle_cases env x s)
    as [->|[[_ [hs ->]]|[[_ [err ->]]|[(k & f & r & _ & _ & ->)
       |[->|[[k ->]|(k & err & ->)]]]]]];
    try done.
  - unfold resume. by destruct (pc s) eqn:Hpc.
  - by destruct (written_out_quiet k s) as (_ & _ & _ & _ & -> & _).
  - by destruct (stream_error_quiet k err s) as (_ & _ & _ & _ & -> & _).
Qed.

(** X6.  In every run the terminal events emitted are exactly those of the
    outcome: none while [download] is pending, DOWNLOAD_COMPLETE alone once
    it has returned, and DOWNLOAD_FAILED alone, carrying the error thrown,
    once it has thrown; so the two never occur together and neither occurs
    twice.  Once [download] has returned or thrown, no later callback changes
    that outcome. *)
Theorem download_outcome (env : Env) (d : Downloadr) (file0 : file_content)
    (schedule : list stimulus) :
  let s := run env d file0 schedule in
  terminal (trace s) = outcome_events (pc s)
  ∧ ∀ later, settled (pc s) = true → pc (run_from env s later) = pc s.
Proof.
  split.
  - unfold run. generalize (download d file0) (eq_refl : terminal (trace (download d file0)) = outcome_events (pc (download d file0))).
    induction schedule as [|x rest IH]; intros s HT; [done|].
    simpl. destruct (crashed s); [done|]. by apply IH, terminal_handle.
  - generalize (run env d file0 schedule). intros s later. revert s.
    induction later as [|x rest IH]; intros s Hs; [done|].
    simpl. destruct (crashed s); [done|].
    pose proof (settled_handle env x s Hs) as Hpc.
    rewrite IH; [done|]. by rewrite Hpc.
Qed.

Lemma download_outcome_witness :
  pc (run_from no_faults
        (run no_faults
           (new_Downloadr {| opt_url := "http://h/f"; opt_outputPath := "f";
                             opt_chunkCount := None;
                             opt_highWaterMark := None |})
           None
           [ProbeResponse ∅; Tick; FetchResponse 0 (Int 404); Tick])
        [FetchReqError 0 (External "ECONNRESET"); Tick])
  = pc (run no_faults
          (new_Downloadr {| opt_url := "http://h/f"; opt_outputPath := "f";
                            opt_chunkCount := None;
                            opt_highWaterMark := None |})
          None
          [ProbeResponse ∅; Tick; FetchResponse 0 (Int 404); Tick]).
Proof.
  apply (proj2 (download_outcome no_faults
                  (new_Downloadr {| opt_url := "http://h/f";
                                    opt_outputPath := "f";
                                    opt_chunkCount := None;
                                    opt_highWaterMark := None |})
                  None
                  [ProbeResponse ∅; Tick; FetchResponse 0 (Int 404); Tick])).
  vm_compute. reflexivity.
Defined.

(** ** The [chunkCount] option *)

Lemma getFileSize_response_count (n : number) (d : Downloadr) (hs : headers) :
  getFileSize_response (set_chunkCount n d) hs = getFileSize_response d hs.
Proof.
  unfold getFileSize_response.
  destruct (if Str.truthy _ then _ else _); [done|].
  by destruct (Str.truthy (hs !! "content-length")).
Qed.

(** Until the size is known, a callback does the same whatever the chunk
    count of the instance; and the callback that makes the size known
    overwrites the chunk count. *)
Lemma handle_with_count (env : Env) (x : stimulus) (s : state) (n : number) :
  (∀ size, sizeP s ≠ Fulfilled size) →
  (handle env x (with_count n s) = with_count n (handle env x s)
   ∧ ∀ size, sizeP (handle env x s) ≠ Fulfilled size)
  ∨ handle env x (with_count n s) = handle env x s.
Proof.
  intros Hsize.
  assert (∀ k h, on_fetch k h (with_count n s) = with_count n (on_fetch k h s)
                 ∧ ∀ size, sizeP (on_fetch k h s) ≠ Fulfilled size) as Hfetch.
  { intros k h. unfold on_fetch. simpl.
    destruct (fetches s !! k) as [f|]; [|done].
    by destruct (h f) as [r|]. }
  destruct x as [hs|err|k status|k chunk|k|k err|k err|k|k err|]; simpl;
    try (left; apply Hfetch).
  - destruct (sizeP s) as [|size|e] eqn:Hp; [|by destruct (Hsize size)|].
    + right. rewrite getFileSize_response_count.
      by destruct (getFileSize_response (this s) hs).
    + left. split; [done|]. simpl. by rewrite Hp.
  - left. split; [done|]. simpl. by destruct (sizeP s).
  - left. unfold written_out. simpl.
    destruct (file s); [|done]. by destruct (queue s k) as [|[pos data] rest].
  - left. unfold stream_error. simpl.
    by destruct (f_res <$> fetches s !! k) as [[]|].
  - left. unfold resume. simpl.
    destruct (pc s); try done.
    + destruct (sizeP s) as [|size|e] eqn:Hp; [by rewrite Hp| |].
      * by destruct (Hsize size).
      * split; [done|]. simpl. by rewrite Hp.
    + destruct (fetches s !! 0%nat) as [f|]; [|done].
      by destruct (f_promise f) as [|[]|].
    + by destruct (allP s) as [|[]|].
Qed.

Lemma run_from_with_count (env : Env) (schedule : list stimulus) (s : state)
    (n : number) :
  (∀ size, sizeP s ≠ Fulfilled size) →
  observable (run_from env (with_count n s) schedule)
  = observable (run_from env s schedule).
Proof.
  revert s. induction schedule as [|x rest IH]; intros s Hsize; [done|].
  simpl. destruct (crashed s); [done|].
  destruct (handle_with_count env x s n Hsize) as [[-> Hsize']| ->].
  - by apply IH.
  - done.
Qed.

(** X7.  The [chunkCount] option of the constructor has no effect on a run of
    [download]: two instances that differ in that option only issue the same
    requests and file operations, emit the same events and end the same way,
    under every schedule of callbacks. *)
Theorem download_ignores_chunkCount (env : Env) (o : DownloadrOptions)
    (count : option number) (file0 : file_content) (schedule : list stimulus) :
  let s1 := run env (new_Downloadr o) file0 schedule in
  let s2 := run env
              (new_Downloadr {| opt_url := opt_url o;
                                opt_outputPath := opt_outputPath o;
                                opt_chunkCount := count;
                                opt_highWaterMark := opt_highWaterMark o |})
              file0 schedule in
  trace s2 = trace s1 ∧ pc s2 = pc s1 ∧ fetches s2 = fetches s1
  ∧ file s2 = file s1.
Proof.
  intros s1 s2.
  assert (observable s2 = observable s1) as Hobs.
  { apply (run_from_with_count env schedule (download (new_Downloadr o) file0)
             (default CHUNK_COUNT count)). done. }
  unfold observable in Hobs. by injection Hobs as _ -> _ -> -> -> _ _.
Qed.

(** ** The fetches of a multi-chunk run *)

Lemma ranges_of_insert (l : list fetch) (k : nat) (f f' : fetch) :
  l !! k = Some f → f_start f' = f_start f → f_end f' = f_end f →
  ranges_of (<[k := f']> l) = ranges_of l.
Proof.
  intros Hk Hs He. unfold ranges_of. apply list_eq. intros j.
  rewrite !list_lookup_fmap.
  destruct (decide (j = k)) as [->|Hne].
  - rewrite list_lookup_insert_eq by (by eapply lookup_lt_Some).
    rewrite Hk. simpl. by rewrite Hs, He.
  - by rewrite list_lookup_insert_ne.
Qed.

Lemma launch_ranges (chunks : list Chunk) :
  ranges_of (launch_all chunks).1 = (λ c, (start c, end_ c)) <$> chunks.
Proof.
  unfold ranges_of, launch_all. simpl. apply list_eq. intros j.
  rewrite !list_lookup_fmap, list_lookup_imap.
  by destruct (chunks !! j).
Qed.

Lemma Inv_pending (s : state) : Inv s → sizeP s = Pending → fetches s = [].
Proof.
  intros [[Hnil _]|(size & Hsize & _)] Hp; [done|congruence].
Qed.

Lemma Inv_waiting (s : state) : Inv s → pc s = AtGetFileSize → fetches s = [].
Proof.
  intros [[Hnil _]|(size & _ & _ & _ & _ & _ & _ & Hpc)] Hat; [done|].
  by rewrite Hat in Hpc.
Qed.

Lemma planned_resume (env : Env) (s : state) :
  Inv s → planned s → planned (resume env s).
Proof.
  intros HI HP. unfold resume.
  assert (∀ p, planned (finish p s)) as Hfinish
    by (by intros [|[]|e]).
  assert (∀ s', this s' = this s → sizeP s' = sizeP s → fetches s' = [] →
                planned s') as Hkeep.
  { intros s' Hthis Hsize Hnil. destruct HP as [Hpol _].
    split; [by rewrite Hthis, Hsize|]. by rewrite Hnil. }
  destruct (pc s) eqn:Hpc; try done.
  - pose proof (Inv_waiting s HI Hpc) as Hnil.
    destruct (sizeP s) as [|size|e] eqn:Hsize;
      [done| |by apply Hkeep].
    unfold after_size. destruct (whole_file_mode size (this s)) eqn:Hmode.
    + destruct HP as [Hpol _]. split; simpl; [done|].
      intros size' Hs'. assert (size' = size) as -> by congruence.
      by rewrite Hmode.
    + destruct (preallocate env size (file s)) as [[calls f'] [err|]] eqn:Hpre;
        [by apply Hkeep|].
      apply preallocate_done in Hpre as (z & c & -> & [_ Hmax] & _).
      cbv zeta. change (this (set_file _ _)) with (this s).
      destruct (getChunks _ _ _) as [chunks|] eqn:Hchunks;
        [|by apply Hkeep].
      pose proof (launch_ranges chunks) as Hr.
      destruct (launch_all chunks) as [fs gs]. simpl in Hr.
      destruct HP as [Hpol _]. split; simpl; [done|].
      intros size' Hs' _ _.
      assert (size' = Int z) as -> by congruence.
      split; [done|]. by exists chunks.
  - by destruct (fetches s !! 0%nat).
Qed.

Lemma planned_handle (env : Env) (x : stimulus) (s : state) :
  Inv s → planned s → planned (handle env x s).
Proof.
  intros HI HP.
  destruct (handle_cases env x s)
    as [->|[[Hp [hs ->]]|[[Hp [err ->]]|[(k & f & r & Hk & _ & ->)
       |[->|[[k ->]|(k & err & ->)]]]]]].
  - done.
  - pose proof (Inv_pending s HI Hp) as Hnil. split; simpl.
    + intros size [= <-]. apply getFileSize_response_policy.
    + intros size _ _ Hne. by rewrite Hnil in Hne.
  - split; simpl; by intros size [=].
  - destruct HP as [Hpol Hplan]. split; simpl; [done|].
    intros size Hsize Hmode Hne.
    rewrite (ranges_of_insert _ _ f) by done.
    apply Hplan; [done..|]. intros Hnil. by rewrite Hnil in Hk.
  - by apply planned_resume.
  - destruct (written_out_quiet k s) as (Ht & Hs & Hf & _).
    unfold planned. by rewrite Ht, Hs, Hf.
  - destruct (stream_error_quiet k err s) as (Ht & Hs & Hf & _).
    unfold planned. by rewrite Ht, Hs, Hf.
Qed.

Lemma planned_run env d file0 schedule : planned (run env d file0 schedule).
Proof.
  unfold run.
  assert (Inv (download d file0) ∧ planned (download d file0)) as H.
  { split; [apply Inv_download|]. by split. }
  revert H. generalize (download d file0).
  induction schedule as [|x rest IH]; intros s [HI HP]; [done|].
  simpl. destruct (crashed s); [done|].
  apply IH. split; [by apply Inv_handle|by apply planned_handle].
Qed.

(** With the chunk count of the policy, the sizes fetched whole are those
    up to 100 MiB. *)
Lemma whole_file_mode_threshold (d : Downloadr) (z : Z) :
  chunkCount d = resolveChunkCount (Int z) →
  whole_file_mode (Int z) d = (z <=? 104857600).
Proof.
  intros Hd. unfold whole_file_mode. rewrite Hd. unfold resolveChunkCount.
  change (100 * 1024 * 1024) with 104857600.
  change (JS.lt (Int z) (Int 104857600)) with (z <? 104857600).
  destruct (Z.ltb_spec z 104857600) as [Hlt|Hge].
  - rewrite orb_true_r. symmetry. apply Z.leb_le. lia.
  - destruct (Z.leb_spec z 104857600) as [Hle|Hgt].
    + assert (z = 104857600) as -> by lia. done.
    + destruct (ceil_div_above z 104857600) as (c & -> & Hc); [done|lia|].
      apply orb_false_iff. split; apply Z.eqb_neq; lia.
Qed.

(** The fetches of a multi-chunk run, as [getChunks] planned them. *)
Lemma planned_ranges (s : state) (z : Z) :
  planned s → sizeP s = Fulfilled (Int z) →
  whole_file_mode (Int z) (this s) = false → fetches s ≠ [] →
  let cc := ceil_divZ z 104857600 in
  let cs := ceil_divZ z cc in
  104857600 < z ≤ MAX_SAFE_INTEGER ∧ 2 ≤ cc ∧ 1 ≤ cs ≤ 104857600
  ∧ Z.of_nat (length (fetches s)) = cc
  ∧ ∀ k f, fetches s !! k = Some f →
      f_start f = Int (Z.of_nat k * cs)
      ∧ f_end f = Int (Z.min (Z.of_nat k * cs + cs - 1) (z - 1)).
Proof.
  intros [Hpol Hplan] Hsize Hmode Hne cc cs.
  specialize (Hpol (Int z) Hsize).
  pose proof (whole_file_mode_threshold (this s) z Hpol) as Hmode'.
  rewrite Hmode in Hmode'. symmetry in Hmode'.
  destruct (Z.leb_spec z 104857600); [done|].
  destruct (Hplan (Int z) Hsize Hmode Hne)
    as (Hmax & chunks & Hchunks & Hranges).
  unfold at_most in Hmax. pose proof Hmax as Hmax'.
  rewrite safe_bound in Hmax'.
  pose proof (ceil_divZ_bounds z 104857600 ltac:(lia)) as [Hlo Hhi].
  fold cc in Hlo, Hhi.
  assert (2 ≤ cc) as Hcc by nia.
  pose proof (ceil_divZ_bounds z cc ltac:(lia)) as [Hlo' Hhi'].
  fold cs in Hlo', Hhi'.
  assert (1 ≤ cs) as Hcs by nia.
  pose proof (ceil_divZ_bounds z cs ltac:(lia)) as [Hlo'' Hhi''].
  assert (cs ≤ 104857600) as HcsM by nia.
  assert (ceil_divZ z cs = cc) as Hn.
  { set (n := ceil_divZ z cs) in *.
    assert (n - 1 < cc)
      by (apply (Z.mul_lt_mono_pos_r cs); lia).
    assert (1 ≤ n) by nia.
    assert (n * cs ≤ n * 104857600) by nia.
    assert (cc - 1 < n)
      by (apply (Z.mul_lt_mono_pos_r 104857600); lia).
    lia. }
  assert (chunkCount (this s) = Int cc) as Hcnt.
  { rewrite Hpol, resolveChunkCount_safe by done.
    by destruct (Z.ltb_spec z 104857600); [lia|]. }
  rewrite Hcnt, (ceil_div_exact z cc) in Hchunks by lia.
  fold cs in Hchunks. unfold getChunks_fuel in Hchunks.
  destruct (Z.ltb_spec 0 cs); [|lia]. rewrite Hn in Hchunks.
  rewrite (getChunks_closed_form (this s) z cc) in Hchunks;
    [|lia|lia|done|fold cs; lia].
  fold cs in Hchunks. rewrite Hn in Hchunks. injection Hchunks as <-.
  split; [lia|]. split; [done|]. split; [done|]. split.
  - apply (f_equal length) in Hranges. unfold ranges_of in Hranges.
    rewrite !length_fmap, length_seq in Hranges. lia.
  - intros k f Hk.
    assert (ranges_of (fetches s) !! k = Some (f_start f, f_end f)) as Hr
      by (unfold ranges_of; by rewrite list_lookup_fmap, Hk).
    rewrite Hranges, !list_lookup_fmap in Hr.
    destruct (seq 0 (Z.to_nat cc) !! k) as [j|] eqn:Hj; [|done].
    apply lookup_seq in Hj as [-> _]. simpl in Hr.
    by injection Hr as -> ->.
Qed.

(** X8.  The sizes up to 100 MiB (104857600 bytes), that size included, are
    fetched whole: the only fetch of the run is [(0, Infinity)].  A larger
    size [z] is fetched in exactly [cc = ceil (z / 104857600)] ranges, at
    least two; fetch [k] has the range from [k * cs] to
    [min (k * cs + cs - 1, z - 1)], where the step [cs = ceil (z / cc)] is at
    most 104857600. *)
Theorem download_plan (env : Env) (d : Downloadr) (file0 : file_content)
    (schedule : list stimulus) :
  let s := run env d file0 schedule in
  ∀ z, sizeP s = Fulfilled (Int z) →
    (z ≤ 104857600 → pc s ≠ AtGetFileSize →
     ranges_of (fetches s) = [(Int 0, Infinity)])
    ∧ (104857600 < z → fetches s ≠ [] →
       let cc := ceil_divZ z 104857600 in
       let cs := ceil_divZ z cc in
       2 ≤ cc ∧ cs ≤ 104857600
       ∧ Z.of_nat (length (fetches s)) = cc
       ∧ ∀ k f, fetches s !! k = Some f →
           f_start f = Int (Z.of_nat k * cs)
           ∧ f_end f = Int (Z.min (Z.of_nat k * cs + cs - 1) (z - 1))).
Proof.
  intros s z Hsize.
  pose proof (Inv_run env d file0 schedule) as HI. fold s in HI.
  pose proof (planned_run env d file0 schedule) as [Hpol' Hplan].
  fold s in Hpol', Hplan. pose proof (Hpol' (Int z) Hsize) as Hpol.
  pose proof (whole_file_mode_threshold (this s) z Hpol) as Hmode.
  split.
  - intros Hz Hpc. destruct (Z.leb_spec z 104857600); [|lia].
    destruct HI as [[_ Hshape]|(size & Hsize' & _ & _ & Hm & _)].
    + destruct (pc s); try done.
      destruct Hshape as [[? _]|(size & pre & ? & Hm & _)]; [congruence|].
      assert (size = Int z) as -> by congruence. congruence.
    + assert (size = Int z) as -> by congruence. rewrite Hmode in Hm.
      destruct Hm as (f & rest & -> & Hs & He & _). unfold ranges_of. simpl.
      by rewrite Hs, He.
  - intros Hz Hne cc cs. destruct (Z.leb_spec z 104857600); [lia|].
    destruct (planned_ranges s z (conj Hpol' Hplan) Hsize Hmode Hne)
      as (_ & Hcc & [_ Hcs] & Hlen & Hfetch).
    done.
Qed.

Lemma download_plan_witness :
  Z.of_nat (length (fetches
    (run no_faults
       (new_Downloadr {| opt_url := "http://h/f"; opt_outputPath := "f";
                         opt_chunkCount := Some (Int 5);
                         opt_highWaterMark := None |})
       None [ProbeResponse {["content-length" := "200000000"]}; Tick])))
  = 2.
Proof.
  assert (sizeP (run no_faults
                   (new_Downloadr {| opt_url := "http://h/f";
                                     opt_outputPath := "f";
                                     opt_chunkCount := Some (Int 5);
                                     opt_highWaterMark := None |})
                   None
                   [ProbeResponse {["content-length" := "200000000"]}; Tick])
          = Fulfilled (Int 200000000)) as Hsize by (vm_compute; reflexivity).
  apply (proj2 (download_plan no_faults _ None _ 200000000 Hsize)).
  - lia.
  - vm_compute. discriminate.
Defined.

(** ** Write streams and their queues *)

Lemma written_by_app (k : nat) (t u : list action) :
  written_by k (t ++ u) = written_by k t ++ written_by k u.
Proof. unfold written_by. by rewrite omap_app, concat_app. Qed.

Lemma written_by_quiet (k : nat) (l : list action) :
  Forall (λ a, ∀ j pos data, a ≠ Write j pos data) l → written_by k l = [].
Proof.
  induction 1 as [|a l Ha _ IH]; [done|].
  destruct a; try exact IH. by destruct (Ha k0 pos data).
Qed.

Lemma written_by_data (k j : nat) (pos : number) (data : list byte)
    (ev : event) :
  written_by j [Write k pos data; Emit ev] = if decide (k = j) then data else [].
Proof.
  unfold written_by. simpl. destruct (decide (k = j)); [|done].
  simpl. apply app_nil_r.
Qed.

(** Every callback, with the state of the response in which the listeners of
    [downloadChunk] exist. *)
Lemma handle_callbacks (env : Env) (x : stimulus) (s : state) :
  handle env x s = s
  ∨ (sizeP s = Pending
     ∧ fetches (handle env x s) = fetches s ∧ allP (handle env x s) = allP s
     ∧ pc (handle env x s) = pc s
     ∧ file (handle env x s) = file s ∧ queue (handle env x s) = queue s
     ∧ trace (handle env x s) = trace s)
  ∨ (∃ k f r, fetches s !! k = Some f ∧ callback_of k f r
              ∧ handle env x s = apply_reaction k f r s)
  ∨ handle env x s = resume env s
  ∨ (∃ k, handle env x s = written_out k s)
  ∨ (∃ k err, handle env x s = stream_error k err s).
Proof.
  assert (∀ k h, (∀ f r, h f = Some r → callback_of k f r) →
            on_fetch k h s = s
            ∨ ∃ k' f r, fetches s !! k' = Some f ∧ callback_of k' f r
                        ∧ on_fetch k h s = apply_reaction k' f r s) as Hfetch.
  { intros k h Hh. unfold on_fetch.
    destruct (fetches s !! k) as [f|] eqn:Hk; [|by left].
    destruct (h f) as [r|] eqn:Hr; [|by left].
    right. exists k, f, r. split; [done|]. split; [by apply Hh|done]. }
  destruct x as [hs|err|k status|k chunk|k|k err|k err|k|k err|]; simpl.
  - destruct (sizeP s) eqn:Hp; [|by left..].
    right. left. by destruct (getFileSize_response (this s) hs).
  - destruct (sizeP s) eqn:Hp; simpl.
    + right. left. done.
    + left. rewrite <- Hp. apply state_eta.
    + left. rewrite <- Hp. apply state_eta.
  - destruct (Hfetch k (λ f, match f_res f with
                             | Awaited => Some (on_response k f status)
                             | _ => None
                             end)) as [H|H]; [|by left|by do 2 right; left].
    intros f r. destruct (f_res f) eqn:Hres; intros [= <-].
    left. by exists status.
  - destruct (Hfetch k (λ f, match f_res f with
                             | Streaming pos => Some (on_data k f pos chunk)
                             | _ => None
                             end)) as [H|H]; [|by left|by do 2 right; left].
    intros f r. destruct (f_res f) eqn:Hres; intros [= <-].
    right. left. by eexists _, _.
  - destruct (Hfetch k (λ f, match f_res f with
                             | Streaming _ => Some (on_end f)
                             | _ => None
                             end)) as [H|H]; [|by left|by do 2 right; left].
    intros f r. destruct (f_res f) eqn:Hres; intros [= <-].
    do 2 right. left. by eexists.
  - destruct (Hfetch k (λ f, match f_res f with
                             | Streaming _ => Some (on_error f err)
                             | _ => None
                             end)) as [H|H]; [|by left|by do 2 right; left].
    intros f r. destruct (f_res f); intros [= <-]. do 3 right. by exists err.
  - destruct (Hfetch k (λ f, Some (on_error f err))) as [H|H];
      [|by left|by do 2 right; left].
    intros f r [= <-]. do 3 right. by exists err.
  - do 4 right. left. by exists k.
  - do 5 right. by exists k, err.
  - by do 3 right; left.
Qed.

(** What a callback of [downloadChunk] hands to the write stream: only the
    data listener writes, at the position of the stream, which it moves on
    by the length of the buffer. *)
Lemma callback_writes (k : nat) (f : fetch) (r : reaction) :
  callback_of k f r →
  (r_write r = None
   ∧ (∀ j, written_by j (r_actions r) = [])
   ∧ (r_res r = f_res f
      ∨ (f_res f = Awaited
         ∧ (r_res r = Refused ∨ r_res r = Streaming (f_start f)))))
  ∨ (∃ pos chunk,
       f_res f = Streaming pos
       ∧ r_write r = Some (pos, chunk)
       ∧ (∀ j, written_by j (r_actions r)
               = if decide (k = j) then chunk else [])
       ∧ r_res r = Streaming (JS.add pos (Int (Z.of_nat (length chunk))))).
Proof.
  intros [(status & Hawait & ->)|[(pos & chunk & Hstream & ->)
         |[(pos & Hstream & ->)|(err & ->)]]].
  - left. unfold on_response.
    destruct (negb _ && negb _); cbn [r_actions r_write r_res];
      (split; [done|]); (split; [done|]); right; (split; [done|]);
      [by left|by right].
  - right. exists pos, chunk. split; [done|]. split; [done|].
    split; [|done]. intros j. apply written_by_data.
  - left. split; [done|]. split; [done|]. by left.
  - left. split; [done|]. split; [done|]. by left.
Qed.

Lemma consecutive_app (p : Z) (q q' : list (number * list byte)) :
  consecutive p q →
  consecutive (p + Z.of_nat (length (concat (snd <$> q)))) q' →
  consecutive p (q ++ q').
Proof.
  revert p. induction q as [|[pos data] q IH]; intros p; simpl.
  - intros _. by rewrite Z.add_0_r.
  - intros [-> Hq] Hq'. split; [done|]. apply IH; [done|].
    rewrite length_app in Hq'.
    by replace (p + Z.of_nat (length data)
                + Z.of_nat (length (concat (snd <$> q))))
      with (p + Z.of_nat (length data + length (concat (snd <$> q))))
      by lia.
Qed.

(** The bytes written out are what precedes the queue. *)
Lemma flushed_done (k : nat) (s : state) (done : list byte) :
  written_by k (trace s) = done ++ queued k s → flushed k s = done.
Proof.
  unfold flushed. intros ->. rewrite length_app.
  by apply take_app_length'; lia.
Qed.

Lemma piped_flushed (k : nat) (s : state) :
  piped s → written_by k (trace s) = flushed k s ++ queued k s.
Proof.
  intros HP. specialize (HP k). unfold pipe_ok in HP.
  destruct (fetches s !! k) as [f|].
  - destruct HP as (done & Hw & _). fold (queued k s) in Hw.
    by rewrite (flushed_done k s done Hw).
  - destruct HP as [Hw Hq]. unfold flushed, queued. by rewrite Hw, Hq.
Qed.

(** A step that hands nothing to a stream and leaves the queues alone. *)
Lemma piped_quiet (s s' : state) (l : list action) :
  fetches s' = fetches s → queue s' = queue s → trace s' = trace s ++ l →
  Forall (λ a, ∀ j pos data, a ≠ Write j pos data) l →
  piped s → piped s'.
Proof.
  intros Hf Hq Htr Hl HP k.
  rewrite Hf, Hq, Htr, written_by_app, (written_by_quiet k l Hl), app_nil_r.
  apply HP.
Qed.

Lemma piped_reaction (s : state) (k : nat) (f : fetch) (r : reaction) :
  piped s → fetches s !! k = Some f → callback_of k f r →
  piped (apply_reaction k f r s).
Proof.
  intros HP Hk Hcb j.
  set (s' := apply_reaction k f r s).
  assert (trace s' = trace s ++ r_actions r) as Htr by done.
  assert (queue s' = match r_write r with
                     | Some w => <[k := queue s k ++ [w]]> (queue s)
                     | None => queue s
                     end) as Hq by done.
  assert (∃ p, fetches s'
               = <[k := {| f_start := f_start f; f_end := f_end f;
                           f_promise := p; f_res := r_res r |}]> (fetches s))
    as [p Hfs] by (by eexists).
  rewrite Htr, Hq, Hfs, written_by_app.
  pose proof (HP j) as Hj.
  destruct (decide (j = k)) as [->|Hne].
  - rewrite list_lookup_insert_eq by (by eapply lookup_lt_Some).
    rewrite Hk in Hj. destruct Hj as (done & Hw & Hres).
    destruct (callback_writes k f r Hcb)
      as [(-> & Hquiet & Hr)|(pos & chunk & Hstream & -> & Hdata & Hr)].
    + rewrite Hquiet, app_nil_r. exists done. split; [done|].
      cbn [f_res f_start].
      destruct Hr as [->|[Hawait [->| ->]]]; [done|..];
        rewrite Hawait in Hres; destruct Hres as [Hw0 Hq0]; [done|].
      rewrite Hw0, Hq0. intros a Ha _ _.
      rewrite Hw0, Hq0 in Hw. destruct done; [|done].
      split; [done|]. rewrite Ha. f_equal. simpl. lia.
    + rewrite Hdata. destruct (decide (k = k)); [|done].
      rewrite fn_lookup_insert. exists done. split.
      { rewrite Hw, fmap_app, concat_app. simpl.
        by rewrite app_nil_r, app_assoc. }
      cbn [f_res f_start]. rewrite Hr. rewrite Hstream in Hres.
      intros a Ha Ha0 Hbound. rewrite length_app in Hbound.
      destruct (Hres a Ha Ha0 ltac:(lia)) as [Hcons ->]. split.
      * apply consecutive_app; [done|]. simpl. split; [|done].
        f_equal. rewrite Hw, length_app. lia.
      * change (JS.round (a + Z.of_nat (length (written_by k (trace s)))
                          + Z.of_nat (length chunk))
                = Int (a + Z.of_nat (length (written_by k (trace s) ++ chunk)))).
        rewrite round_exact by (assert (0 < 2 ^ 53) by done; lia).
        f_equal. rewrite length_app. lia.
  - rewrite list_lookup_insert_ne by done.
    assert (written_by j (r_actions r) = []) as ->.
    { destruct (callback_writes k f r Hcb)
        as [(_ & Hquiet & _)|(pos & chunk & _ & _ & Hdata & _)]; [done|].
      rewrite Hdata. by destruct (decide (k = j)). }
    rewrite app_nil_r.
    assert (match r_write r with
            | Some w => <[k := queue s k ++ [w]]> (queue s)
            | None => queue s
            end j = queue s j) as ->; [|done].
    destruct (r_write r); [|done]. by rewrite fn_lookup_insert_ne.
Qed.

Lemma piped_written_out (k : nat) (s : state) :
  piped s → piped (written_out k s).
Proof.
  intros HP j. unfold written_out.
  destruct (file s) as [c|]; [|apply HP].
  destruct (queue s k) as [|[pos data] rest] eqn:Hq; [apply HP|].
  cbn [fetches trace queue]. pose proof (HP j) as Hj.
  destruct (decide (j = k)) as [->|Hne].
  - rewrite fn_lookup_insert. rewrite Hq in Hj.
    destruct (fetches s !! k) as [f|]; [|by destruct Hj].
    destruct Hj as (done & Hw & Hres). exists (done ++ data).
    split; [by rewrite Hw, <- app_assoc|].
    destruct (f_res f); try (by destruct Hres).
    intros a Ha Ha0 Hbound.
    destruct (Hres a Ha Ha0 Hbound) as [[_ Hcons] ->]. split; [|done].
    rewrite length_app.
    by replace (a + Z.of_nat (length done + length data))
      with (a + Z.of_nat (length done) + Z.of_nat (length data)) by lia.
  - by rewrite fn_lookup_insert_ne.
Qed.

Lemma piped_stream_error (k : nat) (err : error) (s : state) :
  piped s → piped (stream_error k err s).
Proof.
  intros HP j.
  destruct (stream_error_quiet k err s) as (_ & _ & -> & _ & _ & -> & _ & ->).
  apply HP.
Qed.

Lemma preallocate_no_write env size f :
  Forall (λ a, ∀ j pos data, a ≠ Write j pos data) (preallocate env size f).1.1.
Proof.
  unfold preallocate. destruct (open_result env); [by repeat constructor|].
  destruct (ftruncate_outcome env size); by repeat constructor.
Qed.

Lemma launch_no_write (chunks : list Chunk) :
  Forall (λ a, ∀ j pos data, a ≠ Write j pos data) (launch_all chunks).2.
Proof.
  apply Forall_forall. unfold launch_all. simpl.
  by intros a (k & c & -> & _)%elem_of_lookup_imap.
Qed.

Lemma launch_awaited (chunks : list Chunk) (k : nat) (f : fetch) :
  (launch_all chunks).1 !! k = Some f → f_res f = Awaited.
Proof.
  unfold launch_all. simpl. rewrite list_lookup_imap.
  destruct (chunks !! k); [|done]. by intros [= <-].
Qed.

(** The step of [download] after size discovery hands nothing to a stream,
    and the fetches it launches have no response yet. *)
Lemma after_size_launch (env : Env) (size : number) (s : state) :
  fetches s = [] →
  this (after_size env size s) = this s
  ∧ sizeP (after_size env size s) = sizeP s
  ∧ queue (after_size env size s) = queue s
  ∧ (∃ l, trace (after_size env size s) = trace s ++ l
          ∧ Forall (λ a, ∀ j pos data, a ≠ Write j pos data) l)
  ∧ (∀ k f, fetches (after_size env size s) !! k = Some f →
            f_res f = Awaited).
Proof.
  intros Hnil. unfold after_size.
  destruct (whole_file_mode size (this s)).
  { split; [done|]. split; [done|]. split; [done|]. split.
    - eexists. split; [done|]. by repeat constructor.
    - intros [|k] f; [|done]. by intros [= <-]. }
  pose proof (preallocate_no_write env size (file s)) as Hcalls.
  destruct (preallocate env size (file s)) as [[calls f'] thrown].
  simpl in Hcalls.
  assert (Forall (λ a, ∀ j pos data, a ≠ Write j pos data)
            (ConsoleLog ("File size: " +:+ JS.toString size +:+ " bytes")
             :: calls)) as Hpre by (by constructor).
  destruct thrown as [err|].
  { split; [done|]. split; [done|]. split; [done|]. split.
    - eexists. simpl. rewrite <- app_assoc. split; [done|].
      apply Forall_app. split; [done|]. by repeat constructor.
    - simpl. by rewrite Hnil. }
  cbv zeta. destruct (getChunks _ _ _) as [chunks|].
  - pose proof (launch_no_write chunks) as Hgets.
    pose proof (launch_awaited chunks) as Hawait.
    destruct (launch_all chunks) as [fs gs]. simpl in Hgets, Hawait.
    split; [done|]. split; [done|]. split; [done|]. split; [|done].
    eexists. simpl. rewrite <- app_assoc. split; [done|].
    apply Forall_app. split; [done|]. by constructor.
  - split; [done|]. split; [done|]. split; [done|]. split.
    + eexists. by split.
    + simpl. by rewrite Hnil.
Qed.

Lemma piped_resume (env : Env) (s : state) :
  Inv s → piped s → piped (resume env s).
Proof.
  intros HI HP. unfold resume.
  assert (∀ p, piped (finish p s)) as Hfinish.
  { intros [|[]|e]; [done|..].
    - by apply (piped_quiet s _ [Emit DOWNLOAD_COMPLETE]); try done;
        repeat constructor.
    - by apply (piped_quiet s _ [Emit (DOWNLOAD_FAILED e)]); try done;
        repeat constructor. }
  destruct (pc s) eqn:Hpc; try done.
  - destruct (sizeP s) as [|size|e] eqn:Hsize; [done|..].
    + pose proof (Inv_waiting s HI Hpc) as Hnil.
      destruct (after_size_launch env size s Hnil)
        as (_ & _ & Hq & (l & Htr & Hl) & Hawait).
      intros k. pose proof (HP k) as Hk. rewrite Hnil in Hk.
      destruct Hk as [Hw Hq0].
      rewrite Hq, Htr, written_by_app, (written_by_quiet k l Hl), Hw, Hq0.
      destruct (fetches (after_size env size s) !! k) as [f|] eqn:Hf;
        [|done].
      exists []. split; [done|]. by rewrite (Hawait k f Hf).
    + by apply (piped_quiet s _ [Emit (DOWNLOAD_FAILED e)]);
        try done; repeat constructor.
  - by destruct (fetches s !! 0%nat).
Qed.

Lemma piped_handle (env : Env) (x : stimulus) (s : state) :
  Inv s → piped s → piped (handle env x s).
Proof.
  intros HI HP.
  destruct (handle_callbacks env x s)
    as [->|[(Hp & Hfs & _ & _ & _ & Hq & Htr)|[(k & f & r & Hk & Hcb & ->)
       |[->|[[k ->]|(k & err & ->)]]]]].
  - done.
  - apply (piped_quiet s _ []); try done. by rewrite app_nil_r.
  - by apply piped_reaction.
  - by apply piped_resume.
  - by apply piped_written_out.
  - by apply piped_stream_error.
Qed.

Lemma piped_download (d : Downloadr) (file0 : file_content) :
  piped (download d file0).
Proof. by intros k. Qed.

(** An invariant of the callbacks that holds of the first state holds of
    every run. *)
Lemma run_invariant (P : state → Prop) (env : Env) (d : Downloadr)
    (file0 : file_content) (schedule : list stimulus) :
  P (download d file0) →
  (∀ x s, Inv s → planned s → piped s → P s → P (handle env x s)) →
  Inv (run env d file0 schedule) ∧ planned (run env d file0 schedule)
  ∧ piped (run env d file0 schedule) ∧ P (run env d file0 schedule).
Proof.
  intros H0 Hstep. unfold run.
  assert (Inv (download d file0) ∧ planned (download d file0)
          ∧ piped (download d file0) ∧ P (download d file0)) as H.
  { split; [apply Inv_download|]. split; [by split|].
    split; [apply piped_download|done]. }
  revert H. generalize (download d file0).
  induction schedule as [|x rest IH]; intros s (HI & HPl & HPi & HP); [done|].
  simpl. destruct (crashed s); [done|]. apply IH.
  split; [by apply Inv_handle|]. split; [by apply planned_handle|].
  split; [by apply piped_handle|by apply Hstep].
Qed.

(** ** The bytes of a whole-file run *)

Lemma read_byte_past_end (c : file_data) (i : Z) :
  fd_size c ≤ i → read_byte c i = x00.
Proof. intros Hi. unfold read_byte. case_compare. Qed.

(** A positional write that starts within the file or at its end, read
    back. *)
Lemma fs_write_at_read (c : file_data) (z : Z) (data : list byte) :
  0 ≤ z ≤ fd_size c →
  ∃ c', fs_write_at (Int z) data (Some c) = Some c'
        ∧ fd_size c' = Z.max (fd_size c) (z + Z.of_nat (length data))
        ∧ ∀ i, read_byte c' i
               = if (z <=? i) && (i <? z + Z.of_nat (length data))
                 then nth (Z.to_nat (i - z)) data x00
                 else read_byte c i.
Proof.
  intros Hz. unfold fs_write_at. destruct data as [|b data].
  { exists c. split; [done|].
    change (Z.of_nat (length (@nil byte))) with 0. split; [lia|].
    intros i.
    destruct (Z.leb_spec z i), (Z.ltb_spec i (z + 0)); cbn [andb];
      try done. lia. }
  destruct (Z.leb_spec 0 z); [|lia].
  eexists. split; [done|]. split; [done|].
  intros i. unfold read_byte at 1. cbn [fd_size fd_byte].
  destruct (Z.leb_spec z i);
    destruct (Z.ltb_spec i (z + Z.of_nat (length (b :: data))));
    cbn [andb]; [case_compare|..];
    (destruct (Z.ltb_spec i (fd_size c));
     [unfold read_byte; case_compare
     |rewrite read_byte_past_end by lia; case_compare]).
Qed.

(** Appending [chunk] at the end of the body written so far. *)
Lemma overlay_write (file0 file : file_content) (body chunk : list byte) :
  (∀ c0, file0 = Some c0 → 0 ≤ fd_size c0) →
  overlay file0 body file →
  overlay file0 (body ++ chunk)
    (fs_write_at (Int (Z.of_nat (length body))) chunk file).
Proof.
  intros Hwf. unfold overlay. destruct file0 as [c0|].
  - intros (c & -> & Hsize & Hbytes). specialize (Hwf c0 eq_refl).
    destruct (fs_write_at_read c (Z.of_nat (length body)) chunk ltac:(lia))
      as (c' & -> & Hsize' & Hbytes').
    exists c'. split; [done|]. rewrite length_app. split; [lia|].
    intros i Hi. rewrite Hbytes', Hbytes by done.
    destruct (Z.leb_spec (Z.of_nat (length body)) i);
      destruct (Z.ltb_spec i (Z.of_nat (length body) + Z.of_nat (length chunk)));
      simpl.
    + destruct (Z.ltb_spec i (Z.of_nat (length body + length chunk))); [|lia].
      rewrite app_nth2 by lia. f_equal. lia.
    + destruct (Z.ltb_spec i (Z.of_nat (length body))); [lia|].
      by destruct (Z.ltb_spec i (Z.of_nat (length body + length chunk)));
        [lia|].
    + destruct (Z.ltb_spec i (Z.of_nat (length body))); [|lia].
      destruct (Z.ltb_spec i (Z.of_nat (length body + length chunk))); [|lia].
      by rewrite app_nth1 by lia.
    + lia.
  - intros ->. unfold fs_write_at. destruct chunk; [done|].
    by destruct (0 <=? _).
Qed.

Lemma overlay_start (file0 : file_content) :
  (∀ c0, file0 = Some c0 → 0 ≤ fd_size c0) → overlay file0 [] file0.
Proof.
  intros Hwf. unfold overlay. destruct file0 as [c0|]; [|done].
  exists c0. split; [done|]. specialize (Hwf c0 eq_refl).
  change (Z.of_nat (length (@nil byte))) with 0.
  split; [lia|]. intros i Hi. by destruct (Z.ltb_spec i 0); [lia|].
Qed.

Lemma Inv_pending_waiting (s : state) :
  Inv s → sizeP s = Pending → pc s = AtGetFileSize.
Proof.
  intros [[_ Hshape]|(size & Hsize & _)] Hp; [|congruence].
  destruct (pc s); try done.
  destruct Hshape as [[? _]|(size & pre & ? & _)]; congruence.
Qed.

(** A callback that changes neither the file nor the queue of a stream
    leaves what that stream has written out. *)
Lemma flushed_reaction (s : state) (k j : nat) (f : fetch) (r : reaction) :
  piped s → fetches s !! k = Some f → callback_of k f r →
  flushed j (apply_reaction k f r s) = flushed j s.
Proof.
  intros HP Hk Hcb.
  pose proof (piped_flushed j s HP) as Hw.
  apply flushed_done. unfold queued.
  change (trace (apply_reaction k f r s)) with (trace s ++ r_actions r).
  change (queue (apply_reaction k f r s))
    with (match r_write r with
          | Some w => <[k := queue s k ++ [w]]> (queue s)
          | None => queue s
          end).
  rewrite written_by_app, Hw.
  destruct (callback_writes k f r Hcb)
    as [(-> & Hquiet & _)|(pos & chunk & _ & -> & Hdata & _)].
  - by rewrite Hquiet, app_nil_r.
  - rewrite Hdata. destruct (decide (k = j)) as [->|Hne].
    + rewrite fn_lookup_insert, fmap_app, concat_app. simpl.
      by rewrite app_nil_r, app_assoc.
    + by rewrite fn_lookup_insert_ne, app_nil_r.
Qed.

Lemma flushed_quiet (s s' : state) (l : list action) (k : nat) :
  queue s' = queue s → trace s' = trace s ++ l →
  Forall (λ a, ∀ j pos data, a ≠ Write j pos data) l →
  flushed k s' = flushed k s.
Proof.
  intros Hq Htr Hl. unfold flushed, queued.
  by rewrite Hq, Htr, written_by_app, (written_by_quiet k l Hl), app_nil_r.
Qed.

(** The write that [written_out] carries out, when there is one: it is the
    head of the queue, it goes where the bytes written out so far end, and
    its bytes join them. *)
Lemma written_out_step (k : nat) (s : state) (a : Z) (f : fetch) :
  piped s → fetches s !! k = Some f → f_start f = Int a → 0 ≤ a →
  a + Z.of_nat (length (written_by k (trace s))) ≤ 2 ^ 53 →
  written_out k s = s
  ∨ ∃ c data,
      file s = Some c
      ∧ file (written_out k s)
        = fs_write_at (Int (a + Z.of_nat (length (flushed k s)))) data (file s)
      ∧ flushed k (written_out k s) = flushed k s ++ data
      ∧ (length (flushed k s ++ data) ≤ length (written_by k (trace s)))%nat
      ∧ ∀ j, j ≠ k → flushed j (written_out k s) = flushed j s.
Proof.
  intros HP Hk Ha Ha0 Hbound. unfold written_out.
  destruct (file s) as [c|] eqn:Hfile; [|by left].
  destruct (queue s k) as [|[pos data] rest] eqn:Hq; [by left|].
  right. exists c, data. split; [done|].
  pose proof (HP k) as Hpk. rewrite Hk, Hq in Hpk.
  destruct Hpk as (done & Hw & Hres).
  assert (flushed k s = done) as Hfl.
  { apply flushed_done. unfold queued. by rewrite Hq. }
  rewrite Hfl.
  destruct (f_res f); try (by destruct Hres).
  destruct (Hres a Ha Ha0 Hbound) as [[-> _] _].
  split; [done|]. split; [|split].
  - apply flushed_done. unfold queued. cbn [trace queue].
    rewrite fn_lookup_insert, Hw. simpl. by rewrite <- app_assoc.
  - rewrite Hw. simpl. rewrite !length_app. lia.
  - intros j Hne. unfold flushed, queued. cbn [trace queue].
    by rewrite fn_lookup_insert_ne.
Qed.

Lemma written_out_idle (k : nat) (s : state) :
  fetches s !! k = None → piped s → written_out k s = s.
Proof.
  intros Hk HP. specialize (HP k). rewrite Hk in HP. destruct HP as [_ Hq].
  unfold written_out. rewrite Hq. by destruct (file s).
Qed.

Lemma whole_file_writes_reaction (file0 : file_content) (s : state)
    (k : nat) (f : fetch) (r : reaction) :
  Inv s → piped s → whole_file_writes file0 s →
  fetches s !! k = Some f → callback_of k f r →
  whole_file_writes file0 (apply_reaction k f r s).
Proof.
  intros HI HP [_ HW] Hk Hcb. split.
  - intros Hpc. pose proof (Inv_waiting s HI Hpc) as Hnil.
    by rewrite Hnil in Hk.
  - intros size Hsize Hmode Hpc Hbound.
    rewrite (flushed_reaction s k 0 f r HP Hk Hcb).
    change (file (apply_reaction k f r s)) with (file s).
    apply (HW size Hsize Hmode Hpc).
    change (trace (apply_reaction k f r s)) with (trace s ++ r_actions r)
      in Hbound.
    rewrite written_by_app, length_app in Hbound. lia.
Qed.

Lemma whole_file_writes_resume (env : Env) (file0 : file_content) (s : state) :
  (∀ c0, file0 = Some c0 → 0 ≤ fd_size c0) →
  Inv s → piped s → whole_file_writes file0 s →
  whole_file_writes file0 (resume env s).
Proof.
  intros Hwf HI HP HW. unfold resume.
  assert (∀ p, pc s ≠ AtGetFileSize → whole_file_writes file0 (finish p s))
    as Hfinish.
  { intros p Hpc. destruct HW as [_ HW2].
    destruct p as [|[]|e]; [done|..]; (split; [done|]);
      intros size Hsize Hmode _ Hbound.
    - rewrite (flushed_quiet s _ [Emit DOWNLOAD_COMPLETE] 0) by
        (try done; by repeat constructor).
      apply (HW2 size Hsize Hmode Hpc).
      change (trace (finish (Fulfilled ()) s))
        with (trace s ++ [Emit DOWNLOAD_COMPLETE]) in Hbound.
      by rewrite written_by_app, app_nil_r in Hbound.
    - rewrite (flushed_quiet s _ [Emit (DOWNLOAD_FAILED e)] 0) by
        (try done; by repeat constructor).
      apply (HW2 size Hsize Hmode Hpc).
      change (trace (finish (Rejected e) s))
        with (trace s ++ [Emit (DOWNLOAD_FAILED e)]) in Hbound.
      by rewrite written_by_app, app_nil_r in Hbound. }
  destruct (pc s) eqn:Hpc; try done.
  - destruct HW as [HW1 _]. pose proof (HW1 Hpc) as Hfile.
    pose proof (Inv_waiting s HI Hpc) as Hnil.
    destruct (sizeP s) as [|size|e] eqn:Hsize.
    + split; [by rewrite Hpc|]. intros size. by rewrite Hsize.
    + pose proof (after_size_launch env size s Hnil)
        as (_ & _ & Hq & (l & Htr & Hl) & _).
      pose proof (flushed_quiet s _ l 0 Hq Htr Hl) as Hfl. revert Hfl.
      unfold after_size. destruct (whole_file_mode size (this s)) eqn:Hmode.
      * intros Hfl. split; [done|]. intros size' Hs' _ _ _. rewrite Hfl.
        pose proof (HP 0%nat) as H0. rewrite Hnil in H0.
        destruct H0 as [Hw0 _]. unfold flushed. rewrite Hw0, take_nil.
        cbn [file]. rewrite Hfile. by apply overlay_start.
      * intros _. assert (∀ s', sizeP s' = sizeP s → this s' = this s →
                      pc s' ≠ AtGetFileSize → whole_file_writes file0 s')
          as Hmulti.
        { intros s' Hs' Ht' Hpc'. split; [done|].
          intros size'. rewrite Hs', Ht', Hsize. intros [= <-]. congruence. }
        destruct (preallocate env size (file s)) as [[calls f'] [err|]];
          [by apply Hmulti|].
        cbv zeta. destruct (getChunks _ _ _) as [chunks|];
          [|by apply Hmulti].
        destruct (launch_all chunks) as [fs gs]. by apply Hmulti.
    + split; [done|]. simpl. intros size. by rewrite Hsize.
  - destruct (fetches s !! 0%nat); [|done]. by apply Hfinish.
  - by apply Hfinish.
Qed.

Lemma whole_file_writes_written_out (file0 : file_content) (k : nat)
    (s : state) :
  (∀ c0, file0 = Some c0 → 0 ≤ fd_size c0) →
  Inv s → piped s → whole_file_writes file0 s →
  whole_file_writes file0 (written_out k s).
Proof.
  intros Hwf HI HP HW.
  destruct (fetches s !! k) as [f|] eqn:Hk;
    [|by rewrite written_out_idle].
  destruct (written_out_quiet k s) as (Ht & Hs & _ & _ & Hpc & Htr & _).
  destruct HW as [HW1 HW2]. split.
  - rewrite Hpc. intros Hat. pose proof (Inv_waiting s HI Hat) as Hnil.
    by rewrite Hnil in Hk.
  - rewrite Ht, Hs, Hpc, Htr. intros size Hsize Hmode Hne Hbound.
    pose proof (HW2 size Hsize Hmode Hne Hbound) as Hov.
    destruct HI as [[Hnil _]|(size' & Hsize' & _ & _ & Hm & _)];
      [by rewrite Hnil in Hk|].
    assert (size' = size) as -> by congruence. rewrite Hmode in Hm.
    destruct Hm as (f0 & rest & Hfs & Hstart & _).
    rewrite Hfs in Hk. destruct k as [|k]; [|done]. injection Hk as <-.
    destruct (written_out_step 0 s 0 f0 HP) as [->|Hstep];
      [by rewrite Hfs|done|done|lia|done|].
    destruct Hstep as (c & data & Hc & -> & -> & _ & _).
    rewrite Z.add_0_l. by apply overlay_write.
Qed.

Lemma whole_file_writes_handle (env : Env) (file0 : file_content)
    (x : stimulus) (s : state) :
  (∀ c0, file0 = Some c0 → 0 ≤ fd_size c0) →
  Inv s → piped s → whole_file_writes file0 s →
  whole_file_writes file0 (handle env x s).
Proof.
  intros Hwf HI HP HW.
  destruct (handle_callbacks env x s)
    as [->|[(Hp & Hfs & _ & Hpc & Hfile & Hq & Htr)
       |[(k & f & r & Hk & Hcb & ->)|[->|[[k ->]|(k & err & ->)]]]]].
  - done.
  - pose proof (Inv_pending_waiting s HI Hp) as Hat. destruct HW as [HW1 _].
    split.
    + intros _. rewrite Hfile. by apply HW1.
    + intros size _ _. by rewrite Hpc.
  - by apply whole_file_writes_reaction.
  - by apply whole_file_writes_resume.
  - by apply whole_file_writes_written_out.
  - destruct (stream_error_quiet k err s)
      as (Ht & Hs & _ & _ & Hpc & Htr & Hf & Hq).
    unfold whole_file_writes, flushed, queued.
    rewrite Ht, Hs, Hpc, Htr, Hf, Hq. exact HW.
Qed.

(** X9.  In a whole-file run the bytes of the response go to write stream 0,
    which writes them one buffer after the other from offset 0 when the file
    system gets to them; nothing else touches the output path.  As long as
    the response has delivered no more than 2^53 bytes: the bytes handed to
    the stream are those written out followed by those still queued; a path
    that does not exist beforehand does not exist afterwards; and a file that
    exists is never truncated, holds the bytes written out at its start,
    keeps every byte it had past them, and is as long as the longer of the
    two. *)
Theorem whole_file_run_overwrites (env : Env) (d : Downloadr)
    (file0 : file_content) (schedule : list stimulus) :
  let s := run env d file0 schedule in
  (∀ c0, file0 = Some c0 → 0 ≤ fd_size c0) →
  ∀ size,
    sizeP s = Fulfilled size → whole_file_mode size (this s) = true →
    Z.of_nat (length (written_by 0 (trace s))) ≤ 2 ^ 53 →
    let body := flushed 0 s in
    written_by 0 (trace s) = body ++ queued 0 s
    ∧ match file0 with
      | None => file s = None
      | Some c0 =>
          ∃ c, file s = Some c
               ∧ fd_size c = Z.max (fd_size c0) (Z.of_nat (length body))
               ∧ fs_read c 0 (length body) = body
               ∧ ∀ i, Z.of_nat (length body) ≤ i →
                      read_byte c i = read_byte c0 i
      end.
Proof.
  intros s Hwf size Hsize Hmode Hbound body.
  destruct (run_invariant (whole_file_writes file0) env d file0 schedule)
    as (HI & _ & HP & [HW1 HW2]).
  { split; [done|]. by intros size'. }
  { intros x s0 HI0 _ HP0 HW0. by apply whole_file_writes_handle. }
  fold s in HI, HP, HW1, HW2.
  split; [by apply piped_flushed|].
  assert (overlay file0 body (file s)) as Hov.
  { destruct (pc s) eqn:Hpc;
      try (by apply (HW2 size Hsize Hmode)).
    rewrite (HW1 eq_refl).
    pose proof (HP 0%nat) as H0. rewrite (Inv_waiting s HI Hpc) in H0.
    destruct H0 as [Hw0 _]. unfold body, flushed. rewrite Hw0.
    by apply overlay_start. }
  unfold overlay in Hov. destruct file0 as [c0|]; [|done].
  destruct Hov as (c & Hfile & Hlen & Hbytes).
  exists c. split; [done|]. split; [done|]. split.
  - unfold fs_read. apply list_eq. intros j.
    rewrite list_lookup_fmap.
    destruct (decide (j < length body)%nat) as [Hj|Hj].
    + rewrite lookup_seq_lt by done. simpl.
      rewrite Hbytes by lia. rewrite Z.add_0_l, Nat2Z.id.
      destruct (Z.ltb_spec (Z.of_nat j) (Z.of_nat (length body))); [|lia].
      destruct (lookup_lt_is_Some_2 body j Hj) as [b Hb].
      rewrite Hb. f_equal. by apply nth_lookup_Some.
    + rewrite lookup_seq_ge by lia. simpl. symmetry.
      apply lookup_ge_None. lia.
  - intros i Hi. rewrite Hbytes by lia.
    by destruct (Z.ltb_spec i (Z.of_nat (length body))); [lia|].
Qed.

(** ** A size that the preallocation refuses *)

Lemma preallocate_unsafe (env : Env) (size : number) (f : file_content) :
  unsafe_size size = true →
  ∃ err, (preallocate env size f).2 = Some err
         ∧ Forall (λ a, is_setup a = true) (preallocate env size f).1.1
         ∧ (open_result env = None →
            err = External "ERR_OUT_OF_RANGE"
            ∧ (preallocate env size f).1.2 = fs_open_w f).
Proof.
  intros Hu. unfold preallocate. destruct (open_result env) as [err|].
  - exists err. split; [done|]. split; [by repeat constructor|done].
  - assert (ftruncate_outcome env size = inl (External "ERR_OUT_OF_RANGE"))
      as ->.
    { unfold ftruncate_outcome. destruct size as [z| | |]; try done.
      unfold unsafe_size in Hu. apply negb_true_iff in Hu. by rewrite Hu. }
    eexists. split; [done|]. split; [by repeat constructor|done].
Qed.

Lemma refused_keep (env : Env) (file0 : file_content) (s s' : state) :
  this s' = this s → sizeP s' = sizeP s →
  pc s ≠ AtGetFileSize → pc s' ≠ AtGetFileSize →
  (∀ e, pc s = Threw e → fetches s = [] → s' = s) →
  refused env file0 s → refused env file0 s'.
Proof.
  intros Ht Hs Hpc Hpc' Hsame [_ HU]. split; [done|].
  rewrite Ht, Hs. intros size Hsize Hunsafe Hmode _.
  destruct (HU size Hsize Hunsafe Hmode Hpc)
    as (err & Herr & Hthrew & Hnil & Hfile & Htr).
  rewrite (Hsame err Hthrew Hnil). by exists err.
Qed.

Lemma refused_resume (env : Env) (file0 : file_content) (s : state) :
  Inv s → refused env file0 s → refused env file0 (resume env s).
Proof.
  intros HI HU. pose proof HU as [HU1 HU2]. unfold resume.
  assert (∀ p, pc s = AtDownloadChunk ∨ pc s = AtPromiseAll →
               refused env file0 (finish p s)) as Hfinish.
  { intros p Hat. destruct p as [|[]|e]; [done|..];
      (apply (refused_keep env file0 s); try done;
       [by destruct Hat as [-> | ->]
       |intros e' He'; destruct Hat as [Hat|Hat]; congruence]). }
  destruct (pc s) eqn:Hpc; try done.
  - specialize (HU1 eq_refl).
    destruct (sizeP s) as [|size|e] eqn:Hsize.
    + split; [by rewrite Hpc|]. intros size. by rewrite Hsize.
    + destruct HI as [[Hnil Hshape]|(? & _ & _ & _ & _ & _ & _ & Hl)];
        [|by rewrite Hpc in Hl].
      rewrite Hpc in Hshape. destruct Hshape as (Htr & _ & _).
      destruct (after_size_launch env size s Hnil) as (Ht & Hs & _).
      split.
      { unfold after_size. destruct (whole_file_mode size (this s)); [done|].
        destruct (preallocate env size (file s)) as [[calls f'] [err|]];
          [done|].
        cbv zeta. destruct (getChunks _ _ _) as [chunks|]; [|done].
        by destruct (launch_all chunks). }
      rewrite Ht, Hs, Hsize. intros size' [= <-] Hunsafe Hmode _.
      unfold after_size. rewrite Hmode, HU1.
      destruct (preallocate_unsafe env size file0 Hunsafe) as (err & Herr & _).
      destruct (preallocate env size file0) as [[calls f'] thrown].
      simpl in Herr. subst thrown. exists err. simpl. by rewrite Htr.
    + split; [done|]. simpl. intros size. by rewrite Hsize.
  - destruct (fetches s !! 0%nat) as [f|]; [|by rewrite <- Hpc in *].
    apply Hfinish. by left.
  - apply Hfinish. by right.
Qed.

Lemma refused_handle (env : Env) (file0 : file_content) (x : stimulus)
    (s : state) :
  Inv s → piped s → refused env file0 s → refused env file0 (handle env x s).
Proof.
  intros HI HP HU.
  destruct (handle_callbacks env x s)
    as [->|[(Hp & Hfs & _ & Hpc & Hfile & _ & Htr)
       |[(k & f & r & Hk & Hcb & ->)|[->|[[k ->]|(k & err & ->)]]]]].
  - done.
  - pose proof (Inv_pending_waiting s HI Hp) as Hat. destruct HU as [HU1 _].
    split; [|by rewrite Hpc]. intros _. rewrite Hfile. by apply HU1.
  - assert (pc s ≠ AtGetFileSize) as Hpc.
    { intros Hpc. pose proof (Inv_waiting s HI Hpc) as Hnil.
      by rewrite Hnil in Hk. }
    apply (refused_keep env file0 s); try done.
    intros e _ Hnil. by rewrite Hnil in Hk.
  - by apply refused_resume.
  - destruct (fetches s !! k) as [f|] eqn:Hk;
      [|by rewrite written_out_idle].
    destruct (written_out_quiet k s) as (Ht & Hs & _ & _ & Hpc' & _).
    assert (pc s ≠ AtGetFileSize) as Hpc.
    { intros Hpc. pose proof (Inv_waiting s HI Hpc) as Hnil.
      by rewrite Hnil in Hk. }
    apply (refused_keep env file0 s); try done; [by rewrite Hpc'|].
    intros e _ Hnil. by rewrite Hnil in Hk.
  - unfold stream_error.
    by destruct (f_res <$> fetches s !! k) as [[]|].
Qed.

(** Once [download] has continued past a size that is no safe integer, in
    multi-chunk mode, the run has failed in the preallocation, right after
    opening the path when that succeeded. *)
Lemma refused_run (env : Env) (d : Downloadr) (file0 : file_content)
    (schedule : list stimulus) (size : number) :
  let s := run env d file0 schedule in
  sizeP s = Fulfilled size → unsafe_size size = true →
  whole_file_mode size (this s) = false → pc s ≠ AtGetFileSize →
  ∃ err,
    pc s = Threw err
    ∧ fetches s = []
    ∧ gets (trace s) = []
    ∧ events (trace s) = [DOWNLOAD_FAILED err]
    ∧ (open_result env = None →
       err = External "ERR_OUT_OF_RANGE"
       ∧ ∃ c, file s = Some c ∧ fd_size c = 0).
Proof.
  intros s Hsize Hunsafe Hmode Hpc.
  destruct (run_invariant (refused env file0) env d file0 schedule)
    as (_ & _ & _ & [_ HU]).
  { by split. }
  { intros x s0 HI0 _ HP0 HU0. by apply refused_handle. }
  destruct (HU size Hsize Hunsafe Hmode Hpc)
    as (err & Herr & Hthrew & Hnil & Hfile & Htr).
  destruct (preallocate_unsafe env size file0 Hunsafe)
    as (err' & Herr' & Hsetup & Hopen).
  assert (err' = err) as -> by congruence.
  exists err. split; [done|]. split; [done|].
  fold s in Htr, Hfile. rewrite Htr.
  change (?a :: ?b :: ?l ++ ?m) with ([a; b] ++ l ++ m).
  rewrite !gets_app, !events_app.
  rewrite (gets_setup _ Hsetup), (events_setup _ Hsetup).
  split; [done|]. split; [done|].
  intros Ho. destruct (Hopen Ho) as [-> Hf]. split; [done|].
  rewrite Hfile, Hf. by eexists.
Qed.

(** X10.  A size of 2^53 or more, [Infinity] included, which the total of a
    Content-Range header can declare, is refused by the preallocation: once
    [download] has continued past it the run has failed, no chunk request
    was ever issued, DOWNLOAD_FAILED is the only event, and when the output
    path could be opened the thrown error is the range error of
    [ftruncateSync] and the path holds an empty file, whatever it held
    before. *)
Theorem download_oversized_size (env : Env) (d : Downloadr)
    (file0 : file_content) (schedule : list stimulus) (size : number) :
  let s := run env d file0 schedule in
  sizeP s = Fulfilled size → at_least (2 ^ 53) size → pc s ≠ AtGetFileSize →
  ∃ err,
    pc s = Threw err
    ∧ fetches s = []
    ∧ gets (trace s) = []
    ∧ events (trace s) = [DOWNLOAD_FAILED err]
    ∧ (open_result env = None →
       err = External "ERR_OUT_OF_RANGE"
       ∧ ∃ c, file s = Some c ∧ fd_size c = 0).
Proof.
  intros s Hsize Hbig Hpc.
  pose proof (planned_run env d file0 schedule) as [Hpol _]. fold s in Hpol.
  specialize (Hpol size Hsize).
  apply (refused_run env d file0 schedule size); try done.
  - destruct size as [z| | |]; try done. unfold at_least in Hbig.
    unfold unsafe_size. apply negb_true_iff, andb_false_iff. right.
    apply Z.leb_gt. rewrite safe_bound. lia.
  - fold s. destruct size as [z| | |]; try done.
    + unfold at_least in Hbig.
      rewrite (whole_file_mode_threshold (this s) z Hpol).
      apply Z.leb_gt. assert (104857600 < 2 ^ 53) by done. lia.
    + unfold whole_file_mode. by rewrite Hpol.
Qed.

(** The theorem on a response that declares a total of 2^64 bytes, over a
    file of three bytes. *)
Lemma download_oversized_size_witness :
  ∃ err,
    pc (run no_faults
          (new_Downloadr {| opt_url := "http://h/f"; opt_outputPath := "f";
                            opt_chunkCount := None;
                            opt_highWaterMark := None |})
          (Some (file_of_bytes [x01; x02; x03]))
          [ProbeResponse
             {[ "content-range" := "bytes 0-0/18446744073709551616" ]};
           Tick])
    = Threw err
    ∧ err = External "ERR_OUT_OF_RANGE"
    ∧ ∃ c,
        file (run no_faults
          (new_Downloadr {| opt_url := "http://h/f"; opt_outputPath := "f";
                            opt_chunkCount := None;
                            opt_highWaterMark := None |})
          (Some (file_of_bytes [x01; x02; x03]))
          [ProbeResponse
             {[ "content-range" := "bytes 0-0/18446744073709551616" ]};
           Tick])
        = Some c
        ∧ fd_size c = 0.
Proof.
  assert (sizeP (run no_faults
                   (new_Downloadr {| opt_url := "http://h/f";
                                     opt_outputPath := "f";
                                     opt_chunkCount := None;
                                     opt_highWaterMark := None |})
                   (Some (file_of_bytes [x01; x02; x03]))
                   [ProbeResponse
                      {[ "content-range" := "bytes 0-0/18446744073709551616" ]};
                    Tick])
          = Fulfilled (Int 18446744073709551616)) as Hsize
    by (vm_compute; reflexivity).
  assert (at_least (2 ^ 53) (Int 18446744073709551616)) as Hbig
    by (vm_compute; discriminate).
  assert (pc (run no_faults
                (new_Downloadr {| opt_url := "http://h/f";
                                  opt_outputPath := "f";
                                  opt_chunkCount := None;
                                  opt_highWaterMark := None |})
                (Some (file_of_bytes [x01; x02; x03]))
                [ProbeResponse
                   {[ "content-range" := "bytes 0-0/18446744073709551616" ]};
                 Tick])
          ≠ AtGetFileSize) as Hpc by (vm_compute; intros H; discriminate H).
  destruct (download_oversized_size _ _ _ _ _ Hsize Hbig Hpc)
    as (err & Hthrew & _ & _ & _ & Hopen).
  destruct (Hopen eq_refl) as [Herr Hfile].
  exists err. split; [exact Hthrew|]. split; [exact Herr|exact Hfile].
Defined.

(** X11.  Once [download] has continued past a size that resolved to NaN,
    the run has failed: no chunk request was ever issued, DOWNLOAD_FAILED is
    the only event, and when the output path could be opened the thrown
    error is the range error of [ftruncateSync] and the path holds an empty
    file, whatever it held before. *)
Theorem download_unparsable_size (env : Env) (d : Downloadr)
    (file0 : file_content) (schedule : list stimulus) :
  let s := run env d file0 schedule in
  sizeP s = Fulfilled NaN → pc s ≠ AtGetFileSize →
  ∃ err,
    pc s = Threw err
    ∧ fetches s = []
    ∧ gets (trace s) = []
    ∧ events (trace s) = [DOWNLOAD_FAILED err]
    ∧ (open_result env = None →
       err = External "ERR_OUT_OF_RANGE"
       ∧ ∃ c, file s = Some c ∧ fd_size c = 0).
Proof.
  intros s Hsize Hpc.
  pose proof (planned_run env d file0 schedule) as [Hpol _]. fold s in Hpol.
  specialize (Hpol NaN Hsize).
  apply (refused_run env d file0 schedule NaN); try done.
  fold s. unfold whole_file_mode. by rewrite Hpol.
Qed.

Lemma download_unparsable_size_witness :
  ∃ err,
    pc (run no_faults
          (new_Downloadr {| opt_url := "http://h/f"; opt_outputPath := "f";
                            opt_chunkCount := None;
                            opt_highWaterMark := None |})
          (Some (file_of_bytes [x01; x02; x03]))
          [ProbeResponse {[ "content-length" := "unknown" ]}; Tick])
    = Threw err
    ∧ fetches (run no_faults
          (new_Downloadr {| opt_url := "http://h/f"; opt_outputPath := "f";
                            opt_chunkCount := None;
                            opt_highWaterMark := None |})
          (Some (file_of_bytes [x01; x02; x03]))
          [ProbeResponse {[ "content-length" := "unknown" ]}; Tick]) = []
    ∧ gets (trace (run no_faults
          (new_Downloadr {| opt_url := "http://h/f"; opt_outputPath := "f";
                            opt_chunkCount := None;
                            opt_highWaterMark := None |})
          (Some (file_of_bytes [x01; x02; x03]))
          [ProbeResponse {[ "content-length" := "unknown" ]}; Tick])) = []
    ∧ events (trace (run no_faults
          (new_Downloadr {| opt_url := "http://h/f"; opt_outputPath := "f";
                            opt_chunkCount := None;
                            opt_highWaterMark := None |})
          (Some (file_of_bytes [x01; x02; x03]))
          [ProbeResponse {[ "content-length" := "unknown" ]}; Tick]))
      = [DOWNLOAD_FAILED err]
    ∧ (open_result no_faults = None →
       err = External "ERR_OUT_OF_RANGE"
       ∧ ∃ c,
           file (run no_faults
             (new_Downloadr {| opt_url := "http://h/f"; opt_outputPath := "f";
                               opt_chunkCount := None;
                               opt_highWaterMark := None |})
             (Some (file_of_bytes [x01; x02; x03]))
             [ProbeResponse {[ "content-length" := "unknown" ]}; Tick])
           = Some c
           ∧ fd_size c = 0).
Proof.
  assert (sizeP (run no_faults
                   (new_Downloadr {| opt_url := "http://h/f";
                                     opt_outputPath := "f";
                                     opt_chunkCount := None;
                                     opt_highWaterMark := None |})
                   (Some (file_of_bytes [x01; x02; x03]))
                   [ProbeResponse {[ "content-length" := "unknown" ]}; Tick])
          = Fulfilled NaN) as Hsize by (vm_compute; reflexivity).
  assert (pc (run no_faults
                (new_Downloadr {| opt_url := "http://h/f";
                                  opt_outputPath := "f";
                                  opt_chunkCount := None;
                                  opt_highWaterMark := None |})
                (Some (file_of_bytes [x01; x02; x03]))
                [ProbeResponse {[ "content-length" := "unknown" ]}; Tick])
          ≠ AtGetFileSize) as Hpc by (vm_compute; intros H; discriminate H).
  exact (download_unparsable_size _ _ _ _ Hsize Hpc).
Defined.

(** ** The bytes of a multi-chunk run *)

Lemma in_bounds_lookup (s : state) :
  in_bounds s = true
  ↔ ∀ k f, fetches s !! k = Some f → within_range k f (trace s) = true.
Proof.
  unfold in_bounds. rewrite forallb_forall. split.
  - intros H k f Hk. apply (H (within_range k f (trace s))).
    apply list_elem_of_In, elem_of_lookup_imap. by exists k, f.
  - intros H b [k [f [-> Hk]]]%list_elem_of_In%elem_of_lookup_imap.
    by apply H.
Qed.

Lemma chunk_index (i cs k : Z) :
  1 ≤ cs → k * cs ≤ i < k * cs + cs → i / cs = k ∧ i `mod` cs = i - k * cs.
Proof.
  intros Hcs Hi.
  assert (i / cs = k) as Hq.
  { symmetry. apply (Z.div_unique_pos i cs k (i - k * cs)); lia. }
  split; [done|]. rewrite Z.mod_eq by lia. rewrite Hq. lia.
Qed.

Lemma nth_nil_byte (n : nat) : nth n (@nil byte) x00 = x00.
Proof. by destruct n. Qed.

Lemma within_range_insert (s : state) (k : nat) (f f' : fetch) (t : list action) :
  fetches s !! k = Some f →
  f_start f' = f_start f → f_end f' = f_end f →
  (∀ j g, <[k := f']> (fetches s) !! j = Some g →
          within_range j g t = true) →
  ∀ j g, fetches s !! j = Some g → within_range j g t = true.
Proof.
  intros Hk Hs He H j g Hj. destruct (decide (j = k)) as [->|Hne].
  - assert (g = f) as -> by congruence.
    rewrite <- (H k f').
    + unfold within_range. by rewrite Hs, He.
    + apply list_lookup_insert_eq. by eapply lookup_lt_Some.
  - apply H. by rewrite list_lookup_insert_ne.
Qed.

Lemma within_range_shorter (k : nat) (f : fetch) (t u : list action) :
  within_range k f (t ++ u) = true → within_range k f t = true.
Proof.
  unfold within_range. rewrite written_by_app, length_app.
  destruct (f_start f), (f_end f); try done.
  intros H%Z.leb_le. apply Z.leb_le. lia.
Qed.

Lemma assembling_reaction (s : state) (k : nat) (f : fetch) (r : reaction) :
  piped s → assembling s →
  fetches s !! k = Some f → callback_of k f r →
  assembling (apply_reaction k f r s).
Proof.
  intros HP HA Hk Hcb z Hsize Hmode _ Hb.
  change (sizeP s = Fulfilled (Int z)) in Hsize.
  change (whole_file_mode (Int z) (this s) = false) in Hmode.
  assert (fetches s ≠ []) as Hne by (intros Hnil; by rewrite Hnil in Hk).
  set (f' := {| f_start := f_start f; f_end := f_end f;
               f_promise := match r_settle r with
                            | Some q => settle (f_promise f) q
                            | None => f_promise f
                            end;
               f_res := r_res r |}).
  assert (in_bounds s = true) as Hb0.
  { revert Hb. rewrite !in_bounds_lookup.
    change (trace (apply_reaction k f r s)) with (trace s ++ r_actions r).
    change (fetches (apply_reaction k f r s)) with (<[k := f']> (fetches s)).
    intros H.
    apply (within_range_insert s k f f' (trace s) Hk); [done..|].
    intros j g Hj. eapply within_range_shorter. by apply H. }
  destruct (HA z Hsize Hmode Hne Hb0) as (c & Hc & Hlen & Hbytes).
  exists c. split; [done|]. split; [done|].
  intros i Hi. rewrite (flushed_reaction s k _ f r HP Hk Hcb).
  by apply Hbytes.
Qed.

Lemma assembling_quiet (s s' : state) (l : list action) :
  this s' = this s → sizeP s' = sizeP s → fetches s' = fetches s →
  file s' = file s → queue s' = queue s → trace s' = trace s ++ l →
  Forall (λ a, ∀ j pos data, a ≠ Write j pos data) l →
  assembling s → assembling s'.
Proof.
  intros Ht Hs Hf Hfl Hq Htr Hl HA z.
  assert (∀ j, written_by j (trace s') = written_by j (trace s)) as Hsame.
  { intros j. by rewrite Htr, written_by_app, (written_by_quiet j l Hl),
      app_nil_r. }
  assert (in_bounds s' = in_bounds s) as Hb.
  { unfold in_bounds. rewrite Hf. f_equal. apply imap_ext.
    intros k f _. unfold within_range. by rewrite Hsame. }
  rewrite Ht, Hs, Hf, Hfl, Hb. intros Hsize Hmode Hne Hin.
  destruct (HA z Hsize Hmode Hne Hin) as (c & ? & ? & Hbytes).
  exists c. split; [done|]. split; [done|].
  intros i Hi. rewrite (flushed_quiet s s' l _ Hq Htr Hl). by apply Hbytes.
Qed.

Lemma assembling_resume (env : Env) (s : state) :
  Inv s → piped s → assembling s → assembling (resume env s).
Proof.
  intros HI HP HA. unfold resume.
  assert (∀ p, assembling (finish p s)) as Hfinish.
  { intros [|[]|e]; [done|..].
    - by apply (assembling_quiet s _ [Emit DOWNLOAD_COMPLETE]); try done;
        repeat constructor.
    - by apply (assembling_quiet s _ [Emit (DOWNLOAD_FAILED e)]); try done;
        repeat constructor. }
  destruct (pc s) eqn:Hpc; try done.
  - destruct (sizeP s) as [|size|e] eqn:Hsize; [done|..].
    + pose proof (Inv_waiting s HI Hpc) as Hnil.
      destruct (after_size_launch env size s Hnil)
        as (Ht & Hs & Hq & (l & Htr & Hl) & Hawait).
      intros z Hz Hmode Hne _. rewrite Hs, Hsize in Hz. injection Hz as ->.
      rewrite Ht in Hmode.
      assert (not_launched s) as Hn.
      { destruct HI as [Hn|(? & _ & Hne' & _)]; [done|]. by destruct Hne'. }
      assert (∀ j, flushed j (after_size env (Int z) s) = []) as Hnone.
      { intros j. rewrite (flushed_quiet s _ l j Hq Htr Hl).
        pose proof (HP j) as Hj. rewrite Hnil in Hj. destruct Hj as [Hw _].
        unfold flushed. by rewrite Hw, take_nil. }
      destruct (after_size_file env s (Int z) Hn Hpc Hsize Hmode Hne)
        as (z' & c & Hz' & Hc & Hlen & Hzero).
      injection Hz' as <-. exists c. split; [done|]. split; [done|].
      intros i _. by rewrite Hzero, Hnone, nth_nil_byte.
    + by apply (assembling_quiet s _ [Emit (DOWNLOAD_FAILED e)]);
        try done; repeat constructor.
  - by destruct (fetches s !! 0%nat).
Qed.

Lemma assembling_written_out (k : nat) (s : state) :
  planned s → piped s → assembling s → assembling (written_out k s).
Proof.
  intros HPl HP HA.
  destruct (fetches s !! k) as [f|] eqn:Hk;
    [|by rewrite written_out_idle].
  destruct (written_out_quiet k s) as (Ht & Hs & Hfs & _ & _ & Htr & _).
  intros z. unfold in_bounds. rewrite Ht, Hs, Hfs, Htr.
  fold (in_bounds s). intros Hsize Hmode Hne Hb.
  destruct (HA z Hsize Hmode Hne Hb) as (c & Hc & Hlen & Hbytes).
  destruct (planned_ranges s z HPl Hsize Hmode Hne)
    as (Hz & Hcc & Hcs & _ & Hplan).
  fold (chunk_step z) in Hcs, Hplan.
  destruct (Hplan k f Hk) as [Hstart Hend].
  set (cs := chunk_step z) in *.
  assert (Z.of_nat (length (written_by k (trace s)))
          ≤ Z.min (Z.of_nat k * cs + cs - 1) (z - 1) - Z.of_nat k * cs + 1)
    as Hfit.
  { apply in_bounds_lookup with (k := k) (f := f) in Hb; [|done].
    unfold within_range in Hb. rewrite Hstart, Hend in Hb.
    by apply Z.leb_le in Hb. }
  rewrite safe_bound in Hz.
  destruct (written_out_step k s (Z.of_nat k * cs) f HP Hk Hstart)
    as [->|(c' & data & Hc' & Hfile & Hfl & Hlen' & Hothers)];
    [lia|lia|by exists c|].
  assert (c' = c) as -> by congruence.
  rewrite length_app in Hlen'.
  remember (Z.of_nat (length (flushed k s))) as n eqn:Hn.
  rewrite Hfile, Hc.
  destruct (fs_write_at_read c (Z.of_nat k * cs + n) data ltac:(lia))
    as (c2 & -> & Hlen2 & Hbytes2).
  exists c2. split; [done|]. split; [lia|].
  intros i Hi. rewrite Hbytes2.
  destruct (Z.leb_spec (Z.of_nat k * cs + n) i);
    destruct (Z.ltb_spec i (Z.of_nat k * cs + n + Z.of_nat (length data)));
    cbn [andb].
  - destruct (chunk_index i cs (Z.of_nat k)) as [-> ->]; [lia|lia|].
    rewrite Nat2Z.id, Hfl. rewrite app_nth2 by lia. f_equal. lia.
  - rewrite Hbytes by done.
    destruct (decide (Z.to_nat (i / cs) = k)) as [Heq|Hneq];
      [|by rewrite Hothers].
    rewrite Heq, Hfl.
    assert (i / cs = Z.of_nat k) as Hq
      by (pose proof (Z.div_pos i cs); lia).
    pose proof (Z.mod_pos_bound i cs ltac:(lia)).
    pose proof (Z.div_mod i cs ltac:(lia)) as Hdm. rewrite Hq in Hdm.
    by rewrite !nth_overflow by (rewrite ?length_app; lia).
  - rewrite Hbytes by done.
    destruct (decide (Z.to_nat (i / cs) = k)) as [Heq|Hneq];
      [|by rewrite Hothers].
    rewrite Heq, Hfl.
    assert (i / cs = Z.of_nat k) as Hq
      by (pose proof (Z.div_pos i cs); lia).
    pose proof (Z.mod_pos_bound i cs ltac:(lia)).
    pose proof (Z.div_mod i cs ltac:(lia)) as Hdm. rewrite Hq in Hdm.
    by rewrite app_nth1 by lia.
  - lia.
Qed.

Lemma assembling_handle (env : Env) (x : stimulus) (s : state) :
  Inv s → planned s → piped s → assembling s → assembling (handle env x s).
Proof.
  intros HI HPl HP HA.
  destruct (handle_callbacks env x s)
    as [->|[(Hp & Hfs & _)|[(k & f & r & Hk & Hcb & ->)
       |[->|[[k ->]|(k & err & ->)]]]]].
  - done.
  - intros z _ _ Hne. rewrite Hfs in Hne.
    by destruct (Hne (Inv_pending s HI Hp)).
  - by apply assembling_reaction.
  - by apply assembling_resume.
  - by apply assembling_written_out.
  - unfold stream_error.
    by destruct (f_res <$> fetches s !! k) as [[]|].
Qed.

(** X12.  In a run for a size [z] above 100 MiB in which no response has
    delivered more bytes than its range holds, the output file has exactly
    [z] bytes.  The bytes each fetch has handed to its write stream are those
    the stream has written out followed by those it still holds; the bytes
    written out stand in the file from the start of the range on; and every
    byte that no stream has written yet is zero.  This holds at every point
    of the run, whether [download] has returned or not, and for every
    interleaving of the responses and the writes. *)
Theorem download_assembles (env : Env) (d : Downloadr) (file0 : file_content)
    (schedule : list stimulus) :
  let s := run env d file0 schedule in
  ∀ z, sizeP s = Fulfilled (Int z) → 104857600 < z → fetches s ≠ [] →
    in_bounds s = true →
    ∃ c, file s = Some c ∧ fd_size c = z
         ∧ (∀ k f a, fetches s !! k = Some f → f_start f = Int a →
                     written_by k (trace s) = flushed k s ++ queued k s
                     ∧ fs_read c a (length (flushed k s)) = flushed k s)
         ∧ (∀ i, 0 ≤ i < z →
                 Z.of_nat (length (flushed (Z.to_nat (i / chunk_step z)) s))
                 ≤ i `mod` chunk_step z →
                 read_byte c i = x00).
Proof.
  intros s z Hsize Hz Hne Hb.
  destruct (run_invariant assembling env d file0 schedule)
    as (_ & HPl & HP & HA).
  { by intros z' _ _ Hne'. }
  { intros x s0 HI0 HPl0 HP0 HA0. by apply assembling_handle. }
  fold s in HPl, HP, HA.
  assert (whole_file_mode (Int z) (this s) = false) as Hmode.
  { rewrite (whole_file_mode_threshold (this s) z (proj1 HPl _ Hsize)).
    apply Z.leb_gt. lia. }
  destruct (HA z Hsize Hmode Hne Hb) as (c & Hc & Hlen & Hbytes).
  destruct (planned_ranges s z HPl Hsize Hmode Hne)
    as (_ & _ & Hcs & _ & Hplan).
  fold (chunk_step z) in Hcs, Hplan.
  exists c. split; [done|]. split; [done|]. split.
  - intros k f a Hk Ha. destruct (Hplan k f Hk) as [Hstart Hend].
    assert (a = Z.of_nat k * chunk_step z) as -> by congruence.
    pose proof (piped_flushed k s HP) as Hw. split; [done|].
    apply in_bounds_lookup with (k := k) (f := f) in Hb; [|done].
    unfold within_range in Hb. rewrite Hstart, Hend in Hb.
    apply Z.leb_le in Hb. rewrite Hw, length_app in Hb.
    unfold fs_read. apply list_eq. intros j. rewrite list_lookup_fmap.
    destruct (decide (j < length (flushed k s))%nat) as [Hj|Hj].
    + rewrite lookup_seq_lt by done. simpl.
      rewrite Hbytes by lia.
      destruct (chunk_index (Z.of_nat k * chunk_step z + Z.of_nat j)
                  (chunk_step z) (Z.of_nat k)) as [-> ->]; [lia|lia|].
      rewrite Nat2Z.id.
      replace (Z.to_nat (Z.of_nat k * chunk_step z + Z.of_nat j
                         - Z.of_nat k * chunk_step z)) with j by lia.
      destruct (lookup_lt_is_Some_2 _ j Hj) as [b Hbyte].
      rewrite Hbyte. f_equal. by apply nth_lookup_Some.
    + rewrite lookup_seq_ge by lia. simpl. symmetry.
      apply lookup_ge_None. lia.
  - intros i Hi Hlate. rewrite Hbytes by done.
    apply nth_overflow. pose proof (Z.mod_pos_bound i (chunk_step z)). lia.
Qed.

(** The theorem on a run over a file of five bytes: two buffers were handed
    to the stream and the first is written out. *)
Lemma whole_file_run_overwrites_witness :
  ∃ c,
    file (run no_faults
            (new_Downloadr {| opt_url := "http://h/f"; opt_outputPath := "f";
                              opt_chunkCount := None;
                              opt_highWaterMark := None |})
            (Some (file_of_bytes [x01; x02; x03; x04; x05]))
            [ProbeResponse ∅; Tick; FetchResponse 0 (Int 200);
             FetchData 0 [x09]; FetchData 0 [x08]; FileWritten 0;
             FetchEnd 0; Tick]) = Some c
    ∧ fd_size c = 5
    ∧ fs_read c 0 1 = [x09]
    ∧ ∀ i, 1 ≤ i →
           read_byte c i = read_byte (file_of_bytes [x01; x02; x03; x04; x05]) i.
Proof.
  pose proof (whole_file_run_overwrites no_faults
            (new_Downloadr {| opt_url := "http://h/f"; opt_outputPath := "f";
                              opt_chunkCount := None;
                              opt_highWaterMark := None |})
            (Some (file_of_bytes [x01; x02; x03; x04; x05]))
            [ProbeResponse ∅; Tick; FetchResponse 0 (Int 200);
             FetchData 0 [x09]; FetchData 0 [x08]; FileWritten 0;
             FetchEnd 0; Tick]) as Hthm.
  cbv zeta in Hthm.
  remember (run no_faults
            (new_Downloadr {| opt_url := "http://h/f"; opt_outputPath := "f";
                              opt_chunkCount := None;
                              opt_highWaterMark := None |})
            (Some (file_of_bytes [x01; x02; x03; x04; x05]))
            [ProbeResponse ∅; Tick; FetchResponse 0 (Int 200);
             FetchData 0 [x09]; FetchData 0 [x08]; FileWritten 0;
             FetchEnd 0; Tick]) as s eqn:Hs.
  assert (sizeP s = Fulfilled (Int (-1))) as Hsize
    by (rewrite Hs; vm_compute; reflexivity).
  assert (whole_file_mode (Int (-1)) (this s) = true) as Hmode
    by (rewrite Hs; vm_compute; reflexivity).
  assert (Z.of_nat (length (written_by 0 (trace s))) ≤ 2 ^ 53) as Hbound
    by (rewrite Hs; vm_compute; discriminate).
  assert (flushed 0 s = [x09]) as Hfl
    by (rewrite Hs; vm_compute; reflexivity).
  assert (∀ c0, Some (file_of_bytes [x01; x02; x03; x04; x05]) = Some c0 →
                0 ≤ fd_size c0) as Hfile
    by (intros c0 H; injection H as H; rewrite <- H; simpl; lia).
  clear Hs.
  destruct (Hthm Hfile (Int (-1)) Hsize Hmode Hbound)
    as [_ (c & Hc & Hlen & Hread & Hrest)].
  rewrite Hfl in Hlen, Hread, Hrest.
  exists c. split; [exact Hc|]. split; [exact Hlen|].
  split; [exact Hread|exact Hrest].
Defined.

(** The theorem on a two-chunk run: three buffers were handed to the
    streams, and the file system has written the first of each stream. *)
Lemma download_assembles_witness :
  ∃ c,
    file (run no_faults
            (new_Downloadr {| opt_url := "http://h/f"; opt_outputPath := "f";
                              opt_chunkCount := None;
                              opt_highWaterMark := None |})
            None
            [ProbeResponse {[ "content-length" := "200000000" ]}; Tick;
             FetchResponse 1 (Int 206); FetchData 1 [x07; x08];
             FetchResponse 0 (Int 206); FetchData 0 [x01];
             FetchData 1 [x09]; FileWritten 1; FileWritten 0]) = Some c
    ∧ fd_size c = 200000000
    ∧ fs_read c 0 1 = [x01]
    ∧ fs_read c 100000000 2 = [x07; x08]
    ∧ read_byte c 100000002 = x00.
Proof.
  pose proof (download_assembles no_faults
            (new_Downloadr {| opt_url := "http://h/f"; opt_outputPath := "f";
                              opt_chunkCount := None;
                              opt_highWaterMark := None |})
            None
            [ProbeResponse {[ "content-length" := "200000000" ]}; Tick;
             FetchResponse 1 (Int 206); FetchData 1 [x07; x08];
             FetchResponse 0 (Int 206); FetchData 0 [x01];
             FetchData 1 [x09]; FileWritten 1; FileWritten 0]) as Hthm.
  cbv zeta in Hthm.
  remember (run no_faults
            (new_Downloadr {| opt_url := "http://h/f"; opt_outputPath := "f";
                              opt_chunkCount := None;
                              opt_highWaterMark := None |})
            None
            [ProbeResponse {[ "content-length" := "200000000" ]}; Tick;
             FetchResponse 1 (Int 206); FetchData 1 [x07; x08];
             FetchResponse 0 (Int 206); FetchData 0 [x01];
             FetchData 1 [x09]; FileWritten 1; FileWritten 0]) as s eqn:Hs.
  assert (sizeP s = Fulfilled (Int 200000000)) as Hsize
    by (rewrite Hs; vm_compute; reflexivity).
  assert (104857600 < 200000000) as Hz by lia.
  assert (fetches s ≠ []) as Hne
    by (rewrite Hs; vm_compute; intros H; discriminate H).
  assert (in_bounds s = true) as Hb by (rewrite Hs; vm_compute; reflexivity).
  assert (∃ f, fetches s !! 0%nat = Some f ∧ f_start f = Int 0)
    as (f0 & Hf0 & Hs0)
    by (rewrite Hs; eexists; split; vm_compute; reflexivity).
  assert (∃ f, fetches s !! 1%nat = Some f ∧ f_start f = Int 100000000)
    as (f1 & Hf1 & Hs1)
    by (rewrite Hs; eexists; split; vm_compute; reflexivity).
  assert (flushed 0 s = [x01]) as Hw0
    by (rewrite Hs; vm_compute; reflexivity).
  assert (flushed 1 s = [x07; x08]) as Hw1
    by (rewrite Hs; vm_compute; reflexivity).
  assert (chunk_step 200000000 = 100000000) as Hstep
    by (vm_compute; reflexivity).
  clear Hs.
  destruct (Hthm 200000000 Hsize Hz Hne Hb)
    as (c & Hc & Hlen & Hread & Hzero).
  exists c. split; [exact Hc|]. split; [exact Hlen|].
  pose proof (proj2 (Hread 0%nat f0 0 Hf0 Hs0)) as H0. rewrite Hw0 in H0.
  pose proof (proj2 (Hread 1%nat f1 100000000 Hf1 Hs1)) as H1.
  rewrite Hw1 in H1.
  split; [exact H0|]. split; [exact H1|].
  apply Hzero; [lia|]. rewrite Hstep.
  change (Z.to_nat (100000002 / 100000000)) with 1%nat. rewrite Hw1.
  vm_compute. discriminate.
Defined.

(** ** Where a failure comes from *)

Lemma callback_rejects (k : nat) (f : fetch) (r : reaction) (e : error) :
  callback_of k f r →
  match r_settle r with
  | Some q => settle (f_promise f) q
  | None => f_promise f
  end = Rejected e →
  f_promise f = Rejected e
  ∨ Emit (CHUNK_DOWNLOAD_FAILED e) ∈ r_actions r
  ∨ refusal e.
Proof.
  intros [(status & _ & ->)|[(pos & chunk & _ & ->)
         |[(pos & _ & ->)|(err & ->)]]].
  - unfold on_response.
    destruct (negb _ && negb _) eqn:Hbad; cbn [r_settle]; [|by left].
    destruct (f_promise f); [|done|by left].
    intros [= <-]. right. right. exists status. split; [done|].
    apply andb_true_iff in Hbad as [H1 H2].
    by apply negb_true_iff in H1, H2.
  - by left.
  - cbn [on_end r_settle]. destruct (f_promise f); [done|done|by left].
  - cbn [on_error r_settle r_actions]. destruct (f_promise f); [|done|by left].
    intros [= <-]. right. left. apply list_elem_of_singleton. done.
Qed.

Lemma blamed_reaction (s : state) (k : nat) (f : fetch) (r : reaction) :
  fetches s !! k = Some f → callback_of k f r →
  blamed s → blamed (apply_reaction k f r s).
Proof.
  intros Hk Hcb (H1 & H2 & H3).
  set (p := match r_settle r with
            | Some q => settle (f_promise f) q
            | None => f_promise f
            end).
  set (f' := {| f_start := f_start f; f_end := f_end f;
               f_promise := p; f_res := r_res r |}).
  set (s' := apply_reaction k f r s).
  assert (trace s' = trace s ++ r_actions r) as Htr by done.
  assert (fetches s' = <[k := f']> (fetches s)) as Hfs by done.
  assert (allP s' = settle (allP s) (join (<[k := f']> (fetches s)) f'))
    as Hall by done.
  assert (pc s' = pc s) as Hpc by done.
  assert (fetches s' !! k = Some f') as Hk'.
  { rewrite Hfs. apply list_lookup_insert_eq. by eapply lookup_lt_Some. }
  assert (fetches s ≠ []) as Hne by (intros Hnil; by rewrite Hnil in Hk).
  assert (∀ e, f_promise f = Rejected e → p = Rejected e) as Hkeep.
  { intros e He. subst p. rewrite He. by destruct (r_settle r). }
  assert (∀ e, (∃ k0 f0, fetches s !! k0 = Some f0
                         ∧ f_promise f0 = Rejected e) →
               ∃ k0 f0, fetches s' !! k0 = Some f0
                        ∧ f_promise f0 = Rejected e) as Hmove.
  { intros e (k0 & f0 & Hk0 & He). destruct (decide (k0 = k)) as [->|Hk0k].
    - exists k, f'. split; [done|]. apply Hkeep. congruence.
    - exists k0, f0. split; [|done]. rewrite Hfs.
      by rewrite list_lookup_insert_ne. }
  split; [|split].
  - intros j g e Hj He. rewrite Htr. rewrite Hfs in Hj.
    destruct (decide (j = k)) as [->|Hjk].
    + rewrite list_lookup_insert_eq in Hj by (by eapply lookup_lt_Some).
      injection Hj as <-.
      destruct (callback_rejects k f r e Hcb He) as [Hold|[Hnew|Href]].
      * destruct (H1 k f e Hk Hold) as [Hin|Href]; [|by right].
        left. apply elem_of_app. by left.
      * left. apply elem_of_app. by right.
      * by right.
    + rewrite list_lookup_insert_ne in Hj by done.
      destruct (H1 j g e Hj He) as [Hin|Href]; [|by right].
      left. apply elem_of_app. by left.
  - intros e. rewrite Hall. destruct (allP s) as [| |e0] eqn:Ha.
    + simpl. unfold join. cbn [f_promise f'].
      destruct p as [| |e1] eqn:Hp; try by destruct (forallb _ _).
      intros [= ->]. by exists k, f'.
    + done.
    + intros [= ->]. apply Hmove. by apply H2.
  - intros e. rewrite Hpc. intros He _. apply Hmove. by apply H3.
Qed.

Lemma blamed_after_size (env : Env) (size : number) (s : state) :
  fetches s = [] → allP s = Pending → blamed (after_size env size s).
Proof.
  intros Hnil Hall. unfold after_size.
  assert (∀ s', fetches s' = [] → allP s' = Pending → blamed s') as Hidle.
  { intros s' Hf Ha. split; [|split].
    - intros k f e. by rewrite Hf.
    - intros e. by rewrite Ha.
    - intros e _. by rewrite Hf. }
  destruct (whole_file_mode size (this s)).
  { split; [|split].
    - intros [|k] f e; [|done]. by intros [= <-].
    - intros e. simpl. by rewrite Hall.
    - done. }
  destruct (preallocate env size (file s)) as [[calls f'] [err|]];
    [by apply Hidle|].
  cbv zeta. destruct (getChunks _ _ _) as [chunks|]; [|by apply Hidle].
  pose proof (launch_pending chunks) as Hpending.
  destruct (launch_all chunks) as [fs gs]. simpl in Hpending.
  split; [|split].
  - intros k f e Hk. simpl in Hk.
    by rewrite (Hpending f (list_elem_of_lookup_2 _ _ _ Hk)).
  - intros e. simpl. by destruct chunks.
  - done.
Qed.

Lemma blamed_finish (p : promise unit) (s : state) :
  blamed s →
  (∀ e, p = Rejected e →
        ∃ k f, fetches s !! k = Some f ∧ f_promise f = Rejected e) →
  blamed (finish p s).
Proof.
  intros (H1 & H2 & H3) Hp.
  destruct p as [|[]|e]; [done|..]; (split; [|split]); simpl.
  - intros k f e Hk He. destruct (H1 k f e Hk He); [|by right].
    left. apply elem_of_app. by left.
  - done.
  - done.
  - intros k f e' Hk He. destruct (H1 k f e' Hk He); [|by right].
    left. apply elem_of_app. by left.
  - done.
  - intros e' [= <-] _. by apply Hp.
Qed.

Lemma blamed_resume (env : Env) (s : state) :
  Inv s → blamed s → blamed (resume env s).
Proof.
  intros HI HB. unfold resume. destruct (pc s) eqn:Hpc; try done.
  - pose proof (Inv_waiting s HI Hpc) as Hnil.
    assert (allP s = Pending) as Hall.
    { destruct HI as [[_ Hshape]|(? & _ & _ & _ & _ & _ & _ & Hl)];
        [|by rewrite Hpc in Hl].
      rewrite Hpc in Hshape. by destruct Hshape as (_ & ? & _). }
    destruct (sizeP s) as [|size|e]; [done|by apply blamed_after_size|].
    split; [|split]; simpl.
    + intros k f e'. by rewrite Hnil.
    + intros e'. by rewrite Hall.
    + intros e' _. by rewrite Hnil.
  - destruct (fetches s !! 0%nat) as [f|] eqn:Hk; [|done].
    apply blamed_finish; [done|]. intros e He. by exists 0%nat, f.
  - apply blamed_finish; [done|]. by destruct HB as (_ & H2 & _).
Qed.

Lemma blamed_handle (env : Env) (x : stimulus) (s : state) :
  Inv s → blamed s → blamed (handle env x s).
Proof.
  intros HI HB.
  destruct (handle_callbacks env x s)
    as [->|[(_ & Hfs & Hall & Hpc & _ & _ & Htr)
           |[(k & f & r & Hk & Hcb & ->)|[->|[[k ->]|(k & err & ->)]]]]].
  - done.
  - unfold blamed. by rewrite Hfs, Hall, Hpc, Htr.
  - by apply blamed_reaction.
  - by apply blamed_resume.
  - destruct (written_out_quiet k s) as (_ & _ & Hfs & Hall & Hpc & Htr & _).
    unfold blamed. by rewrite Hfs, Hall, Hpc, Htr.
  - destruct (stream_error_quiet k err s)
      as (_ & _ & Hfs & Hall & Hpc & Htr & _).
    unfold blamed. by rewrite Hfs, Hall, Hpc, Htr.
Qed.

(** X13.  When [download] throws after it has launched its fetches, the
    error thrown is the one a fetch promise was rejected with, and that
    error was either announced by a CHUNK_DOWNLOAD_FAILED event or is the
    refusal of a response status other than 200 and 206, which no event
    announces. *)
Theorem download_failure_cause (env : Env) (d : Downloadr)
    (file0 : file_content) (schedule : list stimulus) :
  let s := run env d file0 schedule in
  ∀ e, pc s = Threw e → fetches s ≠ [] →
    ∃ k f, fetches s !! k = Some f ∧ f_promise f = Rejected e
           ∧ (Emit (CHUNK_DOWNLOAD_FAILED e) ∈ trace s ∨ refusal e).
Proof.
  intros s e He Hne.
  destruct (run_invariant blamed env d file0 schedule)
    as (_ & _ & _ & H1 & _ & H3).
  { by split; [|split]. }
  { intros x s0 HI0 _ _ HB0. by apply blamed_handle. }
  fold s in H1, H3.
  destruct (H3 e He Hne) as (k & f & Hk & Hrej).
  exists k, f. split; [done|]. split; [done|]. by apply (H1 k f).
Qed.

Lemma download_failure_cause_witness :
  ∃ k f,
    fetches (run no_faults
               (new_Downloadr {| opt_url := "http://h/f";
                                 opt_outputPath := "f";
                                 opt_chunkCount := None;
                                 opt_highWaterMark := None |})
               None
               [ProbeResponse {[ "content-length" := "200000000" ]}; Tick;
                FetchResponse 0 (Int 206);
                FetchReqError 1 (External "ECONNRESET"); Tick]) !! k = Some f
    ∧ f_promise f = Rejected (External "ECONNRESET")
    ∧ (Emit (CHUNK_DOWNLOAD_FAILED (External "ECONNRESET"))
       ∈ trace (run no_faults
                  (new_Downloadr {| opt_url := "http://h/f";
                                    opt_outputPath := "f";
                                    opt_chunkCount := None;
                                    opt_highWaterMark := None |})
                  None
                  [ProbeResponse {[ "content-length" := "200000000" ]}; Tick;
                   FetchResponse 0 (Int 206);
                   FetchReqError 1 (External "ECONNRESET"); Tick])
       ∨ refusal (External "ECONNRESET")).
Proof.
  pose proof (download_failure_cause no_faults
               (new_Downloadr {| opt_url := "http://h/f";
                                 opt_outputPath := "f";
                                 opt_chunkCount := None;
                                 opt_highWaterMark := None |})
               None
               [ProbeResponse {[ "content-length" := "200000000" ]}; Tick;
                FetchResponse 0 (Int 206);
                FetchReqError 1 (External "ECONNRESET"); Tick]) as Hthm.
  cbv zeta in Hthm.
  remember (run no_faults
               (new_Downloadr {| opt_url := "http://h/f";
                                 opt_outputPath := "f";
                                 opt_chunkCount := None;
                                 opt_highWaterMark := None |})
               None
               [ProbeResponse {[ "content-length" := "200000000" ]}; Tick;
                FetchResponse 0 (Int 206);
                FetchReqError 1 (External "ECONNRESET"); Tick]) as s eqn:Hs.
  assert (pc s = Threw (External "ECONNRESET")) as Hpc
    by (rewrite Hs; vm_compute; reflexivity).
  assert (fetches s ≠ []) as Hne
    by (rewrite Hs; vm_compute; intros H; discriminate H).
  exact (Hthm (External "ECONNRESET") Hpc Hne).
Defined.

(** ** The protocol client *)

Lemma to_lower_scheme (c : ascii) :
  (to_lower c = "h"%char ↔ c = "h"%char ∨ c = "H"%char)
  ∧ (to_lower c = "t"%char ↔ c = "t"%char ∨ c = "T"%char)
  ∧ (to_lower c = "p"%char ↔ c = "p"%char ∨ c = "P"%char)
  ∧ (to_lower c = "s"%char ↔ c = "s"%char ∨ c = "S"%char)
  ∧ (to_lower c = ":"%char ↔ c = ":"%char).
Proof.
  destruct c as [[] [] [] [] [] [] [] []]; vm_compute;
    repeat split; try (intros H; discriminate H); auto;
    intros [H|H]; discriminate H.
Qed.

(** X14.  [getProtocolClient] chooses the https module exactly for the URLs
    that begin with the letters h, t, t, p, s in either case followed by a
    colon; every other URL, whatever its scheme, gets the http module. *)
Theorem getProtocolClient_https (u : string) :
  getProtocolClient u = https
  ↔ ∃ h t1 t2 p s rest,
      u = String h (String t1 (String t2 (String p (String s
            (String ":" rest)))))
      ∧ (h = "h" ∨ h = "H")%char ∧ (t1 = "t" ∨ t1 = "T")%char
      ∧ (t2 = "t" ∨ t2 = "T")%char ∧ (p = "p" ∨ p = "P")%char
      ∧ (s = "s" ∨ s = "S")%char.
Proof.
  unfold getProtocolClient, startsWith. split.
  - destruct u as [|c1 [|c2 [|c3 [|c4 [|c5 [|c6 rest]]]]]];
      cbn [toLowerCase Str.strip_prefix];
      repeat (case_bool_decide; [|done]); try done.
    intros _. exists c1, c2, c3, c4, c5, rest.
    assert (c6 = ":"%char) as -> by (by apply (to_lower_scheme c6)).
    split; [done|].
    split; [by apply (to_lower_scheme c1)|].
    split; [by apply (to_lower_scheme c2)|].
    split; [by apply (to_lower_scheme c3)|].
    split; [by apply (to_lower_scheme c4)|].
    by apply (to_lower_scheme c5).
  - intros (h & t1 & t2 & p & s & rest & -> & Hh & Ht1 & Ht2 & Hp & Hs).
    cbn [toLowerCase Str.strip_prefix].
    apply (to_lower_scheme h) in Hh. apply (to_lower_scheme t1) in Ht1.
    apply (to_lower_scheme t2) in Ht2. apply (to_lower_scheme p) in Hp.
    apply (to_lower_scheme s) in Hs.
    rewrite Hh, Ht1, Ht2, Hp, Hs. done.
Qed.

Lemma getProtocolClient_https_witness :
  getProtocolClient "HttpS://example.com/file.zip" = https.
Proof.
  apply (proj2 (getProtocolClient_https "HttpS://example.com/file.zip")).
  exists "H"%char, "t"%char, "t"%char, "p"%char, "S"%char,
    "//example.com/file.zip".
  split; [reflexivity|]. repeat split; auto.
Defined.

(** ** A chunk count that is no finite number *)

(** X15.  With a chunk count of [Infinity] the step
    [ceil (fileSize / Infinity)] is 0: for every file size of at least 1 the
    loop of [getChunks] never exits, whatever the number of iterations
    granted. *)
Theorem getChunks_infinite_count (d : Downloadr) (fileSize : Z) (fuel : nat) :
  1 ≤ fileSize → chunkCount d = Infinity →
  getChunks fuel d (Int fileSize) = None.
Proof.
  intros Hfs Hd. unfold getChunks. rewrite Hd.
  change (JS.ceil_div (Int fileSize) Infinity) with (Int 0).
  apply (getChunks_loop_never (λ i, i = Int 0)); [|done].
  intros i ->. split; [|done]. apply Z.ltb_lt. lia.
Qed.

Lemma getChunks_infinite_count_witness :
  getChunks 1000 (set_chunkCount Infinity
                    (new_Downloadr {| opt_url := "http://h/f";
                                      opt_outputPath := "f";
                                      opt_chunkCount := None;
                                      opt_highWaterMark := None |}))
    (Int 10) = None.
Proof.
  exact (getChunks_infinite_count
           (set_chunkCount Infinity
              (new_Downloadr {| opt_url := "http://h/f";
                                opt_outputPath := "f";
                                opt_chunkCount := None;
                                opt_highWaterMark := None |}))
           10 1000 ltac:(lia) eq_refl).
Defined.

(** ** The run does not wait for the file *)

(** The calls of the preallocation step and its outcome do not depend on
    what the path held. *)
Lemma preallocate_calls (env : Env) (size : number) (f g : file_content) :
  (preallocate env size f).1.1 = (preallocate env size g).1.1
  ∧ (preallocate env size f).2 = (preallocate env size g).2.
Proof.
  unfold preallocate. destruct (open_result env); [done|].
  by destruct (ftruncate_outcome env size).
Qed.

Lemma skeleton_after_size (env : Env) (size : number) (s s' : state) :
  skeleton s = skeleton s' →
  skeleton (after_size env size s) = skeleton (after_size env size s').
Proof.
  unfold skeleton. intros [= Ht Hs Hf Ha Hp Htr Hc]. unfold after_size.
  rewrite Ht. destruct (whole_file_mode size (this s')).
  { simpl. by rewrite ?Ht, ?Hs, ?Ha, ?Htr, ?Hc. }
  destruct (preallocate_calls env size (file s) (file s')) as [Hcalls Hthrown].
  destruct (preallocate env size (file s)) as [[calls f1] thrown1].
  destruct (preallocate env size (file s')) as [[calls' f2] thrown2].
  simpl in Hcalls, Hthrown. subst calls' thrown2.
  destruct thrown1 as [err|].
  { simpl. by rewrite ?Ht, ?Hs, ?Hf, ?Ha, ?Htr, ?Hc. }
  cbv zeta. cbn [this set_file act]. rewrite ?Ht.
  destruct (getChunks _ _ _) as [chunks|].
  - destruct (launch_all chunks) as [fs gs]. simpl.
    by rewrite ?Ht, ?Hs, ?Htr, ?Hc.
  - simpl. by rewrite ?Ht, ?Hs, ?Hf, ?Ha, ?Htr, ?Hc.
Qed.

Lemma skeleton_written_out (k : nat) (s : state) :
  skeleton (written_out k s) = skeleton s.
Proof.
  destruct (written_out_quiet k s) as (Ht & Hs & Hf & Ha & Hp & Htr & Hc).
  unfold skeleton. by rewrite ?Ht, ?Hs, ?Hf, ?Ha, ?Hp, ?Htr, ?Hc.
Qed.

Lemma skeleton_handle (env : Env) (x : stimulus) (s s' : state) :
  skeleton s = skeleton s' →
  skeleton (handle env x s) = skeleton (handle env x s').
Proof.
  intros H. pose proof H as [= Ht Hs Hf Ha Hp Htr Hc].
  assert (∀ k h, skeleton (on_fetch k h s) = skeleton (on_fetch k h s'))
    as Hfetch.
  { intros k h. unfold on_fetch. rewrite Hf.
    destruct (fetches s' !! k) as [f|]; [|done].
    destruct (h f) as [r|]; [|done].
    unfold skeleton, apply_reaction. simpl.
    by rewrite ?Ht, ?Hs, ?Hf, ?Ha, ?Hp, ?Htr, ?Hc. }
  assert (∀ p, skeleton (finish p s) = skeleton (finish p s')) as Hfinish.
  { intros [|[]|e]; [done|..]; unfold skeleton; simpl;
      by rewrite ?Ht, ?Hs, ?Hf, ?Ha, ?Htr, ?Hc. }
  destruct x as [hs|err|k status|k chunk|k|k err|k err|k|k err|];
    try apply Hfetch.
  - simpl. rewrite Hs, Ht. destruct (sizeP s'); [|done..].
    destruct (getFileSize_response (this s') hs). unfold skeleton. simpl.
    by rewrite ?Hf, ?Ha, ?Hp, ?Htr, ?Hc.
  - unfold skeleton. simpl. by rewrite ?Ht, ?Hs, ?Hf, ?Ha, ?Hp, ?Htr, ?Hc.
  - cbn [handle]. by rewrite !skeleton_written_out.
  - simpl. unfold stream_error. rewrite Hf.
    destruct (f_res <$> fetches s' !! k) as [[]|]; try done.
    unfold skeleton. simpl. by rewrite ?Ht, ?Hs, ?Hf, ?Ha, ?Hp, ?Htr.
  - simpl. unfold resume. rewrite Hp, Hs, Hf, Ha.
    destruct (pc s'); try done.
    + destruct (sizeP s') as [|size|e] eqn:Hs'; [done| |].
      * exact (skeleton_after_size env size s s' H).
      * unfold skeleton. simpl.
        by rewrite ?Ht, ?Hs, ?Hs', ?Hf, ?Ha, ?Htr, ?Hc.
    + by destruct (fetches s' !! 0%nat).
Qed.

Lemma skeleton_run_from (env : Env) (schedule : list stimulus) (s s' : state) :
  skeleton s = skeleton s' →
  skeleton (run_from env s schedule)
  = skeleton (run_from env s' (without_writes schedule)).
Proof.
  revert s s'. induction schedule as [|x rest IH]; intros s s' H; [done|].
  assert (crashed s = crashed s') as Hc by (by injection H).
  cbn [run_from]. rewrite Hc.
  destruct x as [hs|err|k status|k chunk|k|k err|k err|k|k err|];
    try (cbn [without_writes run_from];
         destruct (crashed s'); [done|]; by apply IH, skeleton_handle).
  cbn [without_writes]. destruct (crashed s') eqn:Hc'.
  - destruct (without_writes rest); cbn [run_from]; by rewrite ?Hc'.
  - apply IH. simpl. by rewrite skeleton_written_out.
Qed.

(** X16.  [download] does not wait for its write streams, and nothing it
    does depends on them: a run in which the file system completes writes,
    at any points, issues the same requests, makes the same calls, emits the
    same events and ends the same way as the run in which no write ever
    completes.  So [download] can return, DOWNLOAD_COMPLETE emitted, while
    bytes it has received are not in the file: in the whole-file run below
    over a one-byte file, the byte received is still in the queue of the
    stream when [download] has returned. *)
Theorem download_ignores_write_completion (env : Env) (d : Downloadr)
    (file0 : file_content) :
  (∀ schedule,
     let s := run env d file0 schedule in
     let s' := run env d file0 (without_writes schedule) in
     trace s' = trace s ∧ pc s' = pc s ∧ fetches s' = fetches s
     ∧ crashed s' = crashed s)
  ∧ (let s := run no_faults d (Some (file_of_bytes [x01]))
                [ProbeResponse ∅; Tick; FetchResponse 0 (Int 200);
                 FetchData 0 [x09]; FetchEnd 0; Tick] in
     pc s = Returned
     ∧ events (trace s)
       = [DOWNLOAD_START; CHUNK_DOWNLOAD_PROGRESS (Int 0) Infinity [x09];
          CHUNK_DOWNLOADED (Int 0) Infinity; DOWNLOAD_COMPLETE]
     ∧ queued 0 s = [x09]
     ∧ (λ c, fs_read c 0 1) <$> file s = Some [x01]).
Proof.
  split; [|by vm_compute].
  intros schedule s s'.
  pose proof (skeleton_run_from env schedule (download d file0)
                (download d file0) eq_refl) as H.
  fold (run env d file0 schedule) in H.
  fold (run env d file0 (without_writes schedule)) in H.
  fold s s' in H. unfold skeleton in H.
  by injection H as _ _ -> _ -> -> ->.
Qed.
